(** * GenerateUcd: the compression and encoding engine of maint/GenerateUcd.py

    A shallow embedding of the table generator that builds PCRE2's Unicode
    property tables: width selection, record interning, the two-stage table
    compressor with its block-size search, the caseless-set builder, the
    Boolean-property catalogue and the digit-set extractor.

    Python integers are [Z]; list positions and catalogue ids are [nat];
    Python lists are [list]; a [dict] whose order is observable is an
    association list in insertion order, the others are [gmap]; a Python
    [set] is a [gset].  Code that can raise runs in the [result] monad.

    The loops that the source runs over [range(MAX_UNICODE)] take the bound
    as an argument, [max_unicode], so that they can be run on short tables;
    what is proved of them holds for every bound, MAX_UNICODE included.  The
    parsing of the data files and the text of the output are left out: the
    functions start from the parsed lines and end with the values written. *)

From stdpp Require Import base decidable option list numbers gmap strings sorting.
From Stdlib Require Import ZArith Lia Ascii.
Local Open Scope Z_scope.

(** ** Exceptions *)

Inductive exn : Type :=
  | ValueError
  | OverflowError
  | IndexError
  | TypeError.

Inductive result (A : Type) : Type :=
  | Ok (a : A)
  | Raise (e : exn).
Arguments Ok {A} a.
Arguments Raise {A} e.

#[global] Instance result_ret : MRet result := fun A a => Ok a.
#[global] Instance result_bind : MBind result := fun A B f m =>
  match m with
  | Ok a => f a
  | Raise e => Raise e
  end.

(** [for x in xs: acc = body(acc, x)], stopping at the first exception. *)
Fixpoint for_each {S A : Type} (xs : list A) (body : S → A → result S) (s : S)
    : result S :=
  match xs with
  | [] => Ok s
  | x :: xs' => s' ← body s x; for_each xs' body s'
  end.

(** ** Some general parameters *)

Definition MAX_UNICODE : Z := 0x110000.
Definition NOTACHAR : Z := 0xffffffff.

(** ** Python list primitives *)

(** [min(table)] and [max(table)]: ValueError on an empty sequence. *)
Definition py_min (table : list Z) : result Z :=
  match table with
  | [] => Raise ValueError
  | x :: rest => Ok (foldl Z.min x rest)
  end.

Definition py_max (table : list Z) : result Z :=
  match table with
  | [] => Raise ValueError
  | x :: rest => Ok (foldl Z.max x rest)
  end.

(** ** get_type_size *)

Definition type_size : list (string * Z) :=
  [("uint8_t", 1); ("uint16_t", 2); ("uint32_t", 4);
   ("signed char", 1); ("int16_t", 2); ("int32_t", 4)]%string.

Definition limits : list (Z * Z) :=
  [(0, 255); (0, 65535); (0, 4294967295); (-128, 127);
   (-32768, 32767); (-2147483648, 2147483647)].

(** The [for num, (minlimit, maxlimit) in enumerate(limits)] loop, entered at
    position [num] with the remaining limits [lims]. *)
Fixpoint scan_limits (num : nat) (lims : list (Z * Z)) (minval maxval : Z)
    : result (string * Z) :=
  match lims with
  | [] => Raise OverflowError
  | (minlimit, maxlimit) :: rest =>
      if bool_decide (minlimit ≤ minval ∧ maxval ≤ maxlimit)
      then match type_size !! num with
           | Some ty => Ok ty
           | None => Raise IndexError
           end
      else scan_limits (S num) rest minval maxval
  end.

Definition get_type_size (table : list Z) : result (string * Z) :=
  minval ← py_min table;
  maxval ← py_max table;
  scan_limits 0 limits minval maxval.

(** A type of the ladder holds a table when every value lies within its
    limits. *)
Definition fits (k : nat) (table : list Z) : Prop :=
  ∃ lo hi, limits !! k = Some (lo, hi) ∧ ∀ x, x ∈ table → lo ≤ x ≤ hi.

(** ** get_tables_size *)

Definition get_tables_size (tables : list (list Z)) : result Z :=
  for_each tables
    (λ total_size table,
       ty ← get_type_size table;
       Ok (total_size + ty.2 * Z.of_nat (length table)))
    0.

(** ** compress_table *)

(** [range(start, stop, step)] for a positive step. *)
Definition py_range3 (start stop step : nat) : list nat :=
  (λ k, start + k * step)%nat <$> seq 0 ((stop - start + (step - 1)) / step)%nat.

Section compress.
Context {A : Type} `{Countable A}.

(** The state of the loop: the dictionary [blocks], [stage1] and [stage2]. *)
Definition compress_state : Type := gmap (list A) nat * list nat * list A.

(** One pass of the loop body, for the block starting at [i].  Python 3
    evaluates [len(stage2) / block_size] as a float; [stage2] only ever grows
    by whole blocks before a further block is allocated, so the quotient is
    exact (lemma [compress_alloc_exact]) and is kept here as the integer it
    denotes, which is also what the emitted table shows. *)
Definition compress_step (table : list A) (block_size : nat)
    (st : compress_state) (i : nat) : compress_state :=
  let '(blocks, stage1, stage2) := st in
  let block := take block_size (drop i table) in
  match blocks !! block with
  | Some start => (blocks, stage1 ++ [start], stage2)
  | None =>
      let start := (length stage2 / block_size)%nat in
      (<[block := start]> blocks, stage1 ++ [start], stage2 ++ block)
  end.

Definition compress_loop (table : list A) (block_size : nat) (starts : list nat)
    : compress_state :=
  foldl (compress_step table block_size) (∅, [], []) starts.

(** The block number [j] of the table, and the state of the loop after its
    first [j] passes. *)
Definition chunk (table : list A) (block_size j : nat) : list A :=
  take block_size (drop (j * block_size) table).

Definition compress_after (table : list A) (block_size j : nat)
    : compress_state :=
  compress_loop table block_size ((λ k, k * block_size)%nat <$> seq 0 j).

(** [range] rejects a zero step with ValueError. *)
Definition compress_table (table : list A) (block_size : nat)
    : result (list nat * list A) :=
  if decide (block_size = 0)%nat then Raise ValueError
  else
    let '(_, stage1, stage2) :=
      compress_loop table block_size (py_range3 0 (length table) block_size) in
    Ok (stage1, stage2).

End compress.

(** ** combine_tables *)

(** [zip] over the unpacked tables: one row per position, as many rows as the
    shortest table has entries; no rows at all without tables. *)
Definition zip_star (tables : list (list Z)) : list (list Z) :=
  match tables with
  | [] => []
  | t0 :: rest =>
      (λ i, (λ t, default 0 (t !! i)) <$> tables)
        <$> seq 0 (foldl (λ n t, n `min` length t)%nat (length t0) rest)
  end.

(** The dictionary [records], in insertion order: pairs of a tuple and its
    id. *)
Abbreviation records_t := (list (list Z * nat)).

Fixpoint records_get (records : records_t) (t : list Z) : option nat :=
  match records with
  | [] => None
  | (t', i) :: rest => if decide (t' = t) then Some i else records_get rest t
  end.

Definition combine_step (st : records_t * list nat) (t : list Z)
    : records_t * list nat :=
  let '(records, index) := st in
  match records_get records t with
  | Some i => (records, index ++ [i])
  | None => let i := length records in (records ++ [(t, i)], index ++ [i])
  end.

Definition combine_rows (rows : list (list Z)) : list nat * records_t :=
  let '(records, index) := foldl combine_step ([], []) rows in
  (index, records).

Definition combine_tables (tables : list (list Z)) : list nat * records_t :=
  combine_rows (zip_star tables).

(** ** Sorting *)

(** Python's [sort] and [sorted] are stable; a stable sort is determined by
    its keys, and is written here as an insertion sort. *)
Fixpoint insert_by {A : Type} (key : A → Z) (x : A) (l : list A) : list A :=
  match l with
  | [] => [x]
  | y :: l' =>
      if bool_decide (key x ≤ key y) then x :: y :: l'
      else y :: insert_by key x l'
  end.

Definition py_sorted {A : Type} (key : A → Z) (l : list A) : list A :=
  foldr (insert_by key) [] l.

(** ** write_records *)

(** The rows written by [write_records]: the fields of each record followed
    by the row number that goes into the trailing comment. *)
Definition write_records (records : records_t) : list (list Z * nat) :=
  let records := zip records.*1 records.*2 in
  let records := py_sorted (λ x, Z.of_nat x.2) records in
  imap (λ i record, (record.1, i)) records.

(** ** Python list indexing *)

(** A subscript [i] into a list of length [n]: negative subscripts count from
    the end, anything outside raises IndexError. *)
Definition py_index (n : nat) (i : Z) : result nat :=
  let j := if bool_decide (i < 0) then i + Z.of_nat n else i in
  if bool_decide (0 ≤ j < Z.of_nat n) then Ok (Z.to_nat j) else Raise IndexError.

Definition py_getitem {A : Type} (l : list A) (i : Z) : result A :=
  j ← py_index (length l) i;
  match l !! j with
  | Some x => Ok x
  | None => Raise IndexError
  end.

Definition py_setitem {A : Type} (l : list A) (i : Z) (v : A) : result (list A) :=
  j ← py_index (length l) i;
  Ok (<[j := v]> l).

Fixpoint map_result {A B : Type} (f : A → result B) (l : list A)
    : result (list B) :=
  match l with
  | [] => Ok []
  | x :: l' => y ← f x; ys ← map_result f l'; Ok (y :: ys)
  end.

(** ** get_record_size_struct *)

(** [[record[i] for record in records]] *)
Definition record_slice (records : list (list Z)) (i : Z) : result (list Z) :=
  map_result (λ record, py_getitem record i) records.

(** [(size + slice_size - 1) & -slice_size] *)
Definition align_to (size slice_size : Z) : Z :=
  Z.land (size + slice_size - 1) (- slice_size).

(** The size that [get_record_size_struct] returns; the text of the
    structure that it returns with it is left out. *)
Definition get_record_size_struct (records : list (list Z)) : result Z :=
  record0 ← py_getitem records 0;
  size ← for_each (seq 0 (length record0))
            (λ size i,
               slice ← record_slice records (Z.of_nat i);
               ty ← get_type_size slice;
               Ok (align_to size ty.2 + ty.2))
            0;
  slice ← record_slice records 0;
  ty ← get_type_size slice;
  Ok (align_to size ty.2).

(** ** The block-size search *)

(** [sys.maxsize] of a 64-bit interpreter. *)
Definition sys_maxsize : Z := 2 ^ 63 - 1.

(** [2 ** i for i in range(5,10)] *)
Definition block_sizes : list nat := (λ i, 2 ^ i)%nat <$> seq 5 5.

(** The variables the loop assigns: [min_size], and [min_stage1],
    [min_stage2], [min_block_size], which stay unbound until the first
    assignment. *)
Record search_state : Type := SearchState {
  min_size : Z;
  min_tables : option (list nat * list nat * nat)
}.

Definition total_size (nrecords : nat) (record_size : Z) (table : list nat)
    (block_size : nat) : result (Z * (list nat * list nat)) :=
  let size := Z.of_nat nrecords * record_size in
  st ← compress_table table block_size;
  ts ← get_tables_size [Z.of_nat <$> st.1; Z.of_nat <$> st.2];
  Ok (size + ts, st).

Definition search_step (nrecords : nat) (record_size : Z) (table : list nat)
    (st : search_state) (block_size : nat) : result search_state :=
  r ← total_size nrecords record_size table block_size;
  if bool_decide (r.1 < min_size st)
  then Ok (SearchState r.1 (Some (r.2.1, r.2.2, block_size)))
  else Ok st.

Definition find_block_size (nrecords : nat) (record_size : Z) (table : list nat)
    : result search_state :=
  for_each block_sizes (search_step nrecords record_size table)
    (SearchState sys_maxsize None).

(** The lookup the consumer makes in the emitted tables. *)
Definition two_stage_lookup {A : Type} (stage1 : list nat) (stage2 : list A)
    (block_size c : nat) : option A :=
  start ← stage1 !! (c / block_size)%nat;
  stage2 !! (start * block_size + c `mod` block_size)%nat.

(** ** The caseless sets *)

(** The first pass over [other_case]: set the return offset of a pair whose
    other half has none yet. *)
Definition repair_step (other_case : list Z) (c : nat) : result (list Z) :=
  d ← py_getitem other_case (Z.of_nat c);
  if bool_decide (d ≠ 0) then
    r ← py_getitem other_case (Z.of_nat c + d);
    if bool_decide (r = 0)
    then py_setitem other_case (Z.of_nat c + d) (- d)
    else Ok other_case
  else Ok other_case.

(** [for x in s: if x == c or x == o or x == t: found = 1] *)
Definition find_any (s : list Z) (c o t : Z) (found : bool) : bool :=
  foldl (λ found x, if bool_decide (x = c ∨ x = o ∨ x = t) then true else found)
    found s.

(** [for x in s: if x == y: found = 1] *)
Definition find_one (s : list Z) (y : Z) (found : bool) : bool :=
  foldl (λ found x, if bool_decide (x = y) then true else found) found s.

(** The body of [for y in [c, o, t]]; the flag [found] is carried from one
    [y] to the next, as in the source. *)
Definition add_step (st : bool * list Z) (y : Z) : bool * list Z :=
  let '(found, s) := st in
  let found := find_one s y found in
  if found then (found, s) else (found, s ++ [y]).

(** The body of [for s in caseless_sets], on the sets already visited and the
    flag [appended]. *)
Definition unite_step (c o t : Z) (st : list (list Z) * bool) (s : list Z)
    : list (list Z) * bool :=
  let '(visited, appended) := st in
  if find_any s c o t false
  then (visited ++ [(foldl add_step (false, s) [c; o; t]).2], true)
  else (visited ++ [s], appended).

(** The body of the second pass, for the character [c]. *)
Definition scan_step (other_case : list Z) (caseless_sets : list (list Z))
    (c : nat) : result (list (list Z)) :=
  d ← py_getitem other_case (Z.of_nat c);
  let o := Z.of_nat c + d in
  d' ← py_getitem other_case o;
  if bool_decide (d' ≠ - d) then
    let t := o + d' in
    let '(sets, appended) :=
      foldl (unite_step (Z.of_nat c) o t) ([], false) caseless_sets in
    Ok (if appended then sets else sets ++ [[Z.of_nat c; o; t]])
  else Ok caseless_sets.

(** Both passes; [max_unicode] stands for MAX_UNICODE, the length of every
    table.  The result is the repaired [other_case] and [caseless_sets]. *)
Definition make_caseless_sets (max_unicode : nat) (other_case : list Z)
    : result (list Z * list (list Z)) :=
  other_case ← for_each (seq 0 max_unicode) repair_step other_case;
  caseless_sets ← for_each (seq 0 max_unicode) (scan_step other_case) [];
  Ok (other_case, caseless_sets).

(** The offsets of the characters into the table of sets. *)
Definition offsets_step (st : list Z * Z) (s : list Z) : result (list Z * Z) :=
  let '(caseless_offsets, offset) := st in
  caseless_offsets ←
    for_each s (λ co x, py_setitem co x offset) caseless_offsets;
  Ok (caseless_offsets, offset + Z.of_nat (length s) + 1).

Definition make_caseless_offsets (max_unicode : nat)
    (caseless_sets : list (list Z)) : result (list Z) :=
  r ← for_each caseless_sets offsets_step (replicate max_unicode 0, 1);
  Ok r.1.

(** The values written into [ucd_caseless_sets]. *)
Definition write_caseless_sets (caseless_sets : list (list Z)) : list Z :=
  NOTACHAR :: concat ((λ s, py_sorted id s ++ [NOTACHAR]) <$> caseless_sets).

(** The generator from [other_case] to the offsets and the emitted table. *)
Definition caseless (max_unicode : nat) (other_case : list Z)
    : result (list Z * list (list Z) * list Z * list Z) :=
  r ← make_caseless_sets max_unicode other_case;
  caseless_offsets ← make_caseless_offsets max_unicode r.2;
  Ok (r.1, r.2, caseless_offsets, write_caseless_sets r.2).

(** ** The Boolean properties *)

(** [for i in range(len(bool_props_lists))] with its [break]: the value of
    [i] when the loop is left, and whether it was left by [break].  [idx] is
    the position of the head of [lists]; [i] is left as it was when there is
    nothing to visit. *)
Fixpoint bool_props_find (s : gset nat) (lists : list (list nat)) (idx i : nat)
    : nat * bool :=
  match lists with
  | [] => (i, false)
  | l :: rest =>
      if decide (s = list_to_set l) then (idx, true)
      else bool_props_find s rest (S idx) idx
  end.

Definition bool_props_step (bprops : list (list nat))
    (st : list (list nat) * list nat * nat) (c : nat)
    : result (list (list nat) * list nat * nat) :=
  let '(bool_props_lists, bool_props, i) := st in
  b ← py_getitem bprops (Z.of_nat c);
  let s : gset nat := list_to_set b in
  let '(i, broke) := bool_props_find s bool_props_lists 0 i in
  let '(bool_props_lists, i) :=
    if broke then (bool_props_lists, i) else (bool_props_lists ++ [b], S i) in
  bool_props ← py_setitem bool_props (Z.of_nat c) i;
  Ok (bool_props_lists, bool_props, i).

(** [i0] is the value the global [i] has on entry, left by earlier loops. *)
Definition make_bool_props (max_unicode : nat) (bprops : list (list nat))
    (i0 : nat) : result (list (list nat) * list nat) :=
  r ← for_each (seq 0 max_unicode) (bool_props_step bprops)
        ([[]], replicate max_unicode 0%nat, i0);
  Ok (r.1.1, r.1.2).

(** ** read_table *)

(** The lines of a data file after comment stripping and splitting, without
    those skipped for having a single field: the two ends of the range of
    [chardata[0]] and the rest of [chardata].  [get_value] may update global
    state, which is threaded through as [G].  The version check of the first
    line is left out. *)
Section read_table.
Context {G D V : Type} `{EqDecision V}.

Definition fill_step (default_value value : V) (table : list V) (i : nat)
    : result (list V) :=
  v ← py_getitem table (Z.of_nat i);
  if decide (v = default_value) then py_setitem table (Z.of_nat i) value
  else Ok table.

Definition read_line (get_value : G → D → result (G * V)) (default_value : V)
    (st : G * list V) (ln : nat * nat * D) : result (G * list V) :=
  let '(char, last, chardata) := ln in
  r ← get_value st.1 chardata;
  table ← for_each (seq char (last + 1 - char))
             (fill_step default_value r.2) st.2;
  Ok (r.1, table).

Definition read_table (max_unicode : nat) (get_value : G → D → result (G * V))
    (default_value : V) (lines : list (nat * nat * D)) (g : G)
    : result (G * list V) :=
  for_each lines (read_line get_value default_value)
    (g, replicate max_unicode default_value).

End read_table.

(** ** The script extensions *)

(** [s.split(' ')] *)
Fixpoint py_split_space (s : string) (cur : string) : list string :=
  match s with
  | EmptyString => [String.rev cur]
  | String a s' =>
      if decide (a = " "%char) then String.rev cur :: py_split_space s' EmptyString
      else py_split_space s' (String a cur)
  end.

(** [l.index(x)]: ValueError when [x] is not in [l]. *)
Fixpoint py_list_index {A : Type} `{EqDecision A} (l : list A) (x : A)
    : result nat :=
  match l with
  | [] => Raise ValueError
  | y :: l' =>
      if decide (y = x) then Ok 0%nat else i ← py_list_index l' x; Ok (S i)
  end.

(** The globals of [get_script_extension]: [script_lists] and
    [last_script_extension].  [script_abbrevs] and [script_list_item_size]
    come from GenerateCommon. *)
Definition get_script_extension (script_abbrevs : list string)
    (script_list_item_size : nat) (g : list (list nat) * string)
    (chardata1 : string) : result ((list (list nat) * string) * Z) :=
  let '(script_lists, last_script_extension) := g in
  let offset := Z.of_nat (length script_lists * script_list_item_size) in
  if decide (last_script_extension = chardata1)
  then Ok (g, offset - Z.of_nat script_list_item_size)
  else
    ids ← map_result (py_list_index script_abbrevs)
             (py_split_space chardata1 EmptyString);
    Ok ((script_lists ++ [ids], chardata1), offset).

(** [script_lists = [[]]], [last_script_extension = ""], then [scriptx]. *)
Definition make_scriptx (max_unicode : nat) (script_abbrevs : list string)
    (script_list_item_size : nat) (lines : list (nat * nat * string))
    : result ((list (list nat) * string) * list Z) :=
  read_table max_unicode
    (get_script_extension script_abbrevs script_list_item_size) 0 lines
    ([[]], EmptyString).

(** ** The emoji override of the grapheme break property *)

(** One pass of [for i in range(char, last + 1)]; [other] and [ep] are the
    positions of 'Other' and 'Extended_Pictographic' in [break_properties],
    and the warnings printed are collected. *)
Definition emoji_step (break_properties : list string) (other ep : nat)
    (st : list nat * list (nat * string)) (i : nat)
    : result (list nat * list (nat * string)) :=
  let '(break_props, warnings) := st in
  b ← py_getitem break_props (Z.of_nat i);
  warnings ←
    (if decide (b ≠ other)
     then name ← py_getitem break_properties (Z.of_nat b);
          Ok (warnings ++ [(i, name)])
     else Ok warnings);
  break_props ← py_setitem break_props (Z.of_nat i) ep;
  Ok (break_props, warnings).

Definition emoji_override (break_properties : list string) (other ep : nat)
    (ranges : list (nat * nat)) (break_props : list nat)
    : result (list nat * list (nat * string)) :=
  for_each ranges
    (λ st r, for_each (seq r.1 (r.2 + 1 - r.1))
               (emoji_step break_properties other ep) st)
    (break_props, []).

(** ** The sets of ten digits *)

(** [while first < last: digitsets.append(first + 9); first += 10], for at
    most [fuel] passes. *)
Fixpoint digit_loop (fuel : nat) (first last : Z) (digitsets : list Z) : list Z :=
  match fuel with
  | O => digitsets
  | S fuel' =>
      if bool_decide (first < last)
      then digit_loop fuel' (first + 10) last (digitsets ++ [first + 9])
      else digitsets
  end.

(** [f.write(text, file=sys.stderr)], where [f] is the output file that
    [open_output] of GenerateCommon opened and returned: the [write] of a
    file takes the text and no keyword argument, so the call raises
    TypeError and writes nothing. *)
Definition f_write_file_keyword (first last : Z) : result unit :=
  Raise TypeError.

(** The body of the loop over the matching lines of Scripts.txt, for the
    range [first..last]. *)
Definition digit_range (digitsets : list Z) (r : Z * Z) : result (list Z) :=
  let '(first, last) := r in
  _ ← (if bool_decide ((last - first + 1) `mod` 10 ≠ 0)
       then f_write_file_keyword first last
       else Ok ());
  Ok (digit_loop (Z.to_nat (last - first)) first last digitsets).

Definition make_digitsets (ranges : list (Z * Z)) : result (list Z) :=
  digitsets ← for_each ranges digit_range [];
  Ok (py_sorted id digitsets).

(** ** make_get_names *)

(** [lambda chardata: enum.index(chardata[1])]: the position of the name of
    a line in [enum]; no global is read or written. *)
Definition make_get_names (enum : list string) (g : unit) (chardata1 : string)
    : result (unit * nat) :=
  i ← py_list_index enum chardata1; Ok (g, i).

(** ** The collection of the Boolean properties *)

(** [bprops[i].append(ix)] *)
Definition bprops_append (ix : nat) (bprops : list (list nat)) (i : nat)
    : result (list (list nat)) :=
  b ← py_getitem bprops (Z.of_nat i);
  py_setitem bprops (Z.of_nat i) (b ++ [ix]).

(** A line of one of the property files: the two ends of its range and its
    property name [data[1]].  A name that [bool_properties] does not have
    makes [index] raise ValueError, which the [except] clause turns into
    [continue]. *)
Definition bprops_line (bool_properties : list string)
    (bprops : list (list nat)) (ln : nat * nat * string)
    : result (list (list nat)) :=
  let '(char, last, data1) := ln in
  match py_list_index bool_properties data1 with
  | Ok ix => for_each (seq char (last + 1 - char)) (bprops_append ix) bprops
  | Raise ValueError => Ok bprops
  | Raise e => Raise e
  end.

(** [bprops = [[] for _ in range(MAX_UNICODE)]], then the lines of the files
    of [bool_propsfiles], one file after the other, then the ASCII property,
    then the characters [mirrored] that BidiMirroring.txt lists. *)
Definition collect_bprops (max_unicode : nat) (bool_properties : list string)
    (lines : list (nat * nat * string)) (mirrored : list nat)
    : result (list (list nat)) :=
  bprops ← for_each lines (bprops_line bool_properties)
             (replicate max_unicode []);
  ix ← py_list_index bool_properties "ASCII"%string;
  bprops ← for_each (seq 0 128) (bprops_append ix) bprops;
  ix ← py_list_index bool_properties "Bidi_Mirrored"%string;
  for_each mirrored (bprops_append ix) bprops.

(** ** write_bitsets *)

(** [bitwords[idx // 32] |= 1 << (idx & 31)] *)
Definition bitset_step (bitwords : list Z) (idx : nat) : result (list Z) :=
  let idx := Z.of_nat idx in
  w ← py_getitem bitwords (idx / 32);
  py_setitem bitwords (idx / 32) (Z.lor w (Z.shiftl 1 (Z.land idx 31))).

(** The words written for each entry of the list, [item_size] of them per
    entry; the text around them is left out.  The source calls its first
    parameter [list]. *)
Definition write_bitsets (lists : list (list nat)) (item_size : nat)
    : result (list (list Z)) :=
  map_result (λ d, for_each d bitset_step (replicate item_size 0)) lists.

(** ** write_table *)

(** [fmt % args] for a format with [n] conversions of numbers and [nargs]
    arguments: TypeError unless there are as many arguments as
    conversions.  The text is left out. *)
Definition py_format (n nargs : nat) : result unit :=
  if decide (nargs = n) then Ok () else Raise TypeError.

(** The number of bytes that goes into the heading, and the entries that
    each [f.write] of the loop writes.  The numbers of the comments,
    [int(i * mult)] and [i / block_size], are arguments of the formats and
    text otherwise.  [get_type_size] has raised on an empty table before
    [MAX_UNICODE / len(table)] is computed.  A block size of 0 is not
    [None] and goes to the [else] branch, where [range] refuses the step;
    [int(block_size / ELEMS_PER_LINE)] is the quotient rounded down for
    every block size below 2^53. *)
Definition write_table (table : list Z) (block_size : option nat)
    : result (Z * list (list Z)) :=
  ty ← get_type_size table;
  let ELEMS_PER_LINE := 16%nat in
  rows ←
    match block_size with
    | None =>
        map_result
          (λ i, let row := take ELEMS_PER_LINE (drop i table) in
                _ ← py_format (ELEMS_PER_LINE + 1) (length row + 1); Ok row)
          (py_range3 0 (length table) ELEMS_PER_LINE)
    | Some block_size =>
        let el :=
          if decide (ELEMS_PER_LINE < block_size)%nat then ELEMS_PER_LINE
          else block_size in
        let lines :=
          if decide (ELEMS_PER_LINE < block_size)%nat
          then (block_size / ELEMS_PER_LINE)%nat else 1%nat in
        if decide (block_size = 0%nat) then Raise ValueError
        else
          map_result
            (λ i, let row := take block_size (drop i table) in
                  _ ← py_format (1 + el * lines) (1 + length row); Ok row)
            (py_range3 0 (length table) block_size)
    end;
  Ok (ty.2 * Z.of_nat (length table), rows).

(** ** Predicates of the statements *)

(** The test of the loop on the two extremes, for the type at position [k]. *)
Definition fit_at (m M : Z) (k : nat) : Prop :=
  ∃ lo hi, limits !! k = Some (lo, hi) ∧ lo ≤ m ∧ M ≤ hi.

(** The order of a sort by [key]. *)
Definition key_le {A : Type} (key : A → Z) (x y : A) : Prop := key x ≤ key y.

(** The invariant of the loop after [c] characters. *)
Definition bool_props_inv (bprops : list (list nat)) (n c : nat)
    (st : list (list nat) * list nat * nat) : Prop :=
  let '(lists, bool_props, _) := st in
  (length bool_props = n)%nat ∧
  lists !! 0%nat = Some [] ∧
  (∀ j k l1 l2, lists !! j = Some l1 → lists !! k = Some l2 →
     (list_to_set l1 : gset nat) = list_to_set l2 → j = k) ∧
  (∀ c' b, (c' < c)%nat → bprops !! c' = Some b →
     ∃ k l, bool_props !! c' = Some k ∧ lists !! k = Some l ∧
       (list_to_set l : gset nat) = list_to_set b).

(** The values one range contributes: one per step of ten from [first],
    each the start of the step plus 9. *)
Definition digit_run (first last : Z) : list Z :=
  (λ j, first + 9 + 10 * Z.of_nat j) <$> seq 0 (Z.to_nat ((last - first + 9) / 10)).

(** No character is in two sets. *)
Definition pairwise_disjoint (sets : list (list Z)) : Prop :=
  ∀ j k s1 s2 x,
    sets !! j = Some s1 → sets !! k = Some s2 → x ∈ s1 → x ∈ s2 → j = k.

(** One hop of the graph of [other_case]: from [a] to its other case. *)
Definition hop (other_case : list Z) (a b : Z) : Prop :=
  ∃ d, 0 ≤ a ∧ other_case !! Z.to_nat a = Some d ∧ d ≠ 0 ∧ b = a + d.

(** [b] is reached from [a] by following at most two hops. *)
Definition reach2 (other_case : list Z) (a b : Z) : Prop :=
  a = b ∨ hop other_case a b ∨ ∃ z, hop other_case a z ∧ hop other_case z b.

(** A hop taken in either direction, and two characters joined by at most
    two of them. *)
Definition link (other_case : list Z) (a b : Z) : Prop :=
  hop other_case a b ∨ hop other_case b a.

Definition within_two_hops (other_case : list Z) (a b : Z) : Prop :=
  a = b ∨ link other_case a b ∨ ∃ z, link other_case a z ∧ link other_case z b.

(** Case folding that is idempotent: the other case recorded for a character
    is a character of the table recorded without one, so that what a
    character folds to is not folded again. *)
Definition fold_idempotent (n : nat) (other_case : list Z) : Prop :=
  length other_case = n ∧
  ∀ (c : nat) (d : Z), other_case !! c = Some d → d ≠ 0 →
    ∃ o : nat, Z.of_nat o = Z.of_nat c + d ∧ other_case !! o = Some 0.

(** The offset of set number [k] in the table of sets. *)
Definition set_offset (sets : list (list Z)) (k : nat) : Z :=
  foldl (λ off s, off + Z.of_nat (length s) + 1) 1 (take k sets).

(** The table [other_case] during the first pass, once the characters below
    [k] have been visited: the offsets read from the file are as they were, a
    character read without an offset has none or the return offset of a
    character that folds to it, and what a visited character folds to has
    an offset. *)
Definition repaired_upto (other_case0 : list Z) (k : nat) (other_case : list Z)
    : Prop :=
  length other_case = length other_case0 ∧
  (∀ (c : nat) d, other_case0 !! c = Some d → d ≠ 0 → other_case !! c = Some d) ∧
  (∀ o : nat, other_case0 !! o = Some 0 →
     other_case !! o = Some 0 ∨
     ∃ (m : nat) dm, other_case0 !! m = Some dm ∧ dm ≠ 0 ∧
       Z.of_nat m + dm = Z.of_nat o ∧ other_case !! o = Some (- dm)) ∧
  (∀ (c : nat) d (o : nat), (c < k)%nat → other_case0 !! c = Some d → d ≠ 0 →
     Z.of_nat o = Z.of_nat c + d → other_case !! o ≠ Some 0).

(** [x] is the character [o], or folds to it. *)
Definition class_of (other_case0 : list Z) (x : Z) (o : nat) : Prop :=
  ∃ (cx : nat) d, x = Z.of_nat cx ∧ other_case0 !! cx = Some d ∧
    x + d = Z.of_nat o.

(** The sets during the second pass: each has the character its members fold
    to, a different one for each set, and no member twice. *)
Definition set_of_target (other_case0 : list Z) (s : list Z) (o : nat) : Prop :=
  other_case0 !! o = Some 0 ∧ Z.of_nat o ∈ s ∧ NoDup s ∧
  ∀ x, x ∈ s → class_of other_case0 x o.

Definition sets_inv (other_case0 : list Z) (sets : list (list Z)) : Prop :=
  ∃ targets : list nat,
    NoDup targets ∧ Forall2 (set_of_target other_case0) sets targets.

(** A table whose offsets all lead to characters of the table. *)
Definition closed_table (n : nat) (other_case : list Z) : Prop :=
  length other_case = n ∧
  ∀ (c : nat) d, other_case !! c = Some d →
    0 ≤ Z.of_nat c + d < Z.of_nat n.

(** Sets of characters of the table. *)
Definition sets_within (n : nat) (sets : list (list Z)) : Prop :=
  ∀ s x, s ∈ sets → x ∈ s → 0 ≤ x < Z.of_nat n.

(** ** Predicates of the further statements *)

(** The sum of the widths of the fields. *)
Definition widths_sum (tys : list (string * Z)) : Z :=
  foldr (λ ty acc, ty.2 + acc) 0 tys.

(** The values [get_value] returns for the lines of a file, in order. *)
Fixpoint get_values {G D V : Type} (get_value : G → D → result (G * V))
    (lines : list (nat * nat * D)) (g : G) : result (G * list V) :=
  match lines with
  | [] => Ok (g, [])
  | (_, _, chardata) :: rest =>
      r ← get_value g chardata;
      rs ← get_values get_value rest r.1;
      Ok (rs.1, r.2 :: rs.2)
  end.

(** The value of the first line that has [c] in its range and a value other
    than the default; the default when there is none. *)
Fixpoint first_value {D V : Type} `{EqDecision V} (default_value : V) (c : nat)
    (lines : list (nat * nat * D)) (values : list V) : V :=
  match lines, values with
  | (char, last, _) :: lines', v :: values' =>
      if decide ((char ≤ c ≤ last)%nat ∧ v ≠ default_value) then v
      else first_value default_value c lines' values'
  | _, _ => default_value
  end.

(** [script_abbrevs.index(abbrev) for abbrev in chardata1.split(' ')], the
    entry that [get_script_extension] appends for a line. *)
Definition script_ids (script_abbrevs : list string) (chardata1 : string)
    : result (list nat) :=
  map_result (py_list_index script_abbrevs) (py_split_space chardata1 EmptyString).

(** The globals of [get_script_extension] between two lines: the list
    starts with the empty entry, and ends with the entry of the line read
    last, if a line has been read. *)
Definition script_state (script_abbrevs : list string)
    (g : list (list nat) * string) : Prop :=
  g.1 !! 0%nat = Some [] ∧
  (g.2 = EmptyString ∧ length g.1 = 1%nat ∨
   ∃ ids, script_ids script_abbrevs g.2 = Ok ids ∧ last g.1 = Some ids ∧
     (1 < length g.1)%nat).

(** A bit of an entry of a table of bit sets. *)
Definition bit_set (words : list Z) (idx : nat) : Prop :=
  ∃ w, words !! (idx / 32)%nat = Some w ∧
    Z.testbit w (Z.of_nat (idx `mod` 32)) = true.

(** The character [c] has the property [ix] in [bprops]. *)
Definition has_prop (bprops : list (list nat)) (c ix : nat) : Prop :=
  ∃ b, bprops !! c = Some b ∧ ix ∈ b.

(** The catalogue after [c] characters: every entry but entry 0 is the list
    of the first character with its set of properties, which has the index
    of the entry. *)
Definition catalogue_upto (bprops : list (list nat)) (c : nat)
    (st : list (list nat) * list nat * nat) : Prop :=
  ∀ k l, (1 ≤ k)%nat → st.1.1 !! k = Some l →
    ∃ c', (c' < c)%nat ∧ bprops !! c' = Some l ∧ st.1.2 !! c' = Some k ∧
      ∀ c'' b, (c'' < c')%nat → bprops !! c'' = Some b →
        (list_to_set b : gset nat) ≠ list_to_set l.

(** Every character with another case leads to a character with another
    case. *)
Definition pairs_closed (other_case : list Z) : Prop :=
  ∀ (c : nat) d, other_case !! c = Some d → d ≠ 0 →
    ∃ r, other_case !! Z.to_nat (Z.of_nat c + d) = Some r ∧ r ≠ 0.

(** The test of the second pass: the other case of [c] does not point back
    to [c]. *)
Definition triggers (other_case : list Z) (c : nat) : Prop :=
  ∃ d d', other_case !! c = Some d ∧
    other_case !! Z.to_nat (Z.of_nat c + d) = Some d' ∧ d' ≠ - d.

(** A character of the table that has another case. *)
Definition has_other_case (n : nat) (other_case : list Z) (x : Z) : Prop :=
  0 ≤ x < Z.of_nat n ∧ ∃ d, other_case !! Z.to_nat x = Some d ∧ d ≠ 0.

(** What a set is made of: characters of the table with another case, none
    of them twice, and three at least. *)
Definition set_shape (n : nat) (other_case : list Z) (s : list Z) : Prop :=
  NoDup s ∧ (3 ≤ length s)%nat ∧ ∀ x, x ∈ s → has_other_case n other_case x.

(** The sets after the characters below [k]: sets of the shape above, one
    at least for each character found not to be pointed back to, and no
    set without such a character. *)
Definition scanned_upto (n : nat) (other_case : list Z) (k : nat)
    (sets : list (list Z)) : Prop :=
  (∀ s, s ∈ sets → set_shape n other_case s) ∧
  (∀ c, (c < k)%nat → triggers other_case c →
     ∃ s, s ∈ sets ∧ Z.of_nat c ∈ s) ∧
  (∀ s, s ∈ sets →
     ∃ c, (c < n)%nat ∧ Z.of_nat c ∈ s ∧ triggers other_case c).

(** * Proofs *)

(** ** Runs on short tables *)

Section runs.

(** Seven values in blocks of two: the third block is the first again, the
    last one is short. *)
Example compress_ex :
  compress_table [1; 1; 2; 2; 1; 1; 3]%nat 2
    = Ok ([0; 1; 0; 2]%nat, [1; 1; 2; 2; 3]%nat).
Proof. by vm_compute. Qed.

Example combine_ex :
  combine_tables [[5; 6; 5; 7]; [1; 1; 1; 1]] =
  ([0; 1; 0; 2]%nat, [([5; 1], 0%nat); ([6; 1], 1%nat); ([7; 1], 2%nat)]).
Proof. by vm_compute. Qed.

Example block_sizes_ex : block_sizes = [32; 64; 128; 256; 512]%nat.
Proof. by vm_compute. Qed.

(** The chain 1 → 2 → 3 → 4. *)
Example caseless_ex1 :
  caseless 6 [0; 1; 1; 1; 0; 0] =
  Ok ([0; 1; 1; 1; -1; 0], [[1; 2; 3]], [0; 1; 1; 1; 0; 0],
      [NOTACHAR; 1; 2; 3; NOTACHAR]).
Proof. by vm_compute. Qed.

(** The chain 1 → 2 → 7 → 3 → 4 → 5. *)
Example caseless_ex2 :
  caseless 8 [0; 1; 5; 1; 1; 0; 0; -4] =
  Ok ([0; 1; 5; 1; 1; -1; 0; -4], [[1; 2; 7]; [3; 4; 5; 7]],
      [0; 1; 1; 5; 5; 5; 0; 5],
      [NOTACHAR; 1; 2; 7; NOTACHAR; 3; 4; 5; 7; NOTACHAR]).
Proof. by vm_compute. Qed.

(** Three characters in a cycle 1 → 2 → 3 → 1: one set with the three of
    them, and one offset for all. *)
Example caseless_three_cycle :
  caseless 4 [0; 1; 1; -2] =
  Ok ([0; 1; 1; -2], [[1; 2; 3]], [0; 1; 1; 1], [NOTACHAR; 1; 2; 3; NOTACHAR]).
Proof. by vm_compute. Qed.

(** K, k and the Kelvin sign, as 1, 2 and 3: 1 and 3 fold to 2. *)
Example caseless_star :
  caseless 4 [0; 1; 0; -1] =
  Ok ([0; 1; -1; -1], [[3; 2; 1]], [0; 1; 1; 1], [NOTACHAR; 1; 2; 3; NOTACHAR]).
Proof. by vm_compute. Qed.

Example boolprops_ex :
  make_bool_props 4 [[1; 2]; []; [2; 1; 1]; [3]]%nat 127 =
  Ok ([[]; [1; 2]; [3]]%nat, [1; 0; 1; 2]%nat).
Proof. by vm_compute. Qed.

Example scriptx_ex :
  make_scriptx 6 ["Beng"; "Deva"; "Gran"]%string 2
    [(1, 2, "Beng Deva"); (4, 4, "Beng Deva"); (5, 5, "Gran")]%nat%string =
  Ok (([[]; [0; 1]; [2]]%nat, "Gran"%string), [0; 2; 2; 0; 2; 4]).
Proof. by vm_compute. Qed.

(** The cases of [test_record_size], which the source keeps in a comment. *)
Example test_record_size :
  get_record_size_struct [[3]; [6]; [6]; [1]] = Ok 1 ∧
  get_record_size_struct [[300]; [600]; [600]; [100]] = Ok 2 ∧
  get_record_size_struct [[25; 3]; [6; 6]; [34; 6]; [68; 1]] = Ok 2 ∧
  get_record_size_struct [[300; 3]; [6; 6]; [340; 6]; [690; 1]] = Ok 4 ∧
  get_record_size_struct [[3; 300]; [6; 6]; [6; 340]; [1; 690]] = Ok 4 ∧
  get_record_size_struct [[300; 300]; [6; 6]; [6; 340]; [1; 690]] = Ok 4 ∧
  get_record_size_struct [[3; 100000]; [6; 6]; [6; 123456]; [1; 690]] = Ok 8 ∧
  get_record_size_struct [[100000; 300]; [6; 6]; [123456; 6]; [1; 690]] = Ok 8.
Proof. repeat split; by vm_compute. Qed.

(** MAX_UNICODE is a whole number of blocks of every candidate size. *)
Example max_unicode_blocks : MAX_UNICODE `mod` 512 = 0.
Proof. reflexivity. Qed.

Example digits_ex1 : make_digitsets [(0x30, 0x43)] = Ok [0x39; 0x43].
Proof. by vm_compute. Qed.

Example digits_ex2 : make_digitsets [(0x30, 0x49)] = Raise TypeError.
Proof. by vm_compute. Qed.

End runs.

Section width.

Lemma foldl_min_spec (rest : list Z) (x : Z) :
  (foldl Z.min x rest = x ∨ foldl Z.min x rest ∈ rest) ∧
  foldl Z.min x rest ≤ x ∧ ∀ y, y ∈ rest → foldl Z.min x rest ≤ y.
Proof.
  revert x. induction rest as [|a rest IH]; intros x; simpl.
  - split; [by left|]. split; [lia|]. intros y Hy. by apply elem_of_nil in Hy.
  - destruct (IH (Z.min x a)) as (Hin & Hle & Hall).
    split; [|split].
    + destruct Hin as [Heq|Hin].
      * rewrite Heq. destruct (Z.min_spec x a) as [[_ ->]|[_ ->]].
        -- by left.
        -- right. apply elem_of_cons. by left.
      * right. apply elem_of_cons. by right.
    + lia.
    + intros y [->|Hy]%elem_of_cons; [lia|by apply Hall].
Qed.

Lemma foldl_max_spec (rest : list Z) (x : Z) :
  (foldl Z.max x rest = x ∨ foldl Z.max x rest ∈ rest) ∧
  x ≤ foldl Z.max x rest ∧ ∀ y, y ∈ rest → y ≤ foldl Z.max x rest.
Proof.
  revert x. induction rest as [|a rest IH]; intros x; simpl.
  - split; [by left|]. split; [lia|]. intros y Hy. by apply elem_of_nil in Hy.
  - destruct (IH (Z.max x a)) as (Hin & Hle & Hall).
    split; [|split].
    + destruct Hin as [Heq|Hin].
      * rewrite Heq. destruct (Z.max_spec x a) as [[_ ->]|[_ ->]].
        -- right. apply elem_of_cons. by left.
        -- by left.
      * right. apply elem_of_cons. by right.
    + lia.
    + intros y [->|Hy]%elem_of_cons; [lia|by apply Hall].
Qed.

Lemma py_min_spec (table : list Z) :
  table ≠ [] →
  ∃ m, py_min table = Ok m ∧ m ∈ table ∧ ∀ y, y ∈ table → m ≤ y.
Proof.
  destruct table as [|x rest]; [done|]. intros _.
  destruct (foldl_min_spec rest x) as (Hin & Hle & Hall).
  exists (foldl Z.min x rest). split; [done|]. split.
  - apply elem_of_cons. destruct Hin; [by left|by right].
  - intros y [->|Hy]%elem_of_cons; [done|by apply Hall].
Qed.

Lemma py_max_spec (table : list Z) :
  table ≠ [] →
  ∃ m, py_max table = Ok m ∧ m ∈ table ∧ ∀ y, y ∈ table → y ≤ m.
Proof.
  destruct table as [|x rest]; [done|]. intros _.
  destruct (foldl_max_spec rest x) as (Hin & Hle & Hall).
  exists (foldl Z.max x rest). split; [done|]. split.
  - apply elem_of_cons. destruct Hin; [by left|by right].
  - intros y [->|Hy]%elem_of_cons; [done|by apply Hall].
Qed.

(** With the extremes in hand, fitting a type is a test on the two of them. *)
Lemma fits_extremes (table : list Z) (k : nat) (m M lo hi : Z) :
  m ∈ table → M ∈ table →
  (∀ y, y ∈ table → m ≤ y) → (∀ y, y ∈ table → y ≤ M) →
  limits !! k = Some (lo, hi) →
  fits k table ↔ lo ≤ m ∧ M ≤ hi.
Proof.
  intros Hm HM Hmin Hmax Hk. split.
  - intros (lo' & hi' & Hk' & Hall). rewrite Hk in Hk'. injection Hk' as <- <-.
    pose proof (Hall _ Hm). pose proof (Hall _ HM). lia.
  - intros [Hlo Hhi]. exists lo, hi. split; [done|].
    intros x Hx. pose proof (Hmin _ Hx). pose proof (Hmax _ Hx). lia.
Qed.

Lemma get_type_size_extremes (table : list Z) :
  table ≠ [] →
  ∃ m M, m ∈ table ∧ M ∈ table ∧
    (∀ y, y ∈ table → m ≤ y) ∧ (∀ y, y ∈ table → y ≤ M) ∧
    get_type_size table = scan_limits 0 limits m M.
Proof.
  intros Hne.
  destruct (py_min_spec table Hne) as (m & Hm & Hmin & Hmlow).
  destruct (py_max_spec table Hne) as (M & HM & Hmax & HMup).
  exists m, M. repeat split; try done.
  unfold get_type_size. by rewrite Hm, HM.
Qed.

Lemma scan_limits_first (m M : Z) (lims : list (Z * Z)) (num : nat) :
  (∃ i lo hi, lims !! i = Some (lo, hi) ∧ (lo ≤ m ∧ M ≤ hi) ∧
     (∀ j lo' hi', (j < i)%nat → lims !! j = Some (lo', hi') →
        ¬ (lo' ≤ m ∧ M ≤ hi')) ∧
     scan_limits num lims m M =
       match type_size !! (num + i)%nat with
       | Some ty => Ok ty
       | None => Raise IndexError
       end) ∨
  ((∀ j lo' hi', lims !! j = Some (lo', hi') → ¬ (lo' ≤ m ∧ M ≤ hi')) ∧
   scan_limits num lims m M = Raise OverflowError).
Proof.
  revert num. induction lims as [|[lo hi] lims IH]; intros num.
  - right. split; [|done]. intros j lo' hi' Hj. by rewrite lookup_nil in Hj.
  - simpl. case_bool_decide as Hfit.
    + left. exists 0%nat, lo, hi. rewrite Nat.add_0_r.
      repeat split; try done; intros; lia.
    + destruct (IH (S num)) as [(i & lo1 & hi1 & Hi & Hfi & Hbefore & Hscan)|[Hno Hscan]].
      * left. exists (S i), lo1, hi1. repeat split; try done; try lia.
        -- intros [|j] lo' hi' Hj Hl; simpl in Hl.
           ++ by injection Hl as <- <-.
           ++ apply (Hbefore j); [lia|done].
        -- by rewrite Hscan, Nat.add_succ_r.
      * right. split; [|done]. intros [|j] lo' hi' Hl; simpl in Hl.
        -- by injection Hl as <- <-.
        -- by apply (Hno j).
Qed.

(** Unsigned types come first, so the first type that holds the extremes is
    also a narrowest one. *)
Lemma first_fit_narrowest (m M : Z) (k j : nat) (ty tyj : string * Z) :
  fit_at m M k → (∀ i, (i < k)%nat → ¬ fit_at m M i) → fit_at m M j →
  type_size !! k = Some ty → type_size !! j = Some tyj → ty.2 ≤ tyj.2.
Proof.
  intros (lo & hi & Hk & Hlo & Hhi) Hfirst (lo' & hi' & Hj & Hlo' & Hhi') Hty Htyj.
  assert (H0 : (0 < k)%nat → ¬ (0 ≤ m ∧ M ≤ 255)).
  { intros ? ?. apply (Hfirst 0%nat); [done|]. by exists 0, 255. }
  assert (H1 : (1 < k)%nat → ¬ (0 ≤ m ∧ M ≤ 65535)).
  { intros ? ?. apply (Hfirst 1%nat); [done|]. by exists 0, 65535. }
  assert (H2 : (2 < k)%nat → ¬ (0 ≤ m ∧ M ≤ 4294967295)).
  { intros ? ?. apply (Hfirst 2%nat); [done|]. by exists 0, 4294967295. }
  assert (H3 : (3 < k)%nat → ¬ (-128 ≤ m ∧ M ≤ 127)).
  { intros ? ?. apply (Hfirst 3%nat); [done|]. by exists (-128), 127. }
  assert (H4 : (4 < k)%nat → ¬ (-32768 ≤ m ∧ M ≤ 32767)).
  { intros ? ?. apply (Hfirst 4%nat); [done|]. by exists (-32768), 32767. }
  clear Hfirst.
  do 6 (destruct k as [|k]; [do 6 (destruct j as [|j]; [simplify_eq/=; lia|]); done|]).
  done.
Qed.

(** C8. Width selection: on a non-empty table that some type of the ladder
    holds, [get_type_size] returns the first type of the ladder holding every
    value, and no type of the ladder holding the table is narrower; when no
    type of the ladder holds the table it raises OverflowError. *)
Theorem get_type_size_narrowest (table : list Z) :
  table ≠ [] →
  ((∃ k, fits k table) →
     ∃ k ty, get_type_size table = Ok ty ∧ type_size !! k = Some ty ∧
       fits k table ∧ (∀ j, (j < k)%nat → ¬ fits j table) ∧
       (∀ j tyj, fits j table → type_size !! j = Some tyj → ty.2 ≤ tyj.2)) ∧
  ((∀ k, ¬ fits k table) → get_type_size table = Raise OverflowError).
Proof.
  intros Hne.
  destruct (get_type_size_extremes table Hne)
    as (m & M & Hm & HM & Hlow & Hup & ->).
  assert (Hf : ∀ k, fits k table ↔ fit_at m M k).
  { intros k. split.
    - intros (lo & hi & Hk & Hall). exists lo, hi. split; [done|].
      by apply (fits_extremes table k m M lo hi); [..|exists lo, hi].
    - intros (lo & hi & Hk & Hfit). by apply (fits_extremes table k m M lo hi). }
  destruct (scan_limits_first m M limits 0)
    as [(i & lo & hi & Hi & Hfi & Hbefore & Hscan)|[Hno Hscan]].
  - assert (Hi6 : (i < 6)%nat) by (apply lookup_lt_Some in Hi; done).
    destruct (type_size !! i) as [ty|] eqn:Hty; last first.
    { apply lookup_ge_None in Hty. simpl in Hty. lia. }
    simpl in Hscan. rewrite Hty in Hscan.
    assert (Hfirst : ∀ j, (j < i)%nat → ¬ fit_at m M j).
    { intros j Hj (lo' & hi' & Hl & Hfit). by apply (Hbefore j lo' hi'). }
    split.
    + intros _. exists i, ty. split; [done|]. split; [done|].
      split; [apply Hf; by exists lo, hi|]. split.
      * intros j Hj Hfj. apply (Hfirst j Hj). by apply Hf.
      * intros j tyj Hfj Htyj.
        apply (first_fit_narrowest m M i j); try done.
        -- by exists lo, hi.
        -- by apply Hf.
    + intros Hnone. exfalso. apply (Hnone i), Hf. by exists lo, hi.
  - split; [|done].
    intros [k (lo & hi & Hk & Hfit)%Hf]. exfalso. by apply (Hno k lo hi).
Qed.

End width.

Section compress_facts.
Context {A : Type} `{Countable A}.
Local Open Scope nat_scope.
Implicit Types (table : list A) (B : nat).

Lemma py_range3_0 n B :
  py_range3 0 n B = (λ k, k * B) <$> seq 0 ((n + (B - 1)) / B).
Proof. unfold py_range3. by rewrite Nat.sub_0_r. Qed.

Lemma compress_after_S table B j :
  compress_after table B (S j) =
  compress_step table B (compress_after table B j) (j * B).
Proof.
  unfold compress_after, compress_loop.
  by rewrite seq_S, fmap_app, foldl_app.
Qed.

Lemma length_chunk table B j :
  S j * B ≤ length table → length (chunk table B j) = B.
Proof. intros Hj. unfold chunk. rewrite length_take, length_drop. lia. Qed.

Lemma chunk_lookup table B j r :
  r < B → chunk table B j !! r = table !! (j * B + r).
Proof.
  intros Hr. unfold chunk. rewrite lookup_take_lt by done. by rewrite lookup_drop.
Qed.

(** The invariant of the loop while whole blocks are being read. *)
Lemma compress_inv table B j :
  0 < B → j * B ≤ length table →
  let '(blocks, stage1, stage2) := compress_after table B j in
  length stage1 = j ∧
  (∃ nb, length stage2 = nb * B ∧ nb ≤ j) ∧
  (∀ i, i < j →
     ∃ s, stage1 !! i = Some s ∧ blocks !! chunk table B i = Some s) ∧
  (∀ b s, blocks !! b = Some s →
     ∃ f, f < j ∧ chunk table B f = b ∧
       (∀ f', f' < f → chunk table B f' ≠ b) ∧
       length (compress_after table B f).2 = s * B ∧
       s * B + B ≤ length stage2 ∧
       take B (drop (s * B) stage2) = b ∧ s ≤ f).
Proof.
  intros HB. induction j as [|j IH]; intros Hj.
  - simpl. split; [done|]. split; [by exists 0|]. split; [intros; lia|].
    intros b s Hb. by rewrite lookup_empty in Hb.
  - rewrite compress_after_S.
    destruct (compress_after table B j) as [[blocks stage1] stage2] eqn:Hst.
    destruct IH as (Hlen & (nb & Hnb & Hnbj) & Hs1 & Hblocks); [lia|].
    pose proof (length_chunk table B j Hj) as Hck.
    unfold compress_step.
    destruct (blocks !! take B (drop (j * B) table)) as [start|] eqn:Hget;
      fold (chunk table B j) in *.
    + split; [rewrite length_app; simpl; lia|].
      split; [exists nb; split; [done|lia]|].
      split.
      * intros i Hi. destruct (decide (i = j)) as [->|Hne].
        -- exists start. split; [|done].
           rewrite lookup_app_r by lia. by rewrite Hlen, Nat.sub_diag.
        -- destruct (Hs1 i) as (s & Hsi & Hbi); [lia|].
           exists s. split; [|done]. rewrite lookup_app_l by lia. done.
      * intros b s Hb. destruct (Hblocks b s Hb) as (f & ? & ? & ? & ? & ? & ? & ?).
        exists f. repeat split; try done. lia.
    + assert (Hdiv : length stage2 / B = nb)
        by (rewrite Hnb; apply Nat.div_mul; lia).
      rewrite Hdiv.
      assert (Hfresh : ∀ i, i < j → chunk table B i ≠ chunk table B j).
      { intros i Hi Heq. destruct (Hs1 i Hi) as (s & _ & Hbi).
        rewrite Heq in Hbi. congruence. }
      split; [rewrite length_app; simpl; lia|].
      split; [exists (S nb); split; [rewrite length_app; lia|lia]|].
      split.
      * intros i Hi. destruct (decide (i = j)) as [->|Hne].
        -- exists nb. split; [|by rewrite lookup_insert_eq].
           rewrite lookup_app_r by lia. by rewrite Hlen, Nat.sub_diag.
        -- destruct (Hs1 i) as (s & Hsi & Hbi); [lia|].
           exists s. split; [rewrite lookup_app_l by lia; done|].
           rewrite lookup_insert_ne; [done|]. intros Heq. apply (Hfresh i); [lia|done].
      * intros b s [[<- <-]|[Hne Hb]]%lookup_insert_Some.
        -- exists j. split; [lia|]. split; [done|]. split; [done|].
           split; [by rewrite Hst|]. split; [rewrite length_app; lia|].
           split; [|lia].
           rewrite <- Hnb, drop_app_length. apply take_ge. lia.
        -- destruct (Hblocks b s Hb) as (f & ? & ? & ? & ? & ? & Htk & ?).
           exists f. split; [lia|]. split; [done|]. split; [done|].
           split; [done|]. split; [rewrite length_app; lia|]. split; [|done].
           rewrite drop_app_le by lia. rewrite take_app_le; [done|].
           rewrite length_drop. lia.
Qed.

(** Whenever a block is allocated, [len(stage2)] is a whole number of
    blocks. *)
Lemma compress_alloc_exact table B j :
  0 < B → j * B ≤ length table →
  length (compress_after table B j).2 mod B = 0.
Proof.
  intros HB Hj. pose proof (compress_inv table B j HB Hj) as Hinv.
  destruct (compress_after table B j) as [[blocks stage1] stage2].
  destruct Hinv as (_ & (nb & Hnb & _) & _). simpl. rewrite Hnb.
  apply Nat.Div0.mod_mul.
Qed.

Lemma compress_after_lookup table B j c :
  0 < B → j * B ≤ length table → c < j * B →
  let '(_, stage1, stage2) := compress_after table B j in
  ∃ s, stage1 !! (c / B) = Some s ∧ s * B + B ≤ length stage2 ∧
       stage2 !! (s * B + c mod B) = table !! c.
Proof.
  intros HB Hj Hc. pose proof (compress_inv table B j HB Hj) as Hinv.
  destruct (compress_after table B j) as [[blocks stage1] stage2].
  destruct Hinv as (_ & _ & Hs1 & Hblocks).
  assert (Hi : c / B < j) by (apply Nat.Div0.div_lt_upper_bound; lia).
  destruct (Hs1 _ Hi) as (s & Hsi & Hbi).
  destruct (Hblocks _ _ Hbi) as (f & _ & _ & _ & _ & Hin & Htk & _).
  exists s. split; [done|]. split; [done|].
  assert (Hr : c mod B < B) by (apply Nat.mod_upper_bound; lia).
  apply (f_equal (λ l, l !! (c mod B))) in Htk.
  rewrite lookup_take_lt, lookup_drop in Htk by done.
  rewrite Htk, chunk_lookup by done. f_equal.
  pose proof (Nat.div_mod_eq c B). lia.
Qed.

Lemma py_range3_count n B :
  0 < B →
  (n + (B - 1)) / B = if decide (n mod B = 0) then n / B else S (n / B).
Proof.
  intros HB. pose proof (Nat.div_mod_eq n B) as Hn.
  pose proof (Nat.mod_upper_bound n B ltac:(lia)) as Hr.
  case_decide as Hz.
  - symmetry. apply (Nat.div_unique _ _ _ (B - 1)); lia.
  - symmetry. apply (Nat.div_unique _ _ _ (n mod B - 1)); lia.
Qed.

Lemma compress_table_whole table B :
  0 < B → length table mod B = 0 →
  compress_table table B =
  Ok ((compress_after table B (length table / B)).1.2,
      (compress_after table B (length table / B)).2).
Proof.
  intros HB Hmod. unfold compress_table.
  destruct (decide (B = 0)); [lia|].
  rewrite py_range3_0, py_range3_count by done.
  rewrite decide_True by done. fold (compress_after table B (length table / B)).
  by destruct (compress_after table B (length table / B)) as [[? ?] ?].
Qed.

(** The lookup through the two stages gives back the table. *)
Lemma compress_round_trip table B :
  0 < B →
  ∃ stage1 stage2, compress_table table B = Ok (stage1, stage2) ∧
    ∀ c, c < length table → two_stage_lookup stage1 stage2 B c = table !! c.
Proof.
  intros HB. set (n := length table). set (k := n / B).
  pose proof (Nat.div_mod_eq n B) as Hn.
  pose proof (Nat.mod_upper_bound n B ltac:(lia)) as Hr.
  assert (Hk : k * B ≤ length table) by (fold n; unfold k; lia).
  pose proof (compress_inv table B k HB Hk) as Hinv.
  pose proof (λ c, compress_after_lookup table B k c HB Hk) as Hlook.
  unfold compress_table. destruct (decide (B = 0)); [lia|].
  rewrite py_range3_0, py_range3_count by done. fold n k.
  case_decide as Hz.
  - fold (compress_after table B k).
    destruct (compress_after table B k) as [[blocks stage1] stage2].
    exists stage1, stage2. split; [done|]. intros c Hc.
    destruct (Hlook c) as (s & Hs & _ & Hs2); [fold n in Hc; unfold k; lia|].
    unfold two_stage_lookup. rewrite Hs. done.
  - fold (compress_after table B (S k)). rewrite compress_after_S.
    destruct (compress_after table B k) as [[blocks stage1] stage2].
    destruct Hinv as (Hlen & (nb & Hnb & _) & _ & Hblocks).
    unfold compress_step. fold (chunk table B k).
    assert (Hck : length (chunk table B k) = n mod B).
    { unfold chunk. rewrite length_take, length_drop. fold n. unfold k. lia. }
    destruct (blocks !! chunk table B k) as [s|] eqn:Hget.
    { destruct (Hblocks _ _ Hget) as (f & Hf & Hcf & _).
      assert (S f * B ≤ length table) by nia.
      rewrite <- Hcf, length_chunk in Hck by done. lia. }
    exists (stage1 ++ [length stage2 / B]), (stage2 ++ chunk table B k).
    split; [done|]. intros c Hc. fold n in Hc.
    unfold two_stage_lookup.
    destruct (decide (c < k * B)) as [Hlt|Hge].
    + destruct (Hlook c Hlt) as (s & Hs & Hin & Hs2).
      assert (c / B < k) by (apply Nat.Div0.div_lt_upper_bound; lia).
      rewrite lookup_app_l by lia. rewrite Hs. simpl.
      pose proof (Nat.mod_upper_bound c B ltac:(lia)).
      rewrite lookup_app_l by lia. done.
    + assert (Hq : c / B = k).
      { symmetry. apply (Nat.div_unique _ _ _ (c - k * B)); unfold k in *; lia. }
      assert (Hm : c mod B = c - k * B).
      { pose proof (Nat.div_mod_eq c B). rewrite Hq in *. lia. }
      rewrite Hq, lookup_app_r by lia. rewrite Hlen, Nat.sub_diag. simpl.
      rewrite Hnb, Nat.div_mul by lia.
      rewrite lookup_app_r by lia. rewrite Hnb, Nat.add_sub_swap, Nat.sub_diag by lia.
      simpl. rewrite chunk_lookup by lia. f_equal. lia.
Qed.

(** C10. Stage-table structure: on a table whose length is a multiple of the
    block size, [compress_table] returns a [stage1] with one entry per block
    and a [stage2] made of whole blocks; entry [i] of [stage1] is the number
    [s] of the [stage2] block that was allocated when the first block [f]
    equal to block [i] was read, that is, the number of blocks [stage2] held
    before that pass; block [s] of [stage2] is block [i] of the table, [s]
    is within [stage2] and [s <= i]. *)
Theorem compress_table_structure table B :
  0 < B → length table mod B = 0 →
  ∃ stage1 stage2, compress_table table B = Ok (stage1, stage2) ∧
    length stage1 = length table / B ∧
    length stage2 mod B = 0 ∧
    ∀ i, i < length table / B →
      ∃ s f, stage1 !! i = Some s ∧
        f ≤ i ∧ chunk table B f = chunk table B i ∧
        (∀ f', f' < f → chunk table B f' ≠ chunk table B i) ∧
        length (compress_after table B f).2 = s * B ∧
        take B (drop (s * B) stage2) = chunk table B i ∧
        s < length stage2 / B ∧ s ≤ i.
Proof.
  intros HB Hmod. rewrite compress_table_whole by done.
  set (k := length table / B).
  assert (Hk : k * B ≤ length table)
    by (pose proof (Nat.div_mod_eq (length table) B); unfold k; lia).
  pose proof (compress_inv table B k HB Hk) as Hinv.
  destruct (compress_after table B k) as [[blocks stage1] stage2].
  destruct Hinv as (Hlen & (nb & Hnb & _) & Hs1 & Hblocks).
  exists stage1, stage2. split; [done|]. split; [done|].
  split; [rewrite Hnb; apply Nat.Div0.mod_mul|].
  intros i Hi. destruct (Hs1 i Hi) as (s & Hsi & Hbi).
  destruct (Hblocks _ _ Hbi) as (f & Hf & Hcf & Hfirst & Hat & Hin & Htk & Hsf).
  exists s, f. split; [done|].
  assert (Hfi : f ≤ i).
  { destruct (decide (f ≤ i)); [done|]. exfalso. apply (Hfirst i); [lia|done]. }
  repeat split; try done; try lia.
  rewrite Hnb, Nat.div_mul by lia. nia.
Qed.

End compress_facts.

Section combine_facts.
Local Open Scope nat_scope.
Implicit Types (records : records_t) (rows : list (list Z)) (t : list Z).

Lemma records_get_Some records t i :
  records_get records t = Some i → (t, i) ∈ records.
Proof.
  induction records as [|[t' i'] records IH]; simpl; [done|].
  case_decide as Heq.
  - intros [= <-]. subst. apply elem_of_cons. by left.
  - intros Hg. apply elem_of_cons. right. by apply IH.
Qed.

Lemma records_get_None records t :
  records_get records t = None ↔ t ∉ records.*1.
Proof.
  induction records as [|[t' i'] records IH]; simpl.
  - split; [intros _; apply not_elem_of_nil|done].
  - case_decide as Heq.
    + subst. split; [done|]. intros Hn. exfalso. apply Hn, elem_of_cons. by left.
    + rewrite IH, not_elem_of_cons. simpl. intuition congruence.
Qed.

Lemma records_get_app records records' t :
  records_get (records ++ records') t =
  match records_get records t with
  | Some i => Some i
  | None => records_get records' t
  end.
Proof.
  induction records as [|[t' i'] records IH]; simpl; [done|].
  by case_decide.
Qed.

Lemma records_get_elem records t i :
  NoDup records.*1 → (t, i) ∈ records → records_get records t = Some i.
Proof.
  induction records as [|[t' i'] records IH]; simpl.
  - intros _ Hin. by apply elem_of_nil in Hin.
  - intros [Hnot Hnd]%NoDup_cons [Heq|Hin]%elem_of_cons.
    + injection Heq as -> ->. by rewrite decide_True.
    + case_decide as Heq; [|by apply IH]. subst. exfalso. apply Hnot.
      apply list_elem_of_fmap. by exists (t, i).
Qed.

(** The invariant of the loop of [combine_tables] over the rows read so
    far. *)
Lemma combine_inv rows :
  let '(records, index) := foldl combine_step ([], []) rows in
  length index = length rows ∧
  records.*2 = seq 0 (length records) ∧
  NoDup records.*1 ∧
  (∀ t, t ∈ records.*1 ↔ t ∈ rows) ∧
  (∀ c t, rows !! c = Some t →
     ∃ i, index !! c = Some i ∧ records_get records t = Some i) ∧
  (∀ t i, records_get records t = Some i →
     ∃ f, rows !! f = Some t ∧ (∀ f', f' < f → rows !! f' ≠ Some t) ∧
       i = length (remove_dups (take f rows))).
Proof.
  induction rows as [|t rows IH] using rev_ind.
  - simpl. split; [done|]. split; [done|]. split; [constructor|].
    split; [done|]. split; [|done].
    intros c t Hc. by rewrite lookup_nil in Hc.
  - rewrite foldl_app. simpl.
    destruct (foldl combine_step ([], []) rows) as [records index].
    destruct IH as (Hlen & Hids & Hnd & Hkeys & Hidx & Hfirst).
    unfold combine_step.
    destruct (records_get records t) as [i|] eqn:Hget.
    + assert (Ht : t ∈ rows).
      { apply Hkeys, list_elem_of_fmap. exists (t, i).
        split; [done|by apply records_get_Some]. }
      split; [rewrite !length_app; simpl; lia|].
      split; [done|]. split; [done|]. split.
      { intros t'. rewrite Hkeys, elem_of_app, list_elem_of_singleton.
        split; [by left|]. by intros [?| ->]. }
      split.
      * intros c t' Hc. destruct (decide (c < length rows)) as [Hlt|Hge].
        -- rewrite lookup_app_l in Hc by done.
           destruct (Hidx c t' Hc) as (i' & ? & ?). exists i'.
           by rewrite lookup_app_l by lia.
        -- assert (c = length rows) as ->.
           { apply lookup_lt_Some in Hc. rewrite length_app in Hc. simpl in Hc. lia. }
           rewrite lookup_app_r, Nat.sub_diag in Hc by lia. injection Hc as <-.
           exists i. split; [|done].
           by rewrite lookup_app_r, Hlen, Nat.sub_diag by lia.
      * intros t' i' Hg. destruct (Hfirst t' i' Hg) as (f & Hf & Hbefore & ->).
        pose proof (lookup_lt_Some _ _ _ Hf) as Hlt.
        exists f. split; [by rewrite lookup_app_l|]. split.
        -- intros f' Hf'. rewrite lookup_app_l by lia. by apply Hbefore.
        -- by rewrite take_app_le by lia.
    + assert (Ht : t ∉ rows) by (rewrite <- Hkeys; by apply records_get_None).
      assert (Hcount : length records = length (remove_dups rows)).
      { rewrite <- (length_fmap fst records). apply Permutation_length.
        apply NoDup_Permutation; [done|apply NoDup_remove_dups|].
        intros t'. by rewrite Hkeys, elem_of_remove_dups. }
      split; [rewrite !length_app; simpl; lia|].
      split.
      { rewrite fmap_app, length_app, Hids. simpl.
        by rewrite Nat.add_1_r, seq_S. }
      split.
      { rewrite fmap_app. apply NoDup_app. split; [done|]. split.
        - intros t' Hin [->|[]%elem_of_nil]%elem_of_cons.
          by apply records_get_None in Hget.
        - apply NoDup_singleton. }
      split.
      { intros t'. rewrite fmap_app, !elem_of_app, Hkeys. done. }
      split.
      * intros c t' Hc. destruct (decide (c < length rows)) as [Hlt|Hge].
        -- rewrite lookup_app_l in Hc by done.
           destruct (Hidx c t' Hc) as (i' & Hi & Hg). exists i'.
           split; [by rewrite lookup_app_l by lia|].
           by rewrite records_get_app, Hg.
        -- assert (c = length rows) as ->.
           { apply lookup_lt_Some in Hc. rewrite length_app in Hc. simpl in Hc. lia. }
           rewrite lookup_app_r, Nat.sub_diag in Hc by lia. injection Hc as <-.
           exists (length records).
           split; [by rewrite lookup_app_r, Hlen, Nat.sub_diag by lia|].
           rewrite records_get_app, Hget. simpl. by rewrite decide_True.
      * intros t' i'. rewrite records_get_app.
        destruct (records_get records t') as [i''|] eqn:Hg.
        -- intros [= <-]. destruct (Hfirst t' i'' Hg) as (f & Hf & Hbefore & ->).
           pose proof (lookup_lt_Some _ _ _ Hf) as Hlt.
           exists f. split; [by rewrite lookup_app_l|]. split.
           ++ intros f' Hf'. rewrite lookup_app_l by lia. by apply Hbefore.
           ++ by rewrite take_app_le by lia.
        -- simpl. case_decide as Heq; [|done]. intros [= <-]. subst t'.
           exists (length rows).
           split; [by rewrite lookup_app_r, Nat.sub_diag by lia|]. split.
           ++ intros f' Hf'. rewrite lookup_app_l by lia. intros Hc.
              apply Ht. by eapply list_elem_of_lookup_2.
           ++ by rewrite take_app_length.
Qed.

End combine_facts.

Section sorting_facts.
Context {A : Type} (key : A → Z).

Lemma insert_by_perm (x : A) (l : list A) : insert_by key x l ≡ₚ x :: l.
Proof.
  induction l as [|y l IH]; simpl; [done|].
  case_bool_decide; [done|]. rewrite IH. apply Permutation_swap.
Qed.

Lemma py_sorted_perm (l : list A) : py_sorted key l ≡ₚ l.
Proof.
  induction l as [|x l IH]; simpl; [done|].
  by rewrite insert_by_perm, IH.
Qed.

Lemma insert_by_sorted (x : A) (l : list A) :
  Sorted (key_le key) l → Sorted (key_le key) (insert_by key x l).
Proof.
  induction l as [|y l IH]; simpl; intros Hs.
  - by repeat constructor.
  - case_bool_decide as Hxy.
    + constructor; [done|]. by constructor.
    + apply Sorted_inv in Hs as [Hs Hhd]. constructor; [by apply IH|].
      destruct l as [|z l]; simpl.
      * constructor. unfold key_le. lia.
      * case_bool_decide.
        -- constructor. unfold key_le. lia.
        -- constructor. by apply HdRel_inv in Hhd.
Qed.

Lemma py_sorted_sorted (l : list A) : Sorted (key_le key) (py_sorted key l).
Proof.
  induction l as [|x l IH]; simpl; [constructor|]. by apply insert_by_sorted.
Qed.

(** A list that is already in order is left as it is. *)
Lemma py_sorted_id (l : list A) : Sorted (key_le key) l → py_sorted key l = l.
Proof.
  induction l as [|x l IH]; simpl; [done|].
  intros [Hs Hhd]%Sorted_inv. rewrite IH by done.
  destruct l as [|y l]; simpl; [done|].
  apply HdRel_inv in Hhd. by rewrite bool_decide_eq_true_2.
Qed.

End sorting_facts.

Section records_facts.
Local Open Scope nat_scope.

Lemma zip_star_min_length (rest : list (list Z)) (n : nat) :
  foldl (λ n t, n `min` length t) n rest ≤ n ∧
  ∀ t, t ∈ rest → foldl (λ n t, n `min` length t) n rest ≤ length t.
Proof.
  revert n. induction rest as [|t0 rest IH]; intros n; simpl.
  - split; [done|]. intros t Ht. by apply elem_of_nil in Ht.
  - destruct (IH (n `min` length t0)) as [Hle Hall]. split; [lia|].
    intros t [->|Ht]%elem_of_cons; [lia|by apply Hall].
Qed.

(** Field [k] of row [c] is entry [c] of table [k]. *)
Lemma zip_star_lookup (tables : list (list Z)) (c : nat) (row : list Z) :
  zip_star tables !! c = Some row →
  length row = length tables ∧
  ∀ k t, tables !! k = Some t → is_Some (t !! c) ∧ row !! k = t !! c.
Proof.
  destruct tables as [|t0 rest]; [simpl; by rewrite lookup_nil|].
  unfold zip_star. intros (c' & -> & Hc)%list_lookup_fmap_Some.
  apply lookup_seq in Hc as [-> Hc]. rewrite Nat.add_0_l.
  split; [apply length_fmap|].
  destruct (zip_star_min_length rest (length t0)) as [Hle Hall].
  intros k t Hk.
  assert (Hlt : c < length t).
  { destruct k as [|k]; simpl in Hk.
    - injection Hk as <-. lia.
    - apply list_elem_of_lookup_2 in Hk. specialize (Hall _ Hk). lia. }
  destruct (lookup_lt_is_Some_2 t c Hlt) as [v Hv].
  split; [by exists v|].
  rewrite list_lookup_fmap, Hk. simpl. by rewrite Hv.
Qed.

(** With tables of one length there is a row for each position. *)
Lemma zip_star_length (tables : list (list Z)) (n : nat) :
  tables ≠ [] → (∀ t, t ∈ tables → length t = n) →
  length (zip_star tables) = n.
Proof.
  destruct tables as [|t0 rest]; [done|]. intros _ Hall. simpl.
  rewrite length_fmap, length_seq.
  assert (H0 : length t0 = n) by (apply Hall, elem_of_cons; by left).
  rewrite H0. clear H0.
  assert (Hrest : ∀ t, t ∈ rest → length t = n)
    by (intros t Ht; apply Hall, elem_of_cons; by right).
  clear Hall. induction rest as [|t rest IH]; simpl; [done|].
  rewrite (Hrest t) by (apply elem_of_cons; by left).
  rewrite Nat.min_id. apply IH. intros t' Ht'. apply Hrest, elem_of_cons. by right.
Qed.

Lemma sorted_by_id (records : records_t) (start : nat) :
  records.*2 = seq start (length records) →
  Sorted (key_le (λ x : list Z * nat, Z.of_nat x.2)) records.
Proof.
  revert start. induction records as [|[t i] records IH]; intros start; simpl.
  - constructor.
  - intros [= -> Hrest]. constructor; [by apply (IH (S start))|].
    destruct records as [|[t' i'] records]; constructor.
    simpl in Hrest. injection Hrest as -> _. unfold key_le. simpl. lia.
Qed.

(** The rows written are the records in the order of their ids, row [i]
    being the record with id [i]. *)
Lemma write_records_id (records : records_t) :
  records.*2 = seq 0 (length records) → write_records records = records.
Proof.
  intros Hids. unfold write_records. rewrite zip_fst_snd.
  rewrite py_sorted_id by (by apply (sorted_by_id records 0)).
  apply list_eq. intros i. rewrite list_lookup_imap.
  destruct (records !! i) as [[t i']|] eqn:Hi; simpl; [|done].
  f_equal. f_equal.
  assert (Hi' : records.*2 !! i = Some i') by (by rewrite list_lookup_fmap, Hi).
  rewrite Hids in Hi'. apply lookup_seq in Hi'. lia.
Qed.

Lemma combine_tables_length (tables : list (list Z)) (n : nat) :
  tables ≠ [] → (∀ t, t ∈ tables → length t = n) →
  length (combine_tables tables).1 = n.
Proof.
  intros Hne Hall. unfold combine_tables, combine_rows.
  pose proof (combine_inv (zip_star tables)) as Hinv.
  destruct (foldl combine_step ([], []) (zip_star tables)) as [records index].
  destruct Hinv as [Hlen _]. simpl. rewrite Hlen. by apply zip_star_length.
Qed.

Lemma combine_tables_inv (tables : list (list Z)) :
  combine_tables tables =
  ((foldl combine_step ([], []) (zip_star tables)).2,
   (foldl combine_step ([], []) (zip_star tables)).1).
Proof.
  unfold combine_tables, combine_rows.
  by destruct (foldl combine_step ([], []) (zip_star tables)).
Qed.

Lemma seq_sorted (start len : nat) : Sorted le (seq start len).
Proof.
  revert start. induction len as [|len IH]; intros start; simpl; [constructor|].
  constructor; [apply IH|]. destruct len; simpl; constructor. lia.
Qed.

(** Sorted by id, a catalogue with the ids 0, 1, 2, ... has them in that
    order, in whatever order its entries were. *)
Lemma py_sorted_ids (records : records_t) (m : nat) :
  records.*2 ≡ₚ seq 0 m →
  (py_sorted (λ x : list Z * nat, Z.of_nat x.2) records).*2 = seq 0 m.
Proof.
  intros Hperm. apply (Sorted_unique le).
  - apply (Sorted_fmap snd (key_le (λ x : list Z * nat, Z.of_nat x.2)) le);
      [|apply py_sorted_sorted].
    intros x y. unfold key_le. lia.
  - apply seq_sorted.
  - by rewrite py_sorted_perm.
Qed.

(** Row [i] of [write_records] is the record with id [i], in whatever order
    the entries of the catalogue come. *)
Lemma write_records_rows (records records' : records_t) :
  records.*2 = seq 0 (length records) → NoDup records.*1 →
  records' ≡ₚ records →
  length (write_records records') = length records ∧
  ∀ i row, write_records records' !! i = Some row →
    row.2 = i ∧ records_get records row.1 = Some i.
Proof.
  intros Hids Hnd Hperm. unfold write_records. rewrite zip_fst_snd.
  set (sorted := py_sorted (λ x : list Z * nat, Z.of_nat x.2) records').
  assert (Hsp : sorted ≡ₚ records) by (unfold sorted; by rewrite py_sorted_perm).
  assert (Hsids : sorted.*2 = seq 0 (length records)).
  { apply py_sorted_ids. by rewrite Hperm, Hids. }
  split; [rewrite length_imap; by apply Permutation_length|].
  intros i row. rewrite list_lookup_imap.
  destruct (sorted !! i) as [[t i']|] eqn:Hi; simpl; [|done].
  intros [= <-]. simpl. split; [done|].
  assert (Hq : sorted.*2 !! i = Some i') by (by rewrite list_lookup_fmap, Hi).
  rewrite Hsids in Hq. apply lookup_seq in Hq as [Heq _]. simpl in Heq. subst i'.
  apply records_get_elem; [done|]. rewrite <- Hsp.
  by eapply list_elem_of_lookup_2.
Qed.

(** C5. Record interning, for tables of one length [n]: there is a row for
    each of the [n] positions, field [k] of row [c] being entry [c] of table
    [k], and an index entry for each; the ids in the catalogue are 0, 1, 2,
    ... in the order of insertion; the id of a tuple is the number of
    distinct tuples among the rows before its first occurrence; every row is
    indexed by the id of its tuple, so two positions have the same index
    exactly when their tuples are equal, that is when every table has the
    same entry at both, and no tuple is in the catalogue twice; the rows
    written by [write_records] are the records by ascending id, row [i]
    being the record interned with id [i], in whatever order the entries of
    the catalogue come. *)
Theorem combine_tables_interning (tables : list (list Z)) (n : nat) :
  tables ≠ [] → (∀ t, t ∈ tables → length t = n) →
  let rows := zip_star tables in
  let index := (combine_tables tables).1 in
  let records := (combine_tables tables).2 in
  length rows = n ∧
  (∀ c, c < n →
     ∃ row, rows !! c = Some row ∧ length row = length tables ∧
       ∀ k t, tables !! k = Some t → is_Some (t !! c) ∧ row !! k = t !! c) ∧
  length index = n ∧
  records.*2 = seq 0 (length records) ∧
  NoDup records.*1 ∧
  (∀ t i, records_get records t = Some i →
     ∃ f, rows !! f = Some t ∧ (∀ f', f' < f → rows !! f' ≠ Some t) ∧
       i = length (remove_dups (take f rows))) ∧
  (∀ c t, rows !! c = Some t →
     ∃ i, index !! c = Some i ∧ records_get records t = Some i) ∧
  (∀ c1 c2 t1 t2 i1 i2,
     rows !! c1 = Some t1 → rows !! c2 = Some t2 →
     index !! c1 = Some i1 → index !! c2 = Some i2 →
     i1 = i2 ↔ t1 = t2) ∧
  (∀ c1 c2 i1 i2,
     index !! c1 = Some i1 → index !! c2 = Some i2 →
     i1 = i2 ↔ ∀ t, t ∈ tables → t !! c1 = t !! c2) ∧
  ∀ records', records' ≡ₚ records →
    length (write_records records') = length records ∧
    ∀ i row, write_records records' !! i = Some row →
      row.2 = i ∧ records_get records row.1 = Some i.
Proof.
  intros Hne Hall rows index records.
  pose proof (zip_star_length tables n Hne Hall) as Hrows. fold rows in Hrows.
  unfold index, records.
  rewrite combine_tables_inv. simpl. fold rows.
  pose proof (combine_inv rows) as Hinv.
  destruct (foldl combine_step ([], []) rows) as [recs idx]. simpl.
  destruct Hinv as (Hlen & Hids & Hnd & Hkeys & Hidx & Hfirst).
  assert (Hiff : ∀ c1 c2 t1 t2 i1 i2,
            rows !! c1 = Some t1 → rows !! c2 = Some t2 →
            idx !! c1 = Some i1 → idx !! c2 = Some i2 →
            i1 = i2 ↔ t1 = t2).
  { intros c1 c2 t1 t2 i1 i2 Hc1 Hc2 Hi1 Hi2.
    destruct (Hidx _ _ Hc1) as (j1 & Hj1 & Hg1).
    destruct (Hidx _ _ Hc2) as (j2 & Hj2 & Hg2).
    assert (j1 = i1) as -> by congruence. assert (j2 = i2) as -> by congruence.
    split.
    + intros ->. apply records_get_Some in Hg1, Hg2.
      destruct (list_elem_of_lookup_1 _ _ Hg1) as [p1 Hp1].
      destruct (list_elem_of_lookup_1 _ _ Hg2) as [p2 Hp2].
      assert (Hq1 : recs.*2 !! p1 = Some i2) by (by rewrite list_lookup_fmap, Hp1).
      assert (Hq2 : recs.*2 !! p2 = Some i2) by (by rewrite list_lookup_fmap, Hp2).
      rewrite Hids in Hq1, Hq2.
      apply lookup_seq in Hq1, Hq2. assert (p1 = p2) as -> by lia. congruence.
    + intros ->. congruence. }
  split; [done|]. split.
  { intros c Hc. destruct (lookup_lt_is_Some_2 rows c) as [row Hrow]; [lia|].
    exists row. split; [done|]. by apply zip_star_lookup. }
  split; [congruence|]. split; [done|]. split; [done|]. split; [done|].
  split; [done|]. split; [done|]. split.
  - intros c1 c2 i1 i2 Hi1 Hi2.
    destruct (lookup_lt_is_Some_2 rows c1) as [t1 Ht1];
      [apply lookup_lt_Some in Hi1; lia|].
    destruct (lookup_lt_is_Some_2 rows c2) as [t2 Ht2];
      [apply lookup_lt_Some in Hi2; lia|].
    rewrite (Hiff c1 c2 t1 t2 i1 i2 Ht1 Ht2 Hi1 Hi2).
    destruct (zip_star_lookup tables c1 t1 Ht1) as [Hl1 Hf1].
    destruct (zip_star_lookup tables c2 t2 Ht2) as [Hl2 Hf2].
    split.
    + intros <- t [k Hk]%list_elem_of_lookup_1.
      destruct (Hf1 k t Hk) as [_ <-]. by destruct (Hf2 k t Hk) as [_ <-].
    + intros Heq. apply list_eq. intros k.
      destruct (tables !! k) as [t|] eqn:Hk.
      * destruct (Hf1 k t Hk) as [_ ->]. destruct (Hf2 k t Hk) as [_ ->].
        apply Heq. by eapply list_elem_of_lookup_2.
      * apply lookup_ge_None in Hk.
        rewrite !lookup_ge_None_2 by lia. done.
  - intros records' Hperm. by apply write_records_rows.
Qed.

End records_facts.

Section search_facts.

Lemma total_size_formula (nrecords : nat) (record_size : Z) (table : list nat)
    (B : nat) (r : Z * (list nat * list nat)) :
  total_size nrecords record_size table B = Ok r →
  ∃ ty1 ty2,
    compress_table table B = Ok r.2 ∧
    get_type_size (Z.of_nat <$> r.2.1) = Ok ty1 ∧
    get_type_size (Z.of_nat <$> r.2.2) = Ok ty2 ∧
    r.1 = Z.of_nat nrecords * record_size +
          (ty1.2 * Z.of_nat (length r.2.1) + ty2.2 * Z.of_nat (length r.2.2)).
Proof.
  unfold total_size.
  destruct (compress_table table B) as [[stage1 stage2]|e]; simpl; [|done].
  unfold get_tables_size. simpl.
  destruct (get_type_size (Z.of_nat <$> stage1)) as [ty1|e] eqn:H1; simpl; [|done].
  destruct (get_type_size (Z.of_nat <$> stage2)) as [ty2|e] eqn:H2; simpl; [|done].
  intros [= <-]. exists ty1, ty2. simpl. rewrite !length_fmap.
  repeat split; try done; lia.
Qed.

(** The loop of the search over any list of candidates, from any state. *)
Lemma search_inv (nrecords : nat) (record_size : Z) (table : list nat)
    (cands : list nat) (st0 st : search_state) :
  for_each cands (search_step nrecords record_size table) st0 = Ok st →
  (∀ q B', cands !! q = Some B' →
     ∃ r, total_size nrecords record_size table B' = Ok r ∧ min_size st ≤ r.1) ∧
  (st = st0 ∨
   ∃ p B r, cands !! p = Some B ∧
     total_size nrecords record_size table B = Ok r ∧
     st = SearchState r.1 (Some (r.2.1, r.2.2, B)) ∧
     r.1 < min_size st0 ∧
     ∀ q B', (q < p)%nat → cands !! q = Some B' →
       ∃ r', total_size nrecords record_size table B' = Ok r' ∧ r.1 < r'.1).
Proof.
  revert st0. induction cands as [|B cands IH]; intros st0; simpl.
  - intros [= <-]. split; [|by left]. intros q B' Hq. by rewrite lookup_nil in Hq.
  - destruct (search_step nrecords record_size table st0 B) as [st1|e] eqn:Hstep;
      simpl; [|done].
    intros Hrest. destruct (IH _ Hrest) as [Hall Hbest]. clear IH.
    unfold search_step in Hstep.
    destruct (total_size nrecords record_size table B) as [r|e] eqn:Htot;
      simpl in Hstep; [|done].
    case_bool_decide as Hlt; injection Hstep as <-.
    + destruct Hbest as [->|(p & B2 & r2 & Hp & Ht2 & -> & Hlt2 & Hpre)];
        simpl in *.
      * split.
        -- intros [|q] B' Hq; simpl in Hq; [|by apply (Hall q)].
           injection Hq as <-. exists r. split; [done|lia].
        -- right. exists 0%nat, B, r. repeat split; try done. intros; lia.
      * split.
        -- intros [|q] B' Hq; simpl in Hq; [|by apply (Hall q)].
           injection Hq as <-. exists r. split; [done|lia].
        -- right. exists (S p), B2, r2. repeat split; try done; [lia|].
           intros [|q] B' Hq Hl; simpl in Hl; [|apply (Hpre q); [lia|done]].
           injection Hl as <-. exists r. split; [done|lia].
    + destruct Hbest as [->|(p & B2 & r2 & Hp & Ht2 & -> & Hlt2 & Hpre)];
        simpl in *.
      * split; [|by left].
        intros [|q] B' Hq; simpl in Hq; [|by apply (Hall q)].
        injection Hq as <-. exists r. split; [done|lia].
      * split.
        -- intros [|q] B' Hq; simpl in Hq; [|by apply (Hall q)].
           injection Hq as <-. exists r. split; [done|lia].
        -- right. exists (S p), B2, r2. repeat split; try done.
           intros [|q] B' Hq Hl; simpl in Hl; [|apply (Hpre q); [lia|done]].
           injection Hl as <-. exists r. split; [done|lia].
Qed.

Lemma block_sizes_lookup (p B : nat) :
  block_sizes !! p = Some B → B = (2 ^ (5 + p))%nat ∧ (p < 5)%nat.
Proof.
  intros Hp. assert (Hlt : (p < 5)%nat) by (by apply lookup_lt_Some in Hp).
  split; [|done].
  do 5 (destruct p as [|p]; [by injection Hp as <-|]). lia.
Qed.

(** C2. Block-size search: the candidates are 32, 64, 128, 256 and 512, in
    this order; the size computed for a candidate is the number of records
    times the record size, plus the sizes of [stage1] and of [stage2] at the
    widths [get_type_size] gives them; the block size retained has the least
    size of all candidates, and is the smallest candidate of that size. *)
Theorem block_size_search_optimal (nrecords : nat) (record_size : Z)
    (table : list nat) (st : search_state) :
  find_block_size nrecords record_size table = Ok st →
  block_sizes = [32; 64; 128; 256; 512]%nat ∧
  (∀ B, B ∈ block_sizes →
     ∃ stage1 stage2 ty1 ty2,
       compress_table table B = Ok (stage1, stage2) ∧
       get_type_size (Z.of_nat <$> stage1) = Ok ty1 ∧
       get_type_size (Z.of_nat <$> stage2) = Ok ty2 ∧
       total_size nrecords record_size table B =
         Ok (Z.of_nat nrecords * record_size +
             (ty1.2 * Z.of_nat (length stage1) + ty2.2 * Z.of_nat (length stage2)),
             (stage1, stage2))) ∧
  (∀ stage1 stage2 B, min_tables st = Some (stage1, stage2, B) →
     B ∈ block_sizes ∧
     total_size nrecords record_size table B = Ok (min_size st, (stage1, stage2)) ∧
     ∀ B', B' ∈ block_sizes →
       ∃ r, total_size nrecords record_size table B' = Ok r ∧
         min_size st ≤ r.1 ∧ (r.1 = min_size st → (B ≤ B')%nat)).
Proof.
  intros Hfind. destruct (search_inv _ _ _ _ _ _ Hfind) as [Hall Hbest].
  split; [done|]. split.
  - intros B [q Hq]%list_elem_of_lookup_1.
    destruct (Hall q B Hq) as ([sz [stage1 stage2]] & Htot & _).
    destruct (total_size_formula _ _ _ _ _ Htot) as (ty1 & ty2 & Hc & H1 & H2 & Hsz).
    simpl in *. exists stage1, stage2, ty1, ty2. repeat split; try done.
    by rewrite Htot, Hsz.
  - intros stage1 stage2 B Hmin.
    destruct Hbest as [->|(p & B2 & [sz [s1 s2]] & Hp & Ht2 & -> & Hlt2 & Hpre)];
      simpl in *; [done|].
    injection Hmin as <- <- <-.
    split; [by eapply list_elem_of_lookup_2|]. split; [done|].
    intros B' [q Hq]%list_elem_of_lookup_1.
    destruct (Hall q B' Hq) as (r & Htot & Hle). exists r.
    split; [done|]. split; [done|]. intros Heq.
    destruct (decide (q < p)%nat) as [Hqp|Hqp].
    + destruct (Hpre q B' Hqp Hq) as (r' & Htot' & Hlt').
      rewrite Htot in Htot'. injection Htot' as <-. lia.
    + apply block_sizes_lookup in Hp as [-> _], Hq as [-> _].
      apply Nat.pow_le_mono_r; lia.
Qed.

(** Every position of the index leads to the record of its row. *)
Lemma combine_tables_lookup (tables : list (list Z)) (c : nat) :
  (c < length (combine_tables tables).1)%nat →
  ∃ i row, (combine_tables tables).1 !! c = Some i ∧
    zip_star tables !! c = Some row ∧
    records_get (combine_tables tables).2 row = Some i ∧
    (combine_tables tables).2 !! i = Some (row, i).
Proof.
  rewrite combine_tables_inv. simpl.
  pose proof (combine_inv (zip_star tables)) as Hinv.
  destruct (foldl combine_step ([], []) (zip_star tables)) as [recs idx]. simpl.
  destruct Hinv as (Hlen & Hids & Hnd & Hkeys & Hidx & Hfirst).
  intros Hc. rewrite Hlen in Hc.
  destruct (lookup_lt_is_Some_2 _ _ Hc) as [row Hrow].
  destruct (Hidx _ _ Hrow) as (i & Hi & Hg).
  exists i, row. repeat split; try done.
  apply records_get_Some in Hg.
  destruct (list_elem_of_lookup_1 _ _ Hg) as [p Hp].
  assert (Hq : recs.*2 !! p = Some i) by (by rewrite list_lookup_fmap, Hp).
  rewrite Hids in Hq. apply lookup_seq in Hq as [-> _]. done.
Qed.

(** C1. Two-stage round trip: with the block size and the stages that the
    search retains for the index made by [combine_tables], the lookup
    [stage2[stage1[c // B] * B + c % B]] gives, for every position [c], the
    index entry of [c], which is the id of the record whose fields are the
    entries at [c] of the tables combined; that record is row [i] of the
    records written. *)
Theorem two_stage_round_trip (tables : list (list Z)) (record_size : Z)
    (st : search_state) (stage1 stage2 : list nat) (B : nat) :
  let rows := zip_star tables in
  let index := (combine_tables tables).1 in
  let records := (combine_tables tables).2 in
  find_block_size (length records) record_size index = Ok st →
  min_tables st = Some (stage1, stage2, B) →
  ∀ c, (c < length index)%nat →
    ∃ i row,
      two_stage_lookup stage1 stage2 B c = Some i ∧
      index !! c = Some i ∧
      rows !! c = Some row ∧
      (∀ k t, tables !! k = Some t → row !! k = t !! c) ∧
      records_get records row = Some i ∧
      write_records records !! i = Some (row, i).
Proof.
  intros rows index records Hfind Hmin c Hc.
  destruct (search_inv _ _ _ _ _ _ Hfind) as [_ Hbest].
  destruct Hbest as [->|(p & B2 & [sz [s1 s2]] & Hp & Htot & -> & _)];
    simpl in Hmin; [done|].
  injection Hmin as <- <- <-.
  destruct (total_size_formula _ _ _ _ _ Htot) as (_ & _ & Hcomp & _).
  simpl in Hcomp.
  assert (HB : (0 < B2)%nat).
  { apply block_sizes_lookup in Hp as [-> _]. apply Nat.neq_0_lt_0.
    apply Nat.pow_nonzero. lia. }
  destruct (compress_round_trip index B2 HB) as (s1' & s2' & Hcomp' & Hround).
  rewrite Hcomp in Hcomp'. injection Hcomp' as <- <-.
  destruct (combine_tables_lookup tables c Hc) as (i & row & Hi & Hrow & Hg & Hrec).
  exists i, row. fold index records rows in Hi, Hrow, Hg, Hrec.
  split; [by rewrite Hround|]. split; [done|]. split; [done|].
  split; [intros k t Hk; by apply (zip_star_lookup tables c row Hrow)|].
  split; [done|].
  rewrite write_records_id; [done|].
  pose proof (combine_inv rows) as Hinv. unfold records.
  rewrite combine_tables_inv. simpl. fold rows.
  destruct (foldl combine_step ([], []) rows) as [recs idx]. tauto.
Qed.

End search_facts.

Lemma bind_Ok {A B : Type} (f : A → result B) (x : A) : Ok x ≫= f = f x.
Proof. done. Qed.

Section loop_facts.
Context {S A : Type}.
Implicit Types (body : S → A → result S) (xs : list A).

Lemma for_each_app xs ys body (s : S) :
  for_each (xs ++ ys) body s = s' ← for_each xs body s; for_each ys body s'.
Proof.
  revert s. induction xs as [|x xs IH]; intros s; simpl; [done|].
  destruct (body s x) as [s'|e]; simpl; [apply IH|done].
Qed.

Lemma for_each_cons x xs body (s : S) :
  for_each (x :: xs) body s = s' ← body s x; for_each xs body s'.
Proof. done. Qed.

(** A property kept by every pass that returns holds at the end. *)
Lemma for_each_preserves (P : S → Prop) xs body (s0 s : S) :
  P s0 →
  (∀ x s s', x ∈ xs → P s → body s x = Ok s' → P s') →
  for_each xs body s0 = Ok s → P s.
Proof.
  revert s0. induction xs as [|x xs IH]; intros s0 H0 Hstep; simpl.
  - by intros [= <-].
  - destruct (body s0 x) as [s1|e] eqn:Hb; simpl; [|done].
    apply IH.
    + apply (Hstep x s0); [apply elem_of_cons; by left|done|done].
    + intros y t t' Hy. apply Hstep, elem_of_cons. by right.
Qed.

End loop_facts.

(** A loop over [range(start, start + n)] whose passes all return, with an
    invariant indexed by the passes made. *)
Lemma for_each_seq {S : Type} (P : nat → S → Prop) (body : S → nat → result S)
    (start n : nat) (s0 : S) :
  P start s0 →
  (∀ c s, (start ≤ c < start + n)%nat → P c s →
     ∃ s', body s c = Ok s' ∧ P (Datatypes.S c) s') →
  ∃ s, for_each (seq start n) body s0 = Ok s ∧ P (start + n)%nat s.
Proof.
  revert start s0. induction n as [|n IH]; intros start s0 H0 Hstep; simpl.
  - exists s0. by rewrite Nat.add_0_r.
  - destruct (Hstep start s0) as (s1 & Hb & H1); [lia|done|].
    rewrite Hb. simpl.
    destruct (IH (Datatypes.S start) s1) as (s & Hs & HP); [done| |].
    + intros c s Hc. apply Hstep. lia.
    + exists s. split; [done|]. by rewrite Nat.add_succ_r.
Qed.

Section index_facts.
Context {A : Type}.
Implicit Types (l : list A).

Lemma py_index_nat (n c : nat) :
  (c < n)%nat → py_index n (Z.of_nat c) = Ok c.
Proof.
  intros Hc. unfold py_index.
  rewrite (bool_decide_eq_false_2 (Z.of_nat c < 0)) by lia.
  rewrite bool_decide_eq_true_2 by lia. by rewrite Nat2Z.id.
Qed.

Lemma py_getitem_nat l (c : nat) (x : A) :
  l !! c = Some x → py_getitem l (Z.of_nat c) = Ok x.
Proof.
  intros Hc. unfold py_getitem.
  rewrite py_index_nat by (by eapply lookup_lt_Some). simpl. by rewrite Hc.
Qed.

Lemma py_setitem_nat l (c : nat) (v : A) :
  (c < length l)%nat → py_setitem l (Z.of_nat c) v = Ok (<[c := v]> l).
Proof. intros Hc. unfold py_setitem. by rewrite py_index_nat. Qed.

(** What a subscript that is accepted reads and writes. *)
Lemma py_index_Ok (n : nat) (i : Z) (j : nat) :
  py_index n i = Ok j →
  (j < n)%nat ∧ (Z.of_nat j = i ∨ Z.of_nat j = i + Z.of_nat n ∧ i < 0).
Proof.
  unfold py_index. destruct (decide (i < 0)) as [Hneg|Hneg].
  - rewrite (bool_decide_eq_true_2 (i < 0)) by done.
    case_bool_decide; [|done]. intros [= <-]. split; lia.
  - rewrite (bool_decide_eq_false_2 (i < 0)) by done.
    case_bool_decide; [|done]. intros [= <-]. split; lia.
Qed.

End index_facts.

Section bool_props_facts.
Local Open Scope nat_scope.
Implicit Types (lists bprops : list (list nat)) (s : gset nat).

Lemma bool_props_find_spec s lists idx i :
  match bool_props_find s lists idx i with
  | (i', true) =>
      ∃ j l, i' = idx + j ∧ lists !! j = Some l ∧ s = list_to_set l
  | (i', false) =>
      (∀ j l, lists !! j = Some l → s ≠ list_to_set l) ∧
      (lists = [] → i' = i) ∧
      (lists ≠ [] → S i' = idx + length lists)
  end.
Proof.
  revert idx i. induction lists as [|l lists IH]; intros idx i; simpl.
  - split; [|done]. intros j l Hj. by rewrite lookup_nil in Hj.
  - case_decide as Heq.
    + exists 0, l. by rewrite Nat.add_0_r.
    + specialize (IH (S idx) idx).
      destruct (bool_props_find s lists (S idx) idx) as [i' [|]].
      * destruct IH as (j & l' & -> & Hj & Hs). exists (S j), l'.
        split; [lia|done].
      * destruct IH as (Hno & Hnil & Hlast). split; [|split; [done|]].
        -- intros [|j] l' Hj; simpl in Hj; [by injection Hj as <-|by apply (Hno j)].
        -- intros _. destruct lists as [|l' lists].
           ++ rewrite Hnil by done. simpl. lia.
           ++ rewrite <- Nat.add_succ_comm. by apply Hlast.
Qed.

Lemma bool_props_step_inv bprops n c st :
  length bprops = n → c < n → bool_props_inv bprops n c st →
  ∃ st', bool_props_step bprops st c = Ok st' ∧ bool_props_inv bprops n (S c) st'.
Proof.
  intros Hn Hc. destruct st as [[lists bool_props] i].
  intros (Hlen & H0 & Huniq & Hdone).
  destruct (lookup_lt_is_Some_2 bprops c) as [b Hb]; [lia|].
  unfold bool_props_step. rewrite (py_getitem_nat _ _ _ Hb). simpl.
  pose proof (bool_props_find_spec (list_to_set b) lists 0 i) as Hfind.
  destruct (bool_props_find (list_to_set b) lists 0 i) as [i' [|]].
  - destruct Hfind as (j & l & -> & Hj & Hs). simpl.
    rewrite py_setitem_nat by lia. simpl. eexists. split; [done|].
    split; [by rewrite length_insert|]. split; [done|]. split; [done|].
    intros c' b' Hc' Hb'. destruct (decide (c' = c)) as [->|Hne].
    + assert (b' = b) as -> by congruence. exists j, l.
      split; [by rewrite list_lookup_insert_eq by lia|]. by split.
    + destruct (Hdone c' b') as (k & l' & ? & ? & ?); [lia|done|].
      exists k, l'. by rewrite list_lookup_insert_ne.
  - destruct Hfind as (Hno & _ & Hlast).
    assert (Hne : lists ≠ []) by (intros ->; by rewrite lookup_nil in H0).
    specialize (Hlast Hne). rewrite Nat.add_0_l in Hlast. rewrite Hlast.
    rewrite py_setitem_nat by lia. simpl. eexists. split; [done|].
    split; [by rewrite length_insert|].
    split; [by rewrite lookup_app_l by (by eapply lookup_lt_Some)|].
    split.
    + intros j k l1 l2 Hj Hk Heq.
      apply lookup_app_Some in Hj as [Hj|[Hj1 Hj2]];
        apply lookup_app_Some in Hk as [Hk|[Hk1 Hk2]].
      * by apply (Huniq j k l1 l2).
      * apply list_lookup_singleton_Some in Hk2 as [_ <-].
        exfalso. by apply (Hno j l1).
      * apply list_lookup_singleton_Some in Hj2 as [_ <-].
        exfalso. by apply (Hno k l2).
      * apply list_lookup_singleton_Some in Hj2 as [? _].
        apply list_lookup_singleton_Some in Hk2 as [? _]. lia.
    + intros c' b' Hc' Hb'. destruct (decide (c' = c)) as [->|Hne'].
      * assert (b' = b) as -> by congruence. exists (length lists), b.
        split; [by rewrite list_lookup_insert_eq by lia|].
        split; [|done]. by rewrite lookup_app_r, Nat.sub_diag by lia.
      * destruct (Hdone c' b') as (k & l' & ? & Hk & ?); [lia|done|].
        exists k, l'. rewrite list_lookup_insert_ne by done.
        split; [done|]. split; [|done].
        by rewrite lookup_app_l by (by eapply lookup_lt_Some).
Qed.

End bool_props_facts.

Section read_table_facts.
Context {G D V : Type} `{EqDecision V}.
Local Open Scope nat_scope.

Lemma py_index_nat_Ok (n c j : nat) :
  py_index n (Z.of_nat c) = Ok j → j = c ∧ c < n.
Proof. intros Hj%py_index_Ok. lia. Qed.

Lemma fill_step_other (default_value value : V) (table table' : list V) (i : nat) :
  fill_step default_value value table i = Ok table' →
  length table' = length table ∧ ∀ c, c ≠ i → table' !! c = table !! c.
Proof.
  unfold fill_step, py_getitem, py_setitem.
  destruct (py_index (length table) (Z.of_nat i)) as [j|e] eqn:Hj; simpl; [|done].
  apply py_index_nat_Ok in Hj as [-> Hi].
  destruct (table !! i) as [v|]; simpl; [|done].
  case_decide; intros [= <-]; [|done].
  split; [apply length_insert|]. intros c Hc. by apply list_lookup_insert_ne.
Qed.

(** A position that no line covers keeps the default value. *)
Lemma read_table_default (n : nat) (get_value : G → D → result (G * V))
    (default_value : V) (lines : list (nat * nat * D)) (g g' : G)
    (table : list V) :
  read_table n get_value default_value lines g = Ok (g', table) →
  length table = n ∧
  ∀ c, c < n →
    (∀ char last data, (char, last, data) ∈ lines → ¬ (char ≤ c ≤ last)) →
    table !! c = Some default_value.
Proof.
  unfold read_table. intros Hread.
  apply (for_each_preserves
    (λ st : G * list V, length st.2 = n ∧
       ∀ c, c < n →
         (∀ char last data, (char, last, data) ∈ lines → ¬ (char ≤ c ≤ last)) →
         st.2 !! c = Some default_value)) in Hread; [done| |].
  - simpl. split; [apply length_replicate|].
    intros c Hc _. by apply lookup_replicate_2.
  - intros [[char last] data] [g1 t1] [g2 t2] Hln [Hlen Hdef]. simpl in *.
    unfold read_line. simpl.
    destruct (get_value g1 data) as [[g3 value]|e]; simpl; [|done].
    destruct (for_each (seq char (last + 1 - char))
                (fill_step default_value value) t1) as [t3|e] eqn:Hfill;
      simpl; [|done].
    intros [= <- <-].
    apply (for_each_preserves
      (λ t : list V, length t = n ∧
         ∀ c, c < n →
           (∀ char last data, (char, last, data) ∈ lines → ¬ (char ≤ c ≤ last)) →
           t !! c = Some default_value)) in Hfill; [done|done|].
    intros i t t' Hi [Hlen' Hdef'] Hstep.
    apply fill_step_other in Hstep as [Hl Ho]. split; [congruence|].
    intros c Hc Hun. rewrite Ho; [by apply Hdef'|].
    apply elem_of_seq in Hi. intros ->. apply (Hun char last data Hln). lia.
Qed.

End read_table_facts.

Section scriptx_facts.

Lemma get_script_extension_first (script_abbrevs : list string)
    (script_list_item_size : nat) (g g' : list (list nat) * string)
    (chardata1 : string) (v : Z) :
  get_script_extension script_abbrevs script_list_item_size g chardata1
    = Ok (g', v) →
  g.1 !! 0%nat = Some [] → g'.1 !! 0%nat = Some [].
Proof.
  destruct g as [script_lists last]. unfold get_script_extension.
  case_decide; [by intros [= <- _]|].
  destruct (map_result _ _) as [ids|e]; simpl; [|done].
  intros [= <- _] H0. simpl in *.
  by rewrite lookup_app_l by (by eapply lookup_lt_Some).
Qed.

(** A character that no line of the file names has offset 0 in [scriptx],
    the offset of the empty list that [script_lists] starts with. *)
Lemma make_scriptx_default (n : nat) (script_abbrevs : list string)
    (script_list_item_size : nat) (lines : list (nat * nat * string))
    (g : list (list nat) * string) (scriptx : list Z) :
  make_scriptx n script_abbrevs script_list_item_size lines = Ok (g, scriptx) →
  g.1 !! 0%nat = Some [] ∧ length scriptx = n ∧
  ∀ c, (c < n)%nat →
    (∀ char last data, (char, last, data) ∈ lines → ¬ (char ≤ c ≤ last)%nat) →
    scriptx !! c = Some 0.
Proof.
  intros Hmake. split; [|by eapply read_table_default].
  unfold make_scriptx, read_table in Hmake.
  apply (for_each_preserves
    (λ st : (list (list nat) * string) * list Z, st.1.1 !! 0%nat = Some []))
    in Hmake; [done|done|].
  intros [[char last] data] [g1 t1] [g2 t2] _ H0. unfold read_line. simpl in *.
  destruct (get_script_extension _ _ g1 data) as [[g3 v]|e] eqn:Hget;
    simpl; [|done].
  destruct (for_each _ _ t1) as [t3|e]; simpl; [|done].
  intros [= <- _]. by eapply get_script_extension_first.
Qed.

End scriptx_facts.

Section bool_props_dedup.
Local Open Scope nat_scope.

(** C6. Boolean properties: the index stamped on a character is that of a
    catalogue entry with the character's set of properties; two characters
    have the same index exactly when their sets are equal; no two entries of
    the catalogue have equal sets; entry 0 is the empty list, whether used or
    not, so a character without properties has index 0; and a character that
    the script extensions file does not name has script extension offset 0,
    the offset of the empty entry 0 of [script_lists]. *)
Theorem bool_props_full_dedup (n : nat) (bprops : list (list nat)) (i0 : nat) :
  length bprops = n →
  (∃ lists bool_props,
     make_bool_props n bprops i0 = Ok (lists, bool_props) ∧
     length bool_props = n ∧
     (∀ c b, bprops !! c = Some b →
        ∃ k l, bool_props !! c = Some k ∧ lists !! k = Some l ∧
          (list_to_set l : gset nat) = list_to_set b) ∧
     (∀ c1 c2 b1 b2 k1 k2,
        bprops !! c1 = Some b1 → bprops !! c2 = Some b2 →
        bool_props !! c1 = Some k1 → bool_props !! c2 = Some k2 →
        k1 = k2 ↔ (list_to_set b1 : gset nat) = list_to_set b2) ∧
     (∀ j k l1 l2, lists !! j = Some l1 → lists !! k = Some l2 →
        (list_to_set l1 : gset nat) = list_to_set l2 → j = k) ∧
     lists !! 0 = Some [] ∧
     (∀ c b, bprops !! c = Some b → (list_to_set b : gset nat) = ∅ →
        bool_props !! c = Some 0)) ∧
  (∀ script_abbrevs script_list_item_size lines g scriptx,
     make_scriptx n script_abbrevs script_list_item_size lines = Ok (g, scriptx) →
     g.1 !! 0 = Some [] ∧
     ∀ c, c < n →
       (∀ char last data, (char, last, data) ∈ lines → ¬ (char ≤ c ≤ last)) →
       scriptx !! c = Some 0%Z).
Proof.
  intros Hn. split.
  - destruct (for_each_seq (bool_props_inv bprops n) (bool_props_step bprops)
                0 n ([[]], replicate n 0, i0)) as ([[lists bool_props] i] & Hrun & Hinv).
    { split; [apply length_replicate|]. split; [done|]. split.
      - intros [|j] [|k] l1 l2 Hj Hk _; simpl in *; try done.
      - intros c' b Hc'. lia. }
    { intros c st Hc Hst.
      apply (bool_props_step_inv bprops n c st); [done|lia|done]. }
    destruct Hinv as (Hlen & H0 & Huniq & Hdone). simpl in Hdone.
    exists lists, bool_props. unfold make_bool_props. rewrite Hrun. simpl.
    assert (Hstamp : ∀ c b, bprops !! c = Some b →
              ∃ k l, bool_props !! c = Some k ∧ lists !! k = Some l ∧
                (list_to_set l : gset nat) = list_to_set b).
    { intros c b Hb. apply Hdone; [|done]. apply lookup_lt_Some in Hb. lia. }
    split; [done|]. split; [done|]. split; [done|]. split; [|split; [done|split; [done|]]].
    + intros c1 c2 b1 b2 k1 k2 Hb1 Hb2 Hk1 Hk2.
      destruct (Hstamp _ _ Hb1) as (k1' & l1 & Hk1' & Hl1 & Hs1).
      destruct (Hstamp _ _ Hb2) as (k2' & l2 & Hk2' & Hl2 & Hs2).
      assert (k1' = k1) as -> by congruence. assert (k2' = k2) as -> by congruence.
      split.
      * intros ->. congruence.
      * intros Heq. apply (Huniq k1 k2 l1 l2); congruence.
    + intros c b Hb Hempty.
      destruct (Hstamp _ _ Hb) as (k & l & Hk & Hl & Hs).
      rewrite Hk. f_equal. apply (Huniq k 0 l []); [done|done|].
      by rewrite Hs, Hempty.
  - intros script_abbrevs script_list_item_size lines g scriptx Hmake.
    destruct (make_scriptx_default _ _ _ _ _ _ Hmake) as (H0 & _ & Hdef).
    by split.
Qed.

End bool_props_dedup.

Section digit_facts.

(** With enough fuel the loop is [digit_run], whatever the fuel. *)
Lemma digit_loop_run (fuel : nat) (first last : Z) (digitsets : list Z) :
  (Z.to_nat ((last - first + 9) / 10) ≤ fuel)%nat →
  digit_loop fuel first last digitsets = digitsets ++ digit_run first last.
Proof.
  revert first digitsets. induction fuel as [|fuel IH]; intros first digitsets Hfuel.
  - simpl. unfold digit_run.
    assert (Z.to_nat ((last - first + 9) / 10) = 0%nat) as -> by lia.
    simpl. by rewrite app_nil_r.
  - simpl. unfold digit_run. case_bool_decide as Hlt.
    + assert (Hdiv : (last - first + 9) / 10 = (last - (first + 10) + 9) / 10 + 1).
      { rewrite <- Z.div_add by lia. f_equal. lia. }
      assert (Hpos : 0 ≤ (last - (first + 10) + 9) / 10)
        by (apply Z.div_pos; lia).
      rewrite IH by lia. unfold digit_run.
      rewrite Hdiv, Z2Nat.inj_add, Nat.add_comm by lia. simpl.
      rewrite <- app_assoc. simpl. f_equal. f_equal; [lia|].
      rewrite <- fmap_S_seq, <- list_fmap_compose. apply list_fmap_ext.
      intros _ j _. simpl. lia.
    + assert ((last - first + 9) / 10 ≤ 0).
      { apply Z.lt_succ_r, Z.div_lt_upper_bound; lia. }
      assert (Z.to_nat ((last - first + 9) / 10) = 0%nat) as -> by lia.
      simpl. by rewrite app_nil_r.
Qed.

(** The fuel that [digit_range] gives is enough. *)
Lemma digit_range_fuel (first last : Z) :
  (Z.to_nat ((last - first + 9) / 10) ≤ Z.to_nat (last - first))%nat.
Proof.
  destruct (decide (first < last)) as [Hlt|Hge].
  - apply Z2Nat.inj_le; [apply Z.div_pos; lia|lia|].
    apply Z.lt_succ_r, Z.div_lt_upper_bound; lia.
  - assert ((last - first + 9) / 10 ≤ 0)
      by (apply Z.lt_succ_r, Z.div_lt_upper_bound; lia).
    lia.
Qed.

Lemma digit_range_Ok (digitsets : list Z) (first last : Z) :
  (last - first + 1) `mod` 10 = 0 →
  digit_range digitsets (first, last) = Ok (digitsets ++ digit_run first last).
Proof.
  intros Hmod. unfold digit_range. rewrite bool_decide_eq_false_2 by lia.
  rewrite bind_Ok. f_equal. apply digit_loop_run, digit_range_fuel.
Qed.

Lemma digit_ranges_Ok (ranges : list (Z * Z)) (digitsets : list Z) :
  (∀ first last, (first, last) ∈ ranges → (last - first + 1) `mod` 10 = 0) →
  for_each ranges digit_range digitsets =
  Ok (digitsets ++ concat ((λ r, digit_run r.1 r.2) <$> ranges)).
Proof.
  revert digitsets. induction ranges as [|[first last] ranges IH];
    intros digitsets Hall.
  - simpl. by rewrite app_nil_r.
  - rewrite for_each_cons.
    rewrite digit_range_Ok by (apply Hall, elem_of_cons; by left). simpl.
    rewrite IH, app_assoc; [done|].
    intros f l Hin. apply Hall, elem_of_cons. by right.
Qed.

(** A range whose length is not a multiple of ten stops the run: nothing but
    TypeError can come out of the loop. *)
Lemma digit_ranges_Raise (ranges : list (Z * Z)) (digitsets : list Z)
    (first last : Z) :
  (first, last) ∈ ranges → (last - first + 1) `mod` 10 ≠ 0 →
  for_each ranges digit_range digitsets = Raise TypeError.
Proof.
  revert digitsets. induction ranges as [|[f l] ranges IH];
    intros digitsets Hin Hmod.
  - by apply elem_of_nil in Hin.
  - rewrite for_each_cons.
    destruct (decide ((l - f + 1) `mod` 10 = 0)) as [Hok|Hbad].
    + rewrite digit_range_Ok by done. simpl.
      apply elem_of_cons in Hin as [[= <- <-]|Hin]; [done|]. by apply IH.
    + unfold digit_range. by rewrite bool_decide_eq_true_2.
Qed.

(** C7, as amended.  Digit sets: when the length of every declared range is
    a multiple of ten, each range gives one value per step of ten from its
    first character, the start of the step plus 9; the values of all ranges
    are put together and sorted in ascending order; for the single range
    [0x30, 0x43], of 20 characters, the result is [0x39, 0x43]. *)
Theorem make_digitsets_runs (ranges : list (Z * Z)) :
  (∀ first last, (first, last) ∈ ranges → (last - first + 1) `mod` 10 = 0) →
  ∃ digitsets,
    make_digitsets ranges = Ok digitsets ∧
    digitsets = py_sorted id (concat ((λ r, digit_run r.1 r.2) <$> ranges)) ∧
    digitsets ≡ₚ concat ((λ r, digit_run r.1 r.2) <$> ranges) ∧
    Sorted Z.le digitsets ∧
    (∀ first last, (first, last) ∈ ranges →
       length (digit_run first last) = Z.to_nat ((last - first + 1) / 10) ∧
       ∀ j, (j < length (digit_run first last))%nat →
         digit_run first last !! j = Some (first + 10 * Z.of_nat j + 9)) ∧
    make_digitsets [(0x30, 0x43)] = Ok [0x39; 0x43].
Proof.
  intros Hall. eexists. split; [|split; [reflexivity|]].
  - unfold make_digitsets. rewrite digit_ranges_Ok by done. done.
  - split; [apply py_sorted_perm|]. split; [apply (py_sorted_sorted id)|].
    split; [|by vm_compute].
    intros first last Hin. specialize (Hall _ _ Hin).
    assert (Hk : (last - first + 9) / 10 = (last - first + 1) / 10).
    { apply Z.mod_divide in Hall as [m Hm]; [|lia].
      replace (last - first + 9) with (8 + m * 10) by lia.
      rewrite Hm, Z.div_add, Z.div_mul by lia. done. }
    unfold digit_run. rewrite length_fmap, length_seq, Hk. split; [done|].
    intros j Hj. rewrite list_lookup_fmap, lookup_seq_lt by done. simpl.
    f_equal. lia.
Qed.

(** The example of the claim as it stands: [0x30, 0x49] has 26 characters,
    not 20; the run stops on it, and the loop alone would give three values
    for it. *)
Lemma make_digitsets_0x30_0x49 :
  0x49 - 0x30 + 1 = 26 ∧
  make_digitsets [(0x30, 0x49)] ≠ Ok [0x39; 0x43] ∧
  py_sorted id (digit_loop (Z.to_nat (0x49 - 0x30)) 0x30 0x49 [])
    = [0x39; 0x43; 0x4d].
Proof. split; [done|]. split; [by vm_compute|by vm_compute]. Qed.

(** C9. Data consistency: a declared range of digits whose length is not a
    multiple of ten does not leave a warning behind: the call that should
    report it raises TypeError, and no digit set comes out of the run. *)
Theorem digit_range_warning_aborts :
  make_digitsets [(0x660, 0x669); (0x30, 0x3a)] = Raise TypeError ∧
  ∀ ranges first last,
    (first, last) ∈ ranges → (last - first + 1) `mod` 10 ≠ 0 →
    make_digitsets ranges = Raise TypeError.
Proof.
  split; [by vm_compute|]. intros ranges first last Hin Hmod.
  unfold make_digitsets. by rewrite (digit_ranges_Raise _ _ first last).
Qed.

End digit_facts.

Section repair_facts.
Variables (n : nat) (other_case0 : list Z).
Hypothesis Hfold : fold_idempotent n other_case0.

Lemma repaired_start : repaired_upto other_case0 0 other_case0.
Proof.
  split; [done|]. split; [done|]. split; [by left|]. intros; lia.
Qed.

Lemma repair_step_inv (c : nat) (other_case : list Z) :
  (c < n)%nat → repaired_upto other_case0 c other_case →
  ∃ other_case', repair_step other_case c = Ok other_case' ∧
    repaired_upto other_case0 (S c) other_case'.
Proof.
  destruct Hfold as [Hn Htarget].
  intros Hc (Hlen & Hsrc & Hzero & Hvisited).
  destruct (lookup_lt_is_Some_2 other_case0 c) as [d0 Hd0]; [lia|].
  unfold repair_step.
  destruct (decide (d0 = 0)) as [->|Hd0nz].
  - destruct (Hzero c Hd0) as [Hz|(m & dm & Hm & Hdm & Hmo & Hz)].
    + rewrite (py_getitem_nat _ _ _ Hz). rewrite bind_Ok.
      rewrite bool_decide_eq_false_2 by (intros ?; done).
      eexists. split; [done|]. split; [done|]. split; [done|]. split; [done|].
      intros c' d o Hc' Hd Hdnz Ho.
      destruct (decide (c' = c)) as [->|Hne]; [congruence|].
      apply (Hvisited c' d o); [lia|done..].
    + rewrite (py_getitem_nat _ _ _ Hz). rewrite bind_Ok.
      rewrite bool_decide_eq_true_2 by lia.
      replace (Z.of_nat c + - dm) with (Z.of_nat m) by lia.
      rewrite (py_getitem_nat _ _ _ (Hsrc m dm Hm Hdm)). rewrite bind_Ok.
      rewrite bool_decide_eq_false_2 by done.
      eexists. split; [done|]. split; [done|]. split; [done|]. split; [done|].
      intros c' d o Hc' Hd Hdnz Ho.
      destruct (decide (c' = c)) as [->|Hne]; [congruence|].
      apply (Hvisited c' d o); [lia|done..].
  - destruct (Htarget c d0 Hd0 Hd0nz) as (o & Ho & Hoz).
    rewrite (py_getitem_nat _ _ _ (Hsrc c d0 Hd0 Hd0nz)). rewrite bind_Ok.
    rewrite bool_decide_eq_true_2 by done. rewrite <- Ho.
    assert (Hon : (o < length other_case)%nat).
    { rewrite Hlen. by eapply lookup_lt_Some. }
    destruct (Hzero o Hoz) as [Hz|(m & dm & Hm & Hdm & Hmo & Hz)].
    + rewrite (py_getitem_nat _ _ _ Hz). rewrite bind_Ok.
      rewrite bool_decide_eq_true_2 by done.
      rewrite py_setitem_nat by done.
      eexists. split; [done|].
      split; [by rewrite length_insert|]. split; [|split].
      * intros c' d Hd Hdnz. rewrite list_lookup_insert_ne; [by apply Hsrc|].
        intros ->. congruence.
      * intros o' Ho'. destruct (decide (o' = o)) as [->|Hne].
        -- right. exists c, d0. rewrite list_lookup_insert_eq by done.
           repeat split; try done; lia.
        -- rewrite list_lookup_insert_ne by done. by apply Hzero.
      * intros c' d o' Hc' Hd Hdnz Ho'.
        destruct (decide (o' = o)) as [->|Hne].
        -- rewrite list_lookup_insert_eq by done. intros [= ?]. lia.
        -- rewrite list_lookup_insert_ne by done.
           destruct (decide (c' = c)) as [->|Hnec].
           ++ exfalso. apply Hne. rewrite Hd0 in Hd. injection Hd as <-. lia.
           ++ apply (Hvisited c' d o'); [lia|done..].
    + rewrite (py_getitem_nat _ _ _ Hz). rewrite bind_Ok.
      rewrite bool_decide_eq_false_2 by lia.
      eexists. split; [done|]. split; [done|]. split; [done|]. split; [done|].
      intros c' d o' Hc' Hd Hdnz Ho'.
      destruct (decide (c' = c)) as [->|Hnec].
      * rewrite Hd0 in Hd. injection Hd as <-.
        assert (o' = o) as -> by lia. rewrite Hz. intros [= ?]. lia.
      * apply (Hvisited c' d o'); [lia|done..].
Qed.

(** The first pass returns, with every pair closed on the side of the
    character folded to. *)
Lemma repair_pass :
  ∃ other_case, for_each (seq 0 n) repair_step other_case0 = Ok other_case ∧
    repaired_upto other_case0 n other_case.
Proof.
  destruct (for_each_seq (repaired_upto other_case0) repair_step 0 n other_case0)
    as (oc & Hrun & Hinv).
  - apply repaired_start.
  - intros c oc Hc Hoc. apply repair_step_inv; [lia|done].
  - by exists oc.
Qed.

End repair_facts.

Section unite_facts.

Lemma find_one_spec (s : list Z) (y : Z) (found : bool) :
  find_one s y found = true ↔ found = true ∨ y ∈ s.
Proof.
  unfold find_one. revert found. induction s as [|x s IH]; intros found; simpl.
  - rewrite elem_of_nil. tauto.
  - rewrite IH, elem_of_cons. case_bool_decide; subst; intuition congruence.
Qed.

Lemma find_any_spec (s : list Z) (c o t : Z) (found : bool) :
  find_any s c o t found = true ↔ found = true ∨ c ∈ s ∨ o ∈ s ∨ t ∈ s.
Proof.
  unfold find_any. revert found. induction s as [|x s IH]; intros found; simpl.
  - rewrite !elem_of_nil. tauto.
  - rewrite IH, !elem_of_cons. case_bool_decide as Hx.
    + destruct Hx as [-> | [-> | ->]]; tauto.
    + intuition congruence.
Qed.

(** The loop over [c, o, t] only appends, and only what is not there. *)
Lemma add_fold_spec (ys : list Z) (found : bool) (s : list Z) :
  NoDup s →
  NoDup (foldl add_step (found, s) ys).2 ∧
  (∀ x, x ∈ s → x ∈ (foldl add_step (found, s) ys).2) ∧
  (∀ x, x ∈ (foldl add_step (found, s) ys).2 → x ∈ s ∨ x ∈ ys).
Proof.
  revert found s. induction ys as [|y ys IH]; intros found s Hnd; simpl.
  - split; [done|]. split; [done|]. intros x Hx. by left.
  - destruct (find_one s y found) eqn:Hf.
    + destruct (IH true s Hnd) as (H1 & H2 & H3).
      split; [done|]. split; [done|].
      intros x Hx. destruct (H3 x Hx); [by left|]. right. apply elem_of_cons. by right.
    + assert (Hy : y ∉ s).
      { intros Hin. assert (find_one s y found = true) by (apply find_one_spec; by right).
        congruence. }
      destruct (IH false (s ++ [y])) as (H1 & H2 & H3).
      { apply NoDup_app. split; [done|]. split; [|apply NoDup_singleton].
        intros x Hx [->|[]%elem_of_nil]%elem_of_cons. done. }
      split; [done|]. split.
      * intros x Hx. apply H2, elem_of_app. by left.
      * intros x Hx. destruct (H3 x Hx) as [[?|Hxy]%elem_of_app|?].
        -- by left.
        -- right. apply list_elem_of_singleton in Hxy as ->. apply elem_of_cons. by left.
        -- right. apply elem_of_cons. by right.
Qed.

Lemma unite_step_eq (c o t : Z) (visited : list (list Z)) (appended : bool)
    (s : list Z) :
  unite_step c o t (visited, appended) s =
  if find_any s c o t false
  then (visited ++ [(foldl add_step (false, s) [c; o; t]).2], true)
  else (visited ++ [s], appended).
Proof. done. Qed.

End unite_facts.

Section scan_facts.
Variables (n : nat) (other_case0 other_case : list Z).
Hypothesis Hfold : fold_idempotent n other_case0.
Hypothesis Hrep : repaired_upto other_case0 n other_case.

Lemma class_of_unique (x : Z) (o1 o2 : nat) :
  class_of other_case0 x o1 → class_of other_case0 x o2 → o1 = o2.
Proof.
  intros (c1 & d1 & -> & Hd1 & Ho1) (c2 & d2 & Heq & Hd2 & Ho2).
  apply Nat2Z.inj in Heq as <-. rewrite Hd1 in Hd2. injection Hd2 as <-. lia.
Qed.

(** The loop over the sets: a set is touched only if it is the set of the
    character that [c], [o] and [t] fold to, and it stays that set. *)
Lemma unite_fold (c o t : Z) (ot : nat) (sets : list (list Z))
    (targets : list nat) (visited : list (list Z)) (appended : bool) :
  o = Z.of_nat ot →
  class_of other_case0 c ot → class_of other_case0 o ot →
  class_of other_case0 t ot →
  Forall2 (set_of_target other_case0) sets targets →
  ∃ sets',
    foldl (unite_step c o t) (visited, appended) sets =
      (visited ++ sets', appended || bool_decide (ot ∈ targets)) ∧
    Forall2 (set_of_target other_case0) sets' targets.
Proof.
  intros Ho Hc Hoo Ht Hall. revert visited appended.
  induction Hall as [|s os sets targets Hs Hall IH]; intros visited appended.
  - exists []. simpl. rewrite app_nil_r, orb_false_r. split; [done|constructor].
  - cbn [foldl]. rewrite unite_step_eq. destruct Hs as (Hos & Hin & Hnd & Hcls).
    destruct (decide (os = ot)) as [->|Hne].
    + assert (Hfound : find_any s c o t false = true).
      { apply find_any_spec. right. right. left. by rewrite Ho. }
      rewrite Hfound.
      destruct (add_fold_spec [c; o; t] false s Hnd) as (H1 & H2 & H3).
      destruct (IH (visited ++ [(foldl add_step (false, s) [c; o; t]).2]) true)
        as (sets' & Hrun & Hsets').
      exists ((foldl add_step (false, s) [c; o; t]).2 :: sets').
      split.
      * rewrite Hrun, <- app_assoc. simpl. f_equal.
        rewrite bool_decide_eq_true_2 by (apply elem_of_cons; by left).
        by rewrite orb_true_r.
      * constructor; [|done]. split; [done|]. split; [by apply H2|].
        split; [done|]. intros x Hx. destruct (H3 x Hx) as [?|Hx'].
        -- by apply Hcls.
        -- apply elem_of_cons in Hx' as [->|Hx']; [done|].
           apply elem_of_cons in Hx' as [->|Hx']; [done|].
           apply list_elem_of_singleton in Hx' as ->. done.
    + assert (Hfound : find_any s c o t false = false).
      { apply not_true_is_false. intros Hf. apply find_any_spec in Hf.
        destruct Hf as [?|[Hx|[Hx|Hx]]]; [done|..];
          apply Hcls in Hx; apply Hne; by eapply class_of_unique. }
      rewrite Hfound.
      destruct (IH (visited ++ [s]) appended) as (sets' & Hrun & Hsets').
      exists (s :: sets'). split.
      * rewrite Hrun, <- app_assoc. simpl. f_equal. f_equal.
        apply bool_decide_ext. rewrite elem_of_cons. split; [by right|].
        intros [-> | ?]; done.
      * constructor; [|done]. by repeat split.
Qed.

Lemma scan_step_inv (c : nat) (sets : list (list Z)) :
  (c < n)%nat → sets_inv other_case0 sets →
  ∃ sets', scan_step other_case sets c = Ok sets' ∧ sets_inv other_case0 sets'.
Proof.
  destruct Hfold as [Hn Htarget].
  destruct Hrep as (Hlen & Hsrc & Hzero & Hvisited).
  intros Hc Hsets.
  destruct (lookup_lt_is_Some_2 other_case0 c) as [d0 Hd0]; [lia|].
  unfold scan_step.
  destruct (decide (d0 = 0)) as [->|Hd0nz].
  - destruct (Hzero c Hd0) as [Hz|(m & dm & Hm & Hdm & Hmo & Hz)].
    + rewrite (py_getitem_nat _ _ _ Hz), bind_Ok. cbv zeta.
      rewrite Z.add_0_r, (py_getitem_nat _ _ _ Hz), bind_Ok.
      rewrite bool_decide_eq_false_2 by (intros ?; done). by exists sets.
    + rewrite (py_getitem_nat _ _ _ Hz), bind_Ok. cbv zeta.
      replace (Z.of_nat c + - dm) with (Z.of_nat m) by lia.
      rewrite (py_getitem_nat _ _ _ (Hsrc m dm Hm Hdm)), bind_Ok.
      rewrite bool_decide_eq_false_2 by lia. by exists sets.
  - destruct (Htarget c d0 Hd0 Hd0nz) as (o & Ho & Hoz).
    rewrite (py_getitem_nat _ _ _ (Hsrc c d0 Hd0 Hd0nz)), bind_Ok. cbv zeta.
    rewrite <- Ho.
    destruct (Hzero o Hoz) as [Hz|(m & dm & Hm & Hdm & Hmo & Hz)].
    { exfalso. by apply (Hvisited c d0 o). }
    rewrite (py_getitem_nat _ _ _ Hz), bind_Ok.
    destruct (decide (dm = d0)) as [->|Hne].
    { rewrite bool_decide_eq_false_2 by lia. by exists sets. }
    rewrite bool_decide_eq_true_2 by lia.
    replace (Z.of_nat o + - dm) with (Z.of_nat m) by lia.
    destruct Hsets as (targets & Hnd & Hall).
    assert (Hcc : class_of other_case0 (Z.of_nat c) o)
      by (exists c, d0; repeat split; try done; lia).
    assert (Hco : class_of other_case0 (Z.of_nat o) o)
      by (exists o, 0; repeat split; try done; lia).
    assert (Hcm : class_of other_case0 (Z.of_nat m) o)
      by (exists m, dm; repeat split; try done; lia).
    destruct (unite_fold (Z.of_nat c) (Z.of_nat o) (Z.of_nat m) o sets targets
                [] false eq_refl Hcc Hco Hcm Hall) as (sets' & Hrun & Hall').
    rewrite Hrun. simpl. case_bool_decide as Hin.
    + exists sets'. split; [done|]. by exists targets.
    + eexists. split; [done|]. exists (targets ++ [o]). split.
      * apply NoDup_app. split; [done|]. split; [|apply NoDup_singleton].
        intros x Hx [->|[]%elem_of_nil]%elem_of_cons. done.
      * apply Forall2_app; [done|]. constructor; [|constructor].
        split; [done|]. split; [apply elem_of_cons; right; apply elem_of_cons; by left|].
        split.
        -- repeat constructor; rewrite ?elem_of_cons, ?elem_of_nil; lia.
        -- intros x [->|[->|[->|[]%elem_of_nil]%elem_of_cons]%elem_of_cons]%elem_of_cons;
             done.
Qed.

(** The second pass returns, with sets that keep [sets_inv]. *)
Lemma scan_pass :
  ∃ sets, for_each (seq 0 n) (scan_step other_case) [] = Ok sets ∧
    sets_inv other_case0 sets.
Proof.
  destruct (for_each_seq (λ _, sets_inv other_case0) (scan_step other_case) 0 n [])
    as (sets & Hrun & Hinv).
  - exists []. split; constructor.
  - intros c sets Hc Hsets. apply scan_step_inv; [lia|done].
  - by exists sets.
Qed.

End scan_facts.

(** A loop over a list whose passes all return, with an invariant indexed by
    the passes made. *)
Lemma for_each_indexed {S A : Type} (P : nat → S → Prop)
    (body : S → A → result S) (xs : list A) (s0 : S) :
  P 0%nat s0 →
  (∀ k x s, xs !! k = Some x → P k s →
     ∃ s', body s x = Ok s' ∧ P (Datatypes.S k) s') →
  ∃ s, for_each xs body s0 = Ok s ∧ P (length xs) s.
Proof.
  revert P s0. induction xs as [|x xs IH]; intros P s0 H0 Hstep.
  - by exists s0.
  - destruct (Hstep 0%nat x s0) as (s1 & Hb & H1); [done|done|].
    rewrite for_each_cons, Hb, bind_Ok.
    destruct (IH (λ k, P (Datatypes.S k)) s1) as (s & Hs & HP); [done| |].
    + intros k y s Hk. by apply (Hstep (Datatypes.S k)).
    + by exists s.
Qed.

Section sets_facts.
Variables (n : nat) (other_case0 other_case : list Z).
Hypothesis Hfold : fold_idempotent n other_case0.
Hypothesis Hrep : repaired_upto other_case0 n other_case.

Lemma sets_inv_lookup (sets : list (list Z)) (targets : list nat) (k : nat)
    (s : list Z) :
  Forall2 (set_of_target other_case0) sets targets → sets !! k = Some s →
  ∃ o, targets !! k = Some o ∧ set_of_target other_case0 s o.
Proof. intros Hall Hk. by apply (Forall2_lookup_l _ _ _ _ _ Hall Hk). Qed.

Lemma sets_inv_disjoint (sets : list (list Z)) :
  sets_inv other_case0 sets → pairwise_disjoint sets.
Proof.
  intros (targets & Hnd & Hall) j k s1 s2 x Hj Hk Hx1 Hx2.
  destruct (sets_inv_lookup _ _ _ _ Hall Hj) as (o1 & Ho1 & _ & _ & _ & Hc1).
  destruct (sets_inv_lookup _ _ _ _ Hall Hk) as (o2 & Ho2 & _ & _ & _ & Hc2).
  assert (o1 = o2) as -> by (eapply class_of_unique; eauto).
  by eapply NoDup_lookup.
Qed.

Lemma sets_inv_range (sets : list (list Z)) (s : list Z) (x : Z) :
  sets_inv other_case0 sets → s ∈ sets → x ∈ s →
  ∃ cx : nat, x = Z.of_nat cx ∧ (cx < n)%nat.
Proof.
  intros (targets & _ & Hall) [k Hk]%list_elem_of_lookup_1 Hx.
  destruct (sets_inv_lookup _ _ _ _ Hall Hk) as (o & _ & _ & _ & _ & Hc).
  destruct (Hc x Hx) as (cx & d & -> & Hd & _). exists cx. split; [done|].
  destruct Hfold as [<- _]. by eapply lookup_lt_Some.
Qed.

(** A member of a set is the character the set folds to, or one hop away
    from it. *)
Lemma class_of_hop (x : Z) (o : nat) :
  class_of other_case0 x o → x = Z.of_nat o ∨ hop other_case x (Z.of_nat o).
Proof.
  destruct Hrep as (_ & Hsrc & _).
  intros (cx & d & -> & Hd & Ho).
  destruct (decide (d = 0)) as [->|Hnz]; [left; lia|].
  right. exists d. rewrite Nat2Z.id. repeat split; try done; try lia.
  by apply Hsrc.
Qed.

Lemma sets_inv_two_hops (sets : list (list Z)) (s : list Z) (x y : Z) :
  sets_inv other_case0 sets → s ∈ sets → x ∈ s → y ∈ s →
  within_two_hops other_case x y.
Proof.
  intros (targets & _ & Hall) [k Hk]%list_elem_of_lookup_1 Hx Hy.
  destruct (sets_inv_lookup _ _ _ _ Hall Hk) as (o & _ & _ & _ & _ & Hc).
  destruct (class_of_hop x o (Hc x Hx)) as [->|Hxo];
    destruct (class_of_hop y o (Hc y Hy)) as [->|Hyo].
  - by left.
  - right. left. by right.
  - right. left. by left.
  - right. right. exists (Z.of_nat o). split; [by left|by right].
Qed.

(** Every set has a character that each member is, or is one hop away
    from. *)
Lemma sets_inv_hub (sets : list (list Z)) (s : list Z) :
  sets_inv other_case0 sets → s ∈ sets →
  ∃ o : nat, ∀ x, x ∈ s → x = Z.of_nat o ∨ hop other_case x (Z.of_nat o).
Proof.
  intros (targets & _ & Hall) [k Hk]%list_elem_of_lookup_1.
  destruct (sets_inv_lookup _ _ _ _ Hall Hk) as (o & _ & _ & _ & _ & Hc).
  exists o. intros x Hx. by apply class_of_hop, Hc.
Qed.

End sets_facts.

Section offsets_facts.

Lemma offsets_inner (n : nat) (s : list Z) (offset : Z) (co : list Z) :
  length co = n →
  (∀ x, x ∈ s → ∃ cx : nat, x = Z.of_nat cx ∧ (cx < n)%nat) →
  ∃ co', for_each s (λ co x, py_setitem co x offset) co = Ok co' ∧
    length co' = n ∧
    (∀ x, x ∈ s → co' !! Z.to_nat x = Some offset) ∧
    (∀ cx : nat, Z.of_nat cx ∉ s → co' !! cx = co !! cx).
Proof.
  revert co. induction s as [|x s IH]; intros co Hlen Hrange.
  - exists co. split; [done|]. split; [done|]. split; [|done].
    intros x Hx. by apply elem_of_nil in Hx.
  - destruct (Hrange x) as (cx & -> & Hcx); [apply elem_of_cons; by left|].
    rewrite for_each_cons, py_setitem_nat, bind_Ok by lia.
    destruct (IH (<[cx := offset]> co)) as (co' & Hrun & Hlen' & Hin & Hout).
    { by rewrite length_insert. }
    { intros y Hy. apply Hrange, elem_of_cons. by right. }
    exists co'. split; [done|]. split; [done|]. split.
    + intros y [->|Hy]%elem_of_cons; [|by apply Hin].
      destruct (decide (Z.of_nat cx ∈ s)) as [Hcs|Hcs]; [by apply Hin|].
      rewrite Nat2Z.id, Hout by done. apply list_lookup_insert_eq. lia.
    + intros cy Hcy. apply not_elem_of_cons in Hcy as [Hne Hcy].
      rewrite Hout by done. apply list_lookup_insert_ne. lia.
Qed.

Lemma set_offset_S (sets : list (list Z)) (k : nat) (s : list Z) :
  sets !! k = Some s →
  set_offset sets (S k) = set_offset sets k + Z.of_nat (length s) + 1.
Proof.
  intros Hk. unfold set_offset.
  by rewrite (take_S_r _ _ _ Hk), foldl_app.
Qed.

(** Every member of a set has the offset of the set, when no character is
    in two sets and all are within the table. *)
Lemma make_caseless_offsets_spec (n : nat) (sets : list (list Z)) :
  pairwise_disjoint sets →
  (∀ s x, s ∈ sets → x ∈ s → ∃ cx : nat, x = Z.of_nat cx ∧ (cx < n)%nat) →
  ∃ caseless_offsets,
    make_caseless_offsets n sets = Ok caseless_offsets ∧
    length caseless_offsets = n ∧
    ∀ k s x, sets !! k = Some s → x ∈ s →
      caseless_offsets !! Z.to_nat x = Some (set_offset sets k).
Proof.
  intros Hdisj Hrange.
  destruct (for_each_indexed
    (λ k (st : list Z * Z),
       st.2 = set_offset sets k ∧ length st.1 = n ∧
       ∀ j s x, (j < k)%nat → sets !! j = Some s → x ∈ s →
         st.1 !! Z.to_nat x = Some (set_offset sets j))
    offsets_step sets (replicate n 0, 1)) as ([co off] & Hrun & Hinv).
  - simpl. split; [done|]. split; [apply length_replicate|]. intros; lia.
  - intros k s [co off] Hk (Hoff & Hlen & Hdone). simpl in *.
    destruct (offsets_inner n s off co Hlen) as (co' & Hinner & Hlen' & Hin & Hout).
    { intros x Hx. apply (Hrange s); [by eapply list_elem_of_lookup_2|done]. }
    unfold offsets_step. rewrite Hinner, bind_Ok.
    eexists. split; [done|]. simpl.
    split; [rewrite (set_offset_S _ _ _ Hk); lia|]. split; [done|].
    intros j s' x Hj Hs' Hx. destruct (decide (j = k)) as [->|Hne].
    + rewrite Hk in Hs'. injection Hs' as <-. rewrite Hoff in Hin. by apply Hin.
    + destruct (Hrange s' x) as (cx & -> & Hcx);
        [by eapply list_elem_of_lookup_2|done|].
      rewrite Nat2Z.id, Hout.
      * rewrite <- (Nat2Z.id cx). apply (Hdone j s'); [lia|done|done].
      * intros Hxs. apply Hne. by apply (Hdisj j k s' s (Z.of_nat cx)).
  - destruct Hinv as (_ & Hlen & Hdone). simpl in *.
    exists co. unfold make_caseless_offsets. rewrite Hrun, bind_Ok. simpl.
    split; [done|]. split; [done|].
    intros k s x Hk Hx. apply (Hdone k s x); [by eapply lookup_lt_Some|done|done].
Qed.

Lemma set_offset_length (sets : list (list Z)) (k : nat) :
  set_offset sets k =
  Z.of_nat (S (length (concat ((λ s, py_sorted id s ++ [NOTACHAR]) <$> take k sets)))).
Proof.
  unfold set_offset.
  assert (Hgen : ∀ (l : list (list Z)) (a : Z),
            foldl (λ off s, off + Z.of_nat (length s) + 1) a l =
            a + Z.of_nat (length (concat ((λ s, py_sorted id s ++ [NOTACHAR]) <$> l)))).
  { induction l as [|s l IH]; intros a; [simpl; lia|].
    cbn [foldl]. rewrite IH, fmap_cons. cbn [concat].
    rewrite !length_app, (Permutation_length (py_sorted_perm id s)).
    cbn [length]. lia. }
  rewrite Hgen. lia.
Qed.

(** At the offset of a set the table has its members in ascending order and
    then NOTACHAR. *)
Lemma write_caseless_sets_run (sets : list (list Z)) (k : nat) (s : list Z) :
  sets !! k = Some s →
  take (length s) (drop (Z.to_nat (set_offset sets k)) (write_caseless_sets sets))
    = py_sorted id s ∧
  write_caseless_sets sets !! (Z.to_nat (set_offset sets k) + length s)%nat
    = Some NOTACHAR.
Proof.
  intros Hk. rewrite set_offset_length, Nat2Z.id. unfold write_caseless_sets.
  rewrite <- (take_drop k sets) at 2 4.
  rewrite fmap_app, concat_app, (drop_S _ _ _ Hk). simpl.
  assert (Hlen : length (py_sorted id s) = length s)
    by apply (Permutation_length (py_sorted_perm id s)).
  split.
  - rewrite drop_app_length, <- app_assoc.
    rewrite <- Hlen. apply take_app_length.
  - rewrite lookup_app_r by lia.
    rewrite Nat.add_comm, Nat.add_sub, <- app_assoc, lookup_app_r by lia.
    by rewrite Hlen, Nat.sub_diag.
Qed.

End offsets_facts.

Section caseless_soundness.

(** C4, as amended.  Caseless sets over idempotent case folding: the run
    returns; no character is in two sets; a member of a set is the character
    the set folds to or one hop of the repaired [other_case] away from it,
    so two members are joined by at most two hops taken in either direction;
    no set has a member twice; and at the offset of a set, which is the
    offset stamped on each of its members, the table has the members of the
    set in ascending order and then NOTACHAR. *)
Theorem caseless_sets_sound (n : nat) (other_case0 : list Z) :
  fold_idempotent n other_case0 →
  ∃ other_case sets caseless_offsets table,
    caseless n other_case0 = Ok (other_case, sets, caseless_offsets, table) ∧
    pairwise_disjoint sets ∧
    (∀ s x y, s ∈ sets → x ∈ s → y ∈ s → within_two_hops other_case x y) ∧
    (∀ s, s ∈ sets →
       ∃ o : nat, ∀ x, x ∈ s → x = Z.of_nat o ∨ hop other_case x (Z.of_nat o)) ∧
    table !! 0%nat = Some NOTACHAR ∧
    ∀ k s, sets !! k = Some s →
      NoDup s ∧
      py_sorted id s ≡ₚ s ∧ Sorted Z.le (py_sorted id s) ∧
      take (length s) (drop (Z.to_nat (set_offset sets k)) table)
        = py_sorted id s ∧
      table !! (Z.to_nat (set_offset sets k) + length s)%nat = Some NOTACHAR ∧
      ∀ x, x ∈ s → caseless_offsets !! Z.to_nat x = Some (set_offset sets k).
Proof.
  intros Hfold.
  destruct (repair_pass n other_case0 Hfold) as (other_case & Hrepair & Hrep).
  destruct (scan_pass n other_case0 other_case Hfold Hrep) as (sets & Hscan & Hsets).
  pose proof (sets_inv_disjoint other_case0 sets Hsets) as Hdisj.
  destruct (make_caseless_offsets_spec n sets Hdisj) as (co & Hco & Hlen & Hoff).
  { intros s x Hs Hx. by eapply sets_inv_range. }
  exists other_case, sets, co, (write_caseless_sets sets).
  split.
  { unfold caseless, make_caseless_sets.
    rewrite Hrepair, bind_Ok, Hscan, !bind_Ok. simpl. by rewrite Hco. }
  split; [done|]. split.
  { intros s x y. by eapply sets_inv_two_hops. }
  split.
  { intros s Hs. by eapply sets_inv_hub. }
  split; [done|].
  intros k s Hk. destruct Hsets as (targets & _ & Hall).
  destruct (sets_inv_lookup other_case0 _ _ _ _ Hall Hk) as (o & _ & _ & _ & Hnd & _).
  destruct (write_caseless_sets_run sets k s Hk) as [Hrun Hend].
  split; [done|]. split; [apply py_sorted_perm|].
  split; [apply (py_sorted_sorted id)|]. split; [done|]. split; [done|].
  intros x Hx. by apply (Hoff k s x).
Qed.

End caseless_soundness.

Section search_returns.

Lemma compress_after_subset {A : Type} `{Countable A} (table : list A)
    (B j : nat) (x : A) :
  x ∈ (compress_after table B j).2 → x ∈ table.
Proof.
  induction j as [|j IH].
  - intros Hx. by apply elem_of_nil in Hx.
  - rewrite compress_after_S.
    destruct (compress_after table B j) as [[blocks stage1] stage2].
    unfold compress_step.
    destruct (blocks !! take B (drop (j * B) table)); simpl in *; [done|].
    intros [Hx|Hx]%elem_of_app; [by apply IH|].
    apply elem_of_take in Hx as (i & Hi & _). rewrite lookup_drop in Hi.
    by eapply list_elem_of_lookup_2.
Qed.

(** A table of values between 0 and 2^32 - 1 gets an unsigned type. *)
Lemma get_type_size_unsigned (table : list Z) :
  table ≠ [] → (∀ x, x ∈ table → 0 ≤ x ≤ 4294967295) →
  ∃ ty, get_type_size table = Ok ty ∧ 1 ≤ ty.2 ≤ 4.
Proof.
  intros Hne Hall.
  destruct (get_type_size_extremes table Hne) as (m & M & Hm & HM & _ & _ & ->).
  pose proof (Hall m Hm). pose proof (Hall M HM). simpl.
  repeat case_bool_decide; try (eexists; split; [done|simpl; lia]).
  exfalso. lia.
Qed.

(** On a table made of whole blocks of every candidate size, with values
    and length within 32 bits and a total below [sys.maxsize], every
    candidate has a size. *)
Lemma total_size_returns (nrecords : nat) (record_size : Z) (table : list nat)
    (B : nat) :
  (0 < B)%nat → (length table `mod` B = 0)%nat → table ≠ [] →
  (∀ x, x ∈ table → Z.of_nat x ≤ 4294967295) →
  Z.of_nat (length table) ≤ 4294967296 →
  ∃ r, total_size nrecords record_size table B = Ok r ∧
    r.1 ≤ Z.of_nat nrecords * record_size + 8 * Z.of_nat (length table).
Proof.
  intros HB Hmod Hne Hval Hlen.
  assert (Hlenpos : (0 < length table)%nat) by (destruct table; [done|simpl; lia]).
  set (k := (length table / B)%nat).
  assert (Hk : (k * B = length table)%nat).
  { pose proof (Nat.div_mod_eq (length table) B). unfold k. lia. }
  assert (Hk1 : (0 < k)%nat) by (destruct k; [lia|lia]).
  unfold total_size. rewrite compress_table_whole by done. fold k.
  pose proof (compress_inv table B k HB ltac:(lia)) as Hinv.
  pose proof (compress_after_subset table B k) as Hsub.
  destruct (compress_after table B k) as [[blocks stage1] stage2].
  destruct Hinv as (Hl1 & (nb & Hnb & Hnbk) & Hs1 & Hblocks).
  simpl in Hsub. rewrite bind_Ok. cbn [fst snd].
  assert (Hs1val : ∀ x, x ∈ Z.of_nat <$> stage1 → 0 ≤ x ≤ 4294967295).
  { intros x (s & -> & [i Hi]%list_elem_of_lookup_1)%list_elem_of_fmap.
    assert (Hik : (i < k)%nat) by (apply lookup_lt_Some in Hi; lia).
    destruct (Hs1 i Hik) as (s' & Hs' & Hb). rewrite Hi in Hs'. injection Hs' as <-.
    destruct (Hblocks _ _ Hb) as (f & Hf & _ & _ & _ & _ & _ & Hsf). nia. }
  assert (Hs2val : ∀ x, x ∈ Z.of_nat <$> stage2 → 0 ≤ x ≤ 4294967295).
  { intros x (s & -> & Hs)%list_elem_of_fmap.
    specialize (Hval s (Hsub s Hs)). lia. }
  assert (Hs1ne : Z.of_nat <$> stage1 ≠ []).
  { intros Heq. apply (f_equal length) in Heq. rewrite length_fmap in Heq.
    simpl in Heq. lia. }
  assert (Hs2ne : Z.of_nat <$> stage2 ≠ []).
  { intros Heq. apply (f_equal length) in Heq. rewrite length_fmap in Heq.
    simpl in Heq. destruct (Hs1 0%nat Hk1) as (s & _ & Hb).
    destruct (Hblocks _ _ Hb) as (_ & _ & _ & _ & _ & Hin & _). lia. }
  destruct (get_type_size_unsigned _ Hs1ne Hs1val) as (ty1 & Hty1 & Hw1).
  destruct (get_type_size_unsigned _ Hs2ne Hs2val) as (ty2 & Hty2 & Hw2).
  unfold get_tables_size.
  rewrite for_each_cons, Hty1, !bind_Ok, for_each_cons, Hty2, !bind_Ok.
  simpl. eexists. split; [done|]. simpl. rewrite !length_fmap.
  assert (Z.of_nat (length stage2) ≤ Z.of_nat (length table)) by nia.
  nia.
Qed.

Lemma search_runs (nrecords : nat) (record_size : Z) (table : list nat)
    (cands : list nat) (st0 : search_state) :
  (∀ B, B ∈ cands → ∃ r, total_size nrecords record_size table B = Ok r) →
  ∃ st, for_each cands (search_step nrecords record_size table) st0 = Ok st.
Proof.
  revert st0. induction cands as [|B cands IH]; intros st0 Hall.
  - by exists st0.
  - destruct (Hall B) as (r & Hr); [apply elem_of_cons; by left|].
    assert (Hstep : ∃ st1, search_step nrecords record_size table st0 B = Ok st1).
    { unfold search_step. rewrite Hr, bind_Ok. case_bool_decide; by eexists. }
    destruct Hstep as [st1 Hstep]. rewrite for_each_cons, Hstep, bind_Ok.
    apply IH. intros B' HB'. apply Hall, elem_of_cons. by right.
Qed.

(** The search returns and retains a block size on the tables it is run
    on. *)
Lemma find_block_size_returns (nrecords : nat) (record_size : Z)
    (table : list nat) :
  (length table `mod` 512 = 0)%nat → table ≠ [] →
  (∀ x, x ∈ table → Z.of_nat x ≤ 4294967295) →
  Z.of_nat (length table) ≤ 4294967296 →
  Z.of_nat nrecords * record_size + 8 * Z.of_nat (length table) < sys_maxsize →
  ∃ st stage1 stage2 B,
    find_block_size nrecords record_size table = Ok st ∧
    min_tables st = Some (stage1, stage2, B).
Proof.
  intros Hmod Hne Hval Hlen Hsize.
  assert (Hall : ∀ B, B ∈ block_sizes →
            ∃ r, total_size nrecords record_size table B = Ok r ∧
              r.1 ≤ Z.of_nat nrecords * record_size + 8 * Z.of_nat (length table)).
  { intros B HB. apply total_size_returns; try done.
    - apply list_elem_of_lookup_1 in HB as [p [-> _]%block_sizes_lookup].
      apply Nat.neq_0_lt_0, Nat.pow_nonzero. lia.
    - apply list_elem_of_lookup_1 in HB as [p [-> Hp]%block_sizes_lookup].
      apply Nat.Lcm0.mod_divide. apply Nat.Lcm0.mod_divide in Hmod.
      etrans; [|exact Hmod]. exists (2 ^ (4 - p))%nat.
      rewrite <- Nat.pow_add_r. by replace (4 - p + (5 + p))%nat with 9%nat by lia. }
  destruct (search_runs nrecords record_size table block_sizes
              (SearchState sys_maxsize None)) as (st & Hst).
  { intros B HB. destruct (Hall B HB) as (r & Hr & _). by exists r. }
  destruct (search_inv _ _ _ _ _ _ Hst) as [Hmin Hbest].
  destruct Hbest as [->|(p & B & r & _ & _ & -> & _)].
  - exfalso. destruct (Hmin 0%nat 32%nat eq_refl) as (r & Hr & Hle).
    destruct (Hall 32%nat) as (r' & Hr' & Hle'); [apply elem_of_cons; by left|].
    rewrite Hr in Hr'. injection Hr' as <-. simpl in Hle. lia.
  - exists (SearchState r.1 (Some (r.2.1, r.2.2, B))), r.2.1, r.2.2, B.
    by split.
Qed.

End search_returns.

Section emoji_facts.

(** An emoji whose break property is not 'Other' leaves a warning and the
    scan goes on. *)
Lemma emoji_override_returns (break_properties : list string) (other ep : nat)
    (ranges : list (nat * nat)) (break_props : list nat) :
  (∀ r, r ∈ ranges → (r.2 < length break_props)%nat) →
  (∀ b, b ∈ break_props → (b < length break_properties)%nat) →
  (ep < length break_properties)%nat →
  ∃ break_props' warnings,
    emoji_override break_properties other ep ranges break_props
      = Ok (break_props', warnings) ∧
    length break_props' = length break_props.
Proof.
  intros Hranges Hvals Hep.
  set (P := λ st : list nat * list (nat * string),
              length st.1 = length break_props ∧
              ∀ b, b ∈ st.1 → (b < length break_properties)%nat).
  destruct (for_each_indexed (λ _, P)
    (λ st r, for_each (seq r.1 (r.2 + 1 - r.1))
               (emoji_step break_properties other ep) st)
    ranges (break_props, [])) as ([bp w] & Hrun & Hlen & _).
  - by split.
  - intros k [first last] st Hk Hst. simpl.
    assert (Hlast : (last < length break_props)%nat)
      by (apply (Hranges (first, last)); by eapply list_elem_of_lookup_2).
    destruct (for_each_seq (λ _, P) (emoji_step break_properties other ep)
                first (last + 1 - first) st) as (st' & Hrun & Hst'); [done| |].
    + intros i [bp w] Hi [Hlen Hv]. simpl in *.
      destruct (lookup_lt_is_Some_2 bp i) as [b Hb]; [lia|].
      unfold emoji_step. rewrite (py_getitem_nat _ _ _ Hb), bind_Ok.
      assert (Hbv : (b < length break_properties)%nat)
        by (apply Hv; by eapply list_elem_of_lookup_2).
      destruct (lookup_lt_is_Some_2 break_properties b Hbv) as [name Hname].
      rewrite py_setitem_nat by lia.
      case_decide; rewrite ?(py_getitem_nat _ _ _ Hname), !bind_Ok;
        (eexists; split; [done|]); split; simpl; rewrite ?length_insert; try done;
        intros b' [j Hj]%list_elem_of_lookup_1;
        (destruct (decide (j = i)) as [->|Hne];
         [rewrite list_lookup_insert_eq in Hj by lia; by injection Hj as <-
         |rewrite list_lookup_insert_ne in Hj by done;
          apply Hv; by eapply list_elem_of_lookup_2]).
    + by exists st'.
  - exists bp, w. by split.
Qed.

End emoji_facts.

(** Two loops over one list that keep a relation between their states. *)
Lemma for_each_pair {S S' A : Type} (R : S → S' → Prop)
    (body : S → A → result S) (body' : S' → A → result S')
    (xs : list A) (s : S) (s' : S') :
  R s s' →
  (∀ x t t', x ∈ xs → R t t' →
     ∃ u u', body t x = Ok u ∧ body' t' x = Ok u' ∧ R u u') →
  ∃ r r', for_each xs body s = Ok r ∧ for_each xs body' s' = Ok r' ∧ R r r'.
Proof.
  revert s s'. induction xs as [|x xs IH]; intros s s' HR Hstep.
  - by exists s, s'.
  - destruct (Hstep x s s') as (u & u' & Hu & Hu' & HR');
      [apply elem_of_cons; by left|done|].
    rewrite !for_each_cons, Hu, Hu', !bind_Ok.
    apply IH; [done|]. intros y t t' Hy. apply Hstep, elem_of_cons. by right.
Qed.

Lemma for_each_id {S A : Type} (body : S → A → result S) (xs : list A) (s : S) :
  (∀ x, x ∈ xs → body s x = Ok s) → for_each xs body s = Ok s.
Proof.
  induction xs as [|x xs IH]; intros Hid; [done|].
  rewrite for_each_cons, Hid, bind_Ok by (apply elem_of_cons; by left).
  apply IH. intros y Hy. apply Hid, elem_of_cons. by right.
Qed.

Section padding.
Variables (n k : nat).
Implicit Types (T : list Z) (sets : list (list Z)).

Lemma py_getitem_within {A : Type} (l : list A) (i : Z) :
  0 ≤ i < Z.of_nat (length l) →
  ∃ x, l !! Z.to_nat i = Some x ∧ py_getitem l i = Ok x.
Proof.
  intros Hi. destruct (lookup_lt_is_Some_2 l (Z.to_nat i)) as [x Hx]; [lia|].
  exists x. split; [done|].
  rewrite <- (Z2Nat.id i) at 1 by lia. by apply py_getitem_nat.
Qed.

Lemma py_getitem_pad {A : Type} (l l' : list A) (i : Z) :
  0 ≤ i < Z.of_nat (length l) → py_getitem (l ++ l') i = py_getitem l i.
Proof.
  intros Hi. destruct (py_getitem_within l i Hi) as (x & Hx & ->).
  rewrite <- (Z2Nat.id i) at 1 by lia. apply py_getitem_nat.
  rewrite lookup_app_l by lia. done.
Qed.

Lemma py_setitem_pad {A : Type} (l l' : list A) (i : Z) (v : A) :
  0 ≤ i < Z.of_nat (length l) →
  py_setitem l i v = Ok (<[Z.to_nat i := v]> l) ∧
  py_setitem (l ++ l') i v = Ok (<[Z.to_nat i := v]> l ++ l').
Proof.
  intros Hi. rewrite <- (Z2Nat.id i) at 1 3 by lia.
  rewrite !py_setitem_nat by (rewrite ?length_app; lia).
  split; [done|]. by rewrite insert_app_l by lia.
Qed.

Lemma repair_step_zero T (c : nat) :
  T !! c = Some 0 → repair_step T c = Ok T.
Proof.
  intros Hc. unfold repair_step. rewrite (py_getitem_nat _ _ _ Hc), bind_Ok.
  by rewrite bool_decide_eq_false_2 by (intros ?; done).
Qed.

Lemma scan_step_zero T sets (c : nat) :
  T !! c = Some 0 → scan_step T sets c = Ok sets.
Proof.
  intros Hc. unfold scan_step. rewrite (py_getitem_nat _ _ _ Hc), bind_Ok.
  cbv zeta. rewrite Z.add_0_r, (py_getitem_nat _ _ _ Hc), bind_Ok.
  by rewrite bool_decide_eq_false_2 by (intros ?; done).
Qed.

(** A pass of the first loop on a closed table, alone and followed by
    anything. *)
Lemma repair_step_pad T (Zs : list Z) (c : nat) :
  closed_table n T → (c < n)%nat →
  ∃ T', repair_step T c = Ok T' ∧ repair_step (T ++ Zs) c = Ok (T' ++ Zs) ∧
    closed_table n T'.
Proof.
  intros [Hlen Hclosed] Hc.
  destruct (lookup_lt_is_Some_2 T c) as [d Hd]; [lia|].
  pose proof (Hclosed c d Hd) as Hcd.
  unfold repair_step.
  rewrite (py_getitem_pad T Zs) by lia.
  rewrite (py_getitem_nat _ _ _ Hd), !bind_Ok.
  case_bool_decide as Hnz; [|by exists T].
  rewrite (py_getitem_pad T Zs) by lia.
  destruct (py_getitem_within T (Z.of_nat c + d)) as (r & Hr & ->); [lia|].
  rewrite !bind_Ok. case_bool_decide as Hrz; [|by exists T].
  destruct (py_setitem_pad T Zs (Z.of_nat c + d) (- d)) as [-> ->]; [lia|].
  eexists. split; [done|]. split; [done|].
  split; [by rewrite length_insert|].
  intros c' d' Hd'.
  destruct (decide (c' = Z.to_nat (Z.of_nat c + d))) as [->|Hne].
  - rewrite list_lookup_insert_eq in Hd' by lia. injection Hd' as <-. lia.
  - rewrite list_lookup_insert_ne in Hd' by done. by apply Hclosed.
Qed.

Lemma add_fold_subset (ys : list Z) (found : bool) (s : list Z) (x : Z) :
  x ∈ (foldl add_step (found, s) ys).2 → x ∈ s ∨ x ∈ ys.
Proof.
  revert found s. induction ys as [|y ys IH]; intros found s; simpl; [by left|].
  destruct (find_one s y found).
  - intros [?|?]%IH; [by left|]. right. apply elem_of_cons. by right.
  - intros [[?|Hy]%elem_of_app|?]%IH.
    + by left.
    + right. apply list_elem_of_singleton in Hy as ->. apply elem_of_cons. by left.
    + right. apply elem_of_cons. by right.
Qed.

Lemma unite_fold_within (c o t : Z) sets (visited : list (list Z))
    (appended : bool) :
  0 ≤ c < Z.of_nat n → 0 ≤ o < Z.of_nat n → 0 ≤ t < Z.of_nat n →
  sets_within n sets → sets_within n visited →
  sets_within n (foldl (unite_step c o t) (visited, appended) sets).1.
Proof.
  intros Hc Ho Ht. revert visited appended.
  induction sets as [|s sets IH]; intros visited appended Hsets Hvis; [done|].
  cbn [foldl]. rewrite unite_step_eq.
  assert (Hrest : sets_within n sets).
  { intros s' x Hs'. apply Hsets, elem_of_cons. by right. }
  assert (Hs : ∀ x, x ∈ s → 0 ≤ x < Z.of_nat n).
  { intros x. apply Hsets, elem_of_cons. by left. }
  destruct (find_any s c o t false); apply IH; try done.
  - intros s' x [Hs'|Hs']%elem_of_app; [by apply Hvis|].
    apply list_elem_of_singleton in Hs' as ->.
    intros [?|Hx]%add_fold_subset; [by apply Hs|].
    rewrite !elem_of_cons, elem_of_nil in Hx. destruct Hx as [->|[->|[->|[]]]]; done.
  - intros s' x [Hs'|Hs']%elem_of_app; [by apply Hvis|].
    apply list_elem_of_singleton in Hs' as ->. by apply Hs.
Qed.

(** A pass of the second loop on a closed table reads nothing of what
    follows the table. *)
Lemma scan_step_pad T (Zs : list Z) sets (c : nat) :
  closed_table n T → (c < n)%nat → sets_within n sets →
  ∃ sets', scan_step T sets c = Ok sets' ∧
    scan_step (T ++ Zs) sets c = Ok sets' ∧ sets_within n sets'.
Proof.
  intros [Hlen Hclosed] Hc Hsets.
  destruct (lookup_lt_is_Some_2 T c) as [d Hd]; [lia|].
  pose proof (Hclosed c d Hd) as Hcd.
  unfold scan_step.
  rewrite (py_getitem_pad T Zs) by lia.
  rewrite (py_getitem_nat _ _ _ Hd), !bind_Ok. cbv zeta.
  rewrite (py_getitem_pad T Zs) by lia.
  destruct (py_getitem_within T (Z.of_nat c + d)) as (d' & Hd' & ->); [lia|].
  rewrite !bind_Ok. case_bool_decide as Hne; [|by exists sets].
  pose proof (Hclosed _ _ Hd') as Ht. rewrite Z2Nat.id in Ht by lia.
  pose proof (unite_fold_within (Z.of_nat c) (Z.of_nat c + d)
                (Z.of_nat c + d + d') sets [] false
                ltac:(lia) ltac:(lia) ltac:(lia) Hsets) as Hwithin.
  destruct (foldl _ _ sets) as [sets' appended]. simpl in Hwithin.
  assert (Hsets' : sets_within n sets').
  { apply Hwithin. intros s x Hs. by apply elem_of_nil in Hs. }
  eexists. split; [done|]. split; [done|].
  destruct appended; [done|].
  intros s x [Hs|Hs]%elem_of_app; [by apply (Hsets' s)|].
  apply list_elem_of_singleton in Hs as ->.
  rewrite !elem_of_cons, elem_of_nil. intros [->|[->|[->|[]]]]; lia.
Qed.

Lemma offsets_step_pad (Zs : list Z) (co : list Z) (offset : Z) (s : list Z) :
  length co = n → (∀ x, x ∈ s → 0 ≤ x < Z.of_nat n) →
  ∃ co', offsets_step (co, offset) s
           = Ok (co', offset + Z.of_nat (length s) + 1) ∧
    offsets_step (co ++ Zs, offset) s
      = Ok (co' ++ Zs, offset + Z.of_nat (length s) + 1) ∧
    length co' = n.
Proof.
  intros Hlen Hs.
  destruct (for_each_pair (λ co co', co' = co ++ Zs ∧ length co = n)
              (λ co x, py_setitem co x offset) (λ co x, py_setitem co x offset)
              s co (co ++ Zs)) as (r & r' & Hr & Hr' & -> & Hlen').
  - by split.
  - intros x t t' Hx [-> Ht].
    destruct (py_setitem_pad t Zs x offset) as [H1 H2]; [rewrite Ht; by apply Hs|].
    eexists _, _. split; [done|]. split; [done|]. split; [done|].
    by rewrite length_insert.
  - exists r. unfold offsets_step. by rewrite Hr, Hr', !bind_Ok.
Qed.

(** Zeros after a closed table change nothing: the run returns on the
    table alone and on the table followed by [k] zeros, with the same sets
    and the same table of sets. *)
Lemma caseless_pad T :
  closed_table n T →
  ∃ T1 sets co,
    caseless n T = Ok (T1, sets, co, write_caseless_sets sets) ∧
    caseless (n + k) (T ++ replicate k 0) =
      Ok (T1 ++ replicate k 0, sets, co ++ replicate k 0,
          write_caseless_sets sets).
Proof.
  intros Hclosed. set (Zs := replicate k 0).
  destruct (for_each_pair (λ T1 T1', T1' = T1 ++ Zs ∧ closed_table n T1)
              repair_step repair_step (seq 0 n) T (T ++ Zs))
    as (T1 & T1' & Hrep & Hrep' & -> & Hclosed1).
  { by split. }
  { intros c t t' Hc%elem_of_seq [-> Ht].
    destruct (repair_step_pad t Zs c Ht) as (u & Hu & Hu' & Hcu); [lia|].
    by exists u, (u ++ Zs). }
  assert (Hzero : ∀ c, c ∈ seq n k → (T1 ++ Zs) !! c = Some 0).
  { intros c Hc%elem_of_seq. destruct Hclosed1 as [Hlen1 _].
    rewrite lookup_app_r by lia. apply lookup_replicate_2. lia. }
  destruct (for_each_pair (λ sets sets', sets' = sets ∧ sets_within n sets)
              (scan_step T1) (scan_step (T1 ++ Zs)) (seq 0 n) [] [])
    as (sets & sets' & Hscan & Hscan' & -> & Hwithin).
  { split; [done|]. intros s x Hs. by apply elem_of_nil in Hs. }
  { intros c t t' Hc%elem_of_seq [-> Ht].
    destruct (scan_step_pad T1 Zs t c Hclosed1) as (u & Hu & Hu' & Hwu);
      [lia|done|].
    by exists u, u. }
  destruct (for_each_pair
              (λ (st st' : list Z * Z),
                 st'.1 = st.1 ++ Zs ∧ st'.2 = st.2 ∧ length st.1 = n)
              offsets_step offsets_step sets
              (replicate n 0, 1) (replicate (n + k) 0, 1))
    as ([co off] & [co' off'] & Hoff & Hoff' & Hco & _ & _).
  { simpl. split; [apply replicate_add|]. split; [done|apply length_replicate]. }
  { intros s [t off] [t' off'] Hs (Ht & Hoffeq & Hlen). simpl in Ht, Hoffeq, Hlen.
    rewrite Ht, Hoffeq.
    destruct (offsets_step_pad Zs t off s Hlen) as (u & Hu & Hu' & Hlu).
    { intros x. by apply Hwithin. }
    eexists _, _. split; [done|]. split; [done|]. by simpl. }
  simpl in Hco. subst co'.
  exists T1, sets, co. unfold caseless, make_caseless_sets, make_caseless_offsets.
  rewrite Hrep, !bind_Ok, Hscan, !bind_Ok. cbn [fst snd].
  rewrite Hoff, !bind_Ok. split; [done|].
  rewrite seq_app, for_each_app, Hrep', !bind_Ok. cbn [Nat.add].
  rewrite (for_each_id repair_step (seq n k))
    by (intros c Hc; by apply repair_step_zero, Hzero).
  rewrite !bind_Ok, for_each_app, Hscan', !bind_Ok.
  rewrite (for_each_id (scan_step (T1 ++ Zs)) (seq n k))
    by (intros c Hc; by apply scan_step_zero, Hzero).
  rewrite !bind_Ok. cbn [fst snd]. by rewrite Hoff', !bind_Ok.
Qed.

End padding.

Section caseless_counterexamples.

(** Closedness of a table given in full. *)
Ltac solve_closed :=
  split; [reflexivity|];
  let c := fresh "c" in let d := fresh "d" in let Hd := fresh "Hd" in
  intros c d Hd;
  repeat (destruct c as [|c]; [injection Hd as <-; lia|]);
  discriminate Hd.

Lemma to_nat_max_unicode (m : nat) :
  (m ≤ 8)%nat → Z.to_nat MAX_UNICODE = (m + (Z.to_nat MAX_UNICODE - m))%nat.
Proof. unfold MAX_UNICODE. lia. Qed.

(** C3. The merge into an existing set is not complete.  On the chain
    1 → 2 → 3 ↔ 4, in a table of any length with no other offsets, the
    character 2 gives the three characters 2, 3 and 4 when the set
    {1, 2, 3} exists; 2 and 3 are found in it, the flag stays set and 4,
    which is not in the set, is not added.  The set is {1, 2, 3} to the end
    and 4 is given offset 0, also over the whole of MAX_UNICODE. *)
Theorem caseless_merge_drops_member :
  scan_step [0; 1; 1; 1; -1; 0] [] 1 = Ok [[1; 2; 3]] ∧
  unite_step 2 3 4 ([], false) [1; 2; 3] = ([[1; 2; 3]], true) ∧
  scan_step [0; 1; 1; 1; -1; 0] [[1; 2; 3]] 2 = Ok [[1; 2; 3]] ∧
  (4 ∉ [1; 2; 3]) ∧
  (∀ k, caseless (6 + k) ([0; 1; 1; 1; 0; 0] ++ replicate k 0) =
     Ok ([0; 1; 1; 1; -1; 0] ++ replicate k 0, [[1; 2; 3]],
         [0; 1; 1; 1; 0; 0] ++ replicate k 0,
         [NOTACHAR; 1; 2; 3; NOTACHAR])) ∧
  caseless (Z.to_nat MAX_UNICODE)
      ([0; 1; 1; 1; 0; 0] ++ replicate (Z.to_nat MAX_UNICODE - 6) 0) =
    Ok ([0; 1; 1; 1; -1; 0] ++ replicate (Z.to_nat MAX_UNICODE - 6) 0,
        [[1; 2; 3]],
        [0; 1; 1; 1; 0; 0] ++ replicate (Z.to_nat MAX_UNICODE - 6) 0,
        [NOTACHAR; 1; 2; 3; NOTACHAR]).
Proof.
  assert (Hpad : ∀ k, caseless (6 + k) ([0; 1; 1; 1; 0; 0] ++ replicate k 0) =
     Ok ([0; 1; 1; 1; -1; 0] ++ replicate k 0, [[1; 2; 3]],
         [0; 1; 1; 1; 0; 0] ++ replicate k 0,
         [NOTACHAR; 1; 2; 3; NOTACHAR])).
  { intros k.
    destruct (caseless_pad 6 k [0; 1; 1; 1; 0; 0]) as (T1 & sets & co & H6 & Hk);
      [solve_closed|].
    vm_compute in H6. injection H6 as <- <- <- _. exact Hk. }
  split; [by vm_compute|]. split; [by vm_compute|]. split; [by vm_compute|].
  split; [rewrite !elem_of_cons, elem_of_nil; lia|]. split; [exact Hpad|].
  set (k := (Z.to_nat MAX_UNICODE - 6)%nat).
  rewrite (to_nat_max_unicode 6) by lia. apply Hpad.
Qed.

(** C4: the claim as it stands fails twice, over the whole of MAX_UNICODE.
    On the chain 1 → 2 → 7 → 3 → 4 ↔ 5 the character 7 ends up in two
    sets.  On the folding of 1 and 3 to 2, which is idempotent, the set is
    {3, 2, 1}, and following the offsets from 1 leads to 2 and back but
    never to 3. *)
Lemma caseless_sets_not_disjoint :
  (∃ r, caseless (Z.to_nat MAX_UNICODE)
          ([0; 1; 5; 1; 1; 0; 0; -4] ++ replicate (Z.to_nat MAX_UNICODE - 8) 0)
        = Ok r ∧
      r.1.1.2 = [[1; 2; 7]; [3; 4; 5; 7]] ∧ ¬ pairwise_disjoint r.1.1.2) ∧
  (∃ r, caseless (Z.to_nat MAX_UNICODE)
          ([0; 1; 0; -1] ++ replicate (Z.to_nat MAX_UNICODE - 4) 0) = Ok r ∧
      fold_idempotent (Z.to_nat MAX_UNICODE)
        ([0; 1; 0; -1] ++ replicate (Z.to_nat MAX_UNICODE - 4) 0) ∧
      r.1.1.2 = [[3; 2; 1]] ∧ ¬ reach2 r.1.1.1 1 3).
Proof.
  split.
  - destruct (caseless_pad 8 (Z.to_nat MAX_UNICODE - 8) [0; 1; 5; 1; 1; 0; 0; -4])
      as (T1 & sets & co & H8 & Hk); [solve_closed|].
    vm_compute in H8. injection H8 as <- <- <- _.
    rewrite <- (to_nat_max_unicode 8) in Hk by lia.
    eexists. split; [exact Hk|]. cbn [fst snd]. split; [done|]. intros Hdisj.
    specialize (Hdisj 0%nat 1%nat [1; 2; 7] [3; 4; 5; 7] 7 eq_refl eq_refl).
    assert (0 = 1)%nat; [|done]. apply Hdisj.
    + do 2 (apply elem_of_cons; right). apply elem_of_cons. by left.
    + do 3 (apply elem_of_cons; right). apply elem_of_cons. by left.
  - destruct (caseless_pad 4 (Z.to_nat MAX_UNICODE - 4) [0; 1; 0; -1])
      as (T1 & sets & co & H4 & Hk); [solve_closed|].
    vm_compute in H4. injection H4 as <- <- <- _.
    rewrite <- (to_nat_max_unicode 4) in Hk by lia.
    assert (Hlen : length (replicate (Z.to_nat MAX_UNICODE - 4) 0)
                   = (Z.to_nat MAX_UNICODE - 4)%nat) by apply length_replicate.
    assert (HZs : ∀ c d, replicate (Z.to_nat MAX_UNICODE - 4) 0 !! c = Some d →
                    d = 0).
    { intros c d Hd. by apply lookup_replicate in Hd as [-> _]. }
    revert Hk Hlen HZs.
    generalize (replicate (Z.to_nat MAX_UNICODE - 4) 0). intros Zs Hk Hlen HZs.
    eexists. split; [exact Hk|]. cbn [fst snd]. split; [|split; [done|]].
    + split.
      { rewrite length_app, Hlen. cbn [length]. unfold MAX_UNICODE. lia. }
      intros [|[|[|[|c]]]] d Hd Hnz; simpl in Hd.
      * injection Hd as <-. done.
      * injection Hd as <-. by exists 2%nat.
      * injection Hd as <-. done.
      * injection Hd as <-. by exists 2%nat.
      * by apply HZs in Hd.
    + assert (Hhop : ∀ a b, hop ([0; 1; -1; -1] ++ Zs) a b →
                (a = 1 ∧ b = 2) ∨ (a = 2 ∧ b = 1) ∨ (a = 3 ∧ b = 2)).
      { intros a b (d & Ha & Hd & Hnz & ->).
        destruct (Z.to_nat a) as [|[|[|[|c]]]] eqn:Hc; simpl in Hd.
        - injection Hd as <-. done.
        - injection Hd as <-. lia.
        - injection Hd as <-. lia.
        - injection Hd as <-. lia.
        - by apply HZs in Hd. }
      intros [Heq|[H1|(z & H1 & H2)]]; [done| |].
      * apply Hhop in H1. lia.
      * apply Hhop in H1, H2. lia.
Qed.

End caseless_counterexamples.

(** * Further properties of the generator *)

Section compress_more.
Context {A : Type} `{Countable A}.
Local Open Scope nat_scope.
Implicit Types (table : list A) (B : nat).

Lemma compress_loop_length table B (starts : list nat) (st : compress_state) :
  length (foldl (compress_step table B) st starts).1.2
    = length st.1.2 + length starts.
Proof.
  revert st. induction starts as [|i starts IH]; intros st; simpl; [lia|].
  rewrite IH. destruct st as [[blocks stage1] stage2]. unfold compress_step.
  destruct (blocks !! _); simpl; rewrite length_app; simpl; lia.
Qed.

Lemma compress_table_after table B :
  0 < B →
  compress_table table B =
  Ok ((compress_after table B ((length table + (B - 1)) / B)).1.2,
      (compress_after table B ((length table + (B - 1)) / B)).2).
Proof.
  intros HB. unfold compress_table. destruct (decide (B = 0)); [lia|].
  rewrite py_range3_0. fold (compress_after table B ((length table + (B - 1)) / B)).
  by destruct (compress_after table B _) as [[? ?] ?].
Qed.

Lemma compress_after_short table B j :
  length (compress_after table B j).2 ≤ length (take (j * B) table).
Proof.
  induction j as [|j IH]; [simpl; lia|].
  rewrite compress_after_S.
  destruct (compress_after table B j) as [[blocks stage1] stage2].
  unfold compress_step. simpl in IH.
  assert (Hlen : length (take (S j * B) table) =
                 length (take (j * B) table) + length (take B (drop (j * B) table))).
  { rewrite !length_take, length_drop.
    replace (S j * B) with (j * B + B) by lia. lia. }
  rewrite Hlen. destruct (blocks !! _); cbn [fst snd]; rewrite ?length_app; lia.
Qed.

(** X1. [compress_table] on any table: a block size of 0 is refused with
    ValueError, the zero step of [range]; with any other block size the call
    returns, for a table of any length, the empty one and one that does not
    end on a block boundary included; [stage1] has one entry for each block
    started, [stage2] is no longer than the table and holds only values of
    the table, and the lookup through the two stages gives back every entry
    of the table. *)
Theorem compress_table_any_length table B :
  (B = 0 → compress_table table B = Raise ValueError) ∧
  (0 < B →
   ∃ stage1 stage2, compress_table table B = Ok (stage1, stage2) ∧
     length stage1 = (length table + (B - 1)) / B ∧
     length stage2 ≤ length table ∧
     (∀ x, x ∈ stage2 → x ∈ table) ∧
     ∀ c, c < length table → two_stage_lookup stage1 stage2 B c = table !! c).
Proof.
  split.
  - intros ->. done.
  - intros HB. destruct (compress_round_trip table B HB) as (s1 & s2 & Hc & Hround).
    exists s1, s2. split; [done|].
    rewrite compress_table_after in Hc by done. injection Hc as <- <-.
    split; [|split; [|split; [|done]]].
    + unfold compress_after, compress_loop. rewrite compress_loop_length.
      simpl. by rewrite length_fmap, length_seq.
    + etrans; [apply compress_after_short|]. rewrite length_take. lia.
    + intros x. apply compress_after_subset.
Qed.

Lemma compress_blocks_onto table B j :
  0 < B → j * B ≤ length table →
  ∀ s, s * B < length (compress_after table B j).2 →
    ∃ b, (compress_after table B j).1.1 !! b = Some s.
Proof.
  intros HB. induction j as [|j IH]; intros Hj s Hs.
  - simpl in Hs. lia.
  - rewrite compress_after_S in Hs |- *.
    pose proof (compress_inv table B j HB ltac:(lia)) as Hinv.
    specialize (IH ltac:(lia)).
    destruct (compress_after table B j) as [[blocks stage1] stage2].
    destruct Hinv as (_ & (nb & Hnb & _) & _ & _).
    pose proof (length_chunk table B j Hj) as Hck. unfold chunk in Hck.
    unfold compress_step in *. simpl in IH.
    destruct (blocks !! take B (drop (j * B) table)) as [start|] eqn:Hget;
      simpl in *; [by apply IH|].
    rewrite length_app, Hck in Hs.
    destruct (decide (s * B < length stage2)) as [Hlt|Hge].
    + destruct (IH s Hlt) as (b & Hb). exists b.
      rewrite lookup_insert_ne; [done|]. intros <-. congruence.
    + assert (s = nb) as -> by nia.
      exists (take B (drop (j * B) table)).
      rewrite Hnb, Nat.div_mul by lia. apply lookup_insert_eq.
Qed.

(** X2. No block is stored twice: on a table made of whole blocks, the
    blocks of [stage2] are pairwise different, and each of them is the block
    of the table at a position of [stage1] that refers to it, so that
    [stage2] has no block that [stage1] does not use. *)
Theorem compress_table_no_duplicate_block table B :
  0 < B → length table mod B = 0 →
  ∃ stage1 stage2, compress_table table B = Ok (stage1, stage2) ∧
    (∀ s s', s < length stage2 / B → s' < length stage2 / B →
       take B (drop (s * B) stage2) = take B (drop (s' * B) stage2) → s = s') ∧
    (∀ s, s < length stage2 / B →
       ∃ i, stage1 !! i = Some s ∧
         chunk table B i = take B (drop (s * B) stage2)).
Proof.
  intros HB Hmod. rewrite compress_table_whole by done.
  set (k := length table / B).
  assert (Hk : k * B ≤ length table)
    by (pose proof (Nat.div_mod_eq (length table) B); unfold k; lia).
  pose proof (compress_inv table B k HB Hk) as Hinv.
  pose proof (compress_blocks_onto table B k HB Hk) as Honto.
  destruct (compress_after table B k) as [[blocks stage1] stage2].
  destruct Hinv as (Hlen & (nb & Hnb & _) & Hs1 & Hblocks). simpl in Honto.
  exists stage1, stage2. split; [done|].
  rewrite Hnb, Nat.div_mul by lia.
  assert (Hblock : ∀ s, s < nb →
            ∃ f, f < k ∧ stage1 !! f = Some s ∧
              blocks !! take B (drop (s * B) stage2) = Some s ∧
              chunk table B f = take B (drop (s * B) stage2)).
  { intros s Hs. destruct (Honto s) as (b & Hb); [nia|].
    destruct (Hblocks b s Hb) as (f & Hf & Hcf & _ & _ & _ & Htk & _).
    destruct (Hs1 f Hf) as (s0 & Hs0 & Hb0). rewrite Hcf, Hb in Hb0.
    injection Hb0 as <-. exists f. rewrite Htk. by rewrite Hcf. }
  split.
  - intros s s' Hs Hs' Heq.
    destruct (Hblock s Hs) as (_ & _ & _ & Hb & _).
    destruct (Hblock s' Hs') as (_ & _ & _ & Hb' & _).
    rewrite Heq in Hb. congruence.
  - intros s Hs. destruct (Hblock s Hs) as (f & _ & Hf & _ & Hcf). by exists f.
Qed.

End compress_more.

Section width_more.

Lemma get_type_size_width (table : list Z) (ty : string * Z) :
  get_type_size table = Ok ty → ty.2 = 1 ∨ ty.2 = 2 ∨ ty.2 = 4.
Proof.
  unfold get_type_size.
  destruct (py_min table) as [m|]; simpl; [|done].
  destruct (py_max table) as [M|]; simpl; [|done].
  repeat case_bool_decide; intros [= <-]; simpl; auto.
Qed.

(** X3. The exceptions of [get_type_size]: it raises ValueError exactly on
    the empty table (from [min]), and OverflowError exactly on a table with
    a value below -2^31, or a value above 2^32 - 1, or a negative value
    together with a value above 2^31 - 1; it raises nothing else. *)
Theorem get_type_size_errors (table : list Z) (e : exn) :
  get_type_size table = Raise e ↔
  (table = [] ∧ e = ValueError) ∨
  (e = OverflowError ∧
   ((∃ x, x ∈ table ∧ x < -2147483648) ∨
    (∃ x, x ∈ table ∧ 4294967295 < x) ∨
    (∃ x y, x ∈ table ∧ y ∈ table ∧ x < 0 ∧ 2147483647 < y))).
Proof.
  destruct (decide (table = [])) as [->|Hne].
  { split.
    - intros [= <-]. by left.
    - intros [[_ ->]|(_ & [(x & Hx & _)|[(x & Hx & _)|(x & _ & Hx & _)]])];
        [done|by apply elem_of_nil in Hx..]. }
  destruct (get_type_size_extremes table Hne) as (m & M & Hm & HM & Hlow & Hup & ->).
  split.
  - intros Hscan. right. simpl in Hscan.
    repeat case_bool_decide; try done. injection Hscan as <-. split; [done|].
    destruct (decide (m < -2147483648)); [left; by exists m|].
    destruct (decide (4294967295 < M)); [right; left; by exists M|].
    right. right. exists m, M. repeat split; try done; lia.
  - intros [[? _]|(-> & Hbad)]; [done|].
    assert (Hbad' : m < -2147483648 ∨ 4294967295 < M ∨ (m < 0 ∧ 2147483647 < M)).
    { destruct Hbad as [(x & Hx & ?)|[(x & Hx & ?)|(x & y & Hx & Hy & ? & ?)]].
      - left. specialize (Hlow x Hx). lia.
      - right. left. specialize (Hup x Hx). lia.
      - right. right. specialize (Hlow x Hx). specialize (Hup y Hy). lia. }
    simpl. repeat case_bool_decide; try done; exfalso; lia.
Qed.

(** X4. The width is monotone: when [get_type_size] returns a type for a
    table, it returns one for every non-empty table made of values of that
    table, and one that is not wider. *)
Theorem get_type_size_monotone (table table' : list Z) (ty : string * Z) :
  table' ≠ [] → (∀ x, x ∈ table' → x ∈ table) →
  get_type_size table = Ok ty →
  ∃ ty', get_type_size table' = Ok ty' ∧ ty'.2 ≤ ty.2.
Proof.
  intros Hne' Hsub Hget.
  assert (Hne : table ≠ []).
  { intros ->. destruct table' as [|x ?]; [done|].
    specialize (Hsub x ltac:(apply elem_of_cons; by left)). by apply elem_of_nil in Hsub. }
  destruct (get_type_size_extremes table Hne) as (m & M & Hm & HM & Hlow & Hup & Heq).
  destruct (get_type_size_extremes table' Hne')
    as (m' & M' & Hm' & HM' & Hlow' & Hup' & ->).
  rewrite Heq in Hget. clear Heq.
  pose proof (Hlow m' (Hsub _ Hm')). pose proof (Hup M' (Hsub _ HM')).
  pose proof (Hlow' M' HM').
  simpl in Hget |- *.
  repeat case_bool_decide; simplify_eq/=;
    try (eexists; split; [done|simpl; lia]); exfalso; lia.
Qed.

End width_more.

Section struct_facts.

Lemma land_neg_pow2 (x k : Z) :
  0 ≤ k → Z.land x (- 2 ^ k) = 2 ^ k * (x / 2 ^ k).
Proof.
  intros Hk.
  replace (- 2 ^ k) with (Z.lnot (Z.ones k))
    by (rewrite Z.ones_equiv; unfold Z.lnot; lia).
  rewrite <- Z.ldiff_land, Z.ldiff_ones_r by done.
  rewrite Z.shiftl_mul_pow2, Z.shiftr_div_pow2 by done. lia.
Qed.

(** Rounding up to a multiple of the width of a field. *)
Lemma align_to_spec (size w : Z) :
  w = 1 ∨ w = 2 ∨ w = 4 →
  size ≤ align_to size w < size + w ∧ align_to size w `mod` w = 0 ∧
  (size `mod` w = 0 → align_to size w = size).
Proof.
  unfold align_to. intros [-> | [-> | ->]].
  - rewrite (land_neg_pow2 _ 0) by done. change (2 ^ 0) with 1.
    rewrite Z.div_1_r, Z.mod_1_r. lia.
  - rewrite (land_neg_pow2 _ 1) by done. change (2 ^ 1) with 2.
    pose proof (Z.div_mod (size + 2 - 1) 2 ltac:(done)).
    pose proof (Z.mod_pos_bound (size + 2 - 1) 2 ltac:(done)).
    pose proof (Z.div_mod size 2 ltac:(done)).
    rewrite Z.mul_comm, Z.mod_mul by done. lia.
  - rewrite (land_neg_pow2 _ 2) by done. change (2 ^ 2) with 4.
    pose proof (Z.div_mod (size + 4 - 1) 4 ltac:(done)).
    pose proof (Z.mod_pos_bound (size + 4 - 1) 4 ltac:(done)).
    pose proof (Z.div_mod size 4 ltac:(done)).
    rewrite Z.mul_comm, Z.mod_mul by done. lia.
Qed.

(** The loop over the fields, from any size. *)
Lemma record_loop_spec (records : list (list Z)) (idxs : list nat)
    (size0 size : Z) :
  for_each idxs
    (λ size i,
       slice ← record_slice records (Z.of_nat i);
       ty ← get_type_size slice;
       Ok (align_to size ty.2 + ty.2)) size0 = Ok size →
  ∃ tys,
    Forall2 (λ i ty, ∃ slice, record_slice records (Z.of_nat i) = Ok slice ∧
                       get_type_size slice = Ok ty) idxs tys ∧
    size0 + widths_sum tys ≤ size ∧
    (∀ w, (∀ ty, ty ∈ tys → ty.2 = w) → size0 `mod` w = 0 →
       size = size0 + w * Z.of_nat (length tys) ∧ size `mod` w = 0).
Proof.
  revert size0. induction idxs as [|i idxs IH]; intros size0.
  - intros [= <-]. exists []. split; [constructor|]. simpl. split; [lia|].
    intros w _ Hw. split; [lia|done].
  - rewrite for_each_cons.
    destruct (record_slice records (Z.of_nat i)) as [slice|] eqn:Hslice;
      simpl; [|done].
    destruct (get_type_size slice) as [ty|] eqn:Hty; simpl; [|done].
    intros Hrest. destruct (IH _ Hrest) as (tys & Hall & Hsum & Hsame).
    pose proof (get_type_size_width _ _ Hty) as Hw.
    destruct (align_to_spec size0 ty.2 Hw) as (Hal & Hmod & Hexact).
    exists (ty :: tys). split; [constructor; [by exists slice|done]|].
    split; [simpl; lia|].
    intros w Hallw Hw0.
    assert (ty.2 = w) as Htyw by (apply Hallw, elem_of_cons; by left).
    rewrite Htyw in *. rewrite Hexact in * by done.
    destruct (Hsame w) as [-> Hm].
    { intros ty' Hty'. apply Hallw, elem_of_cons. by right. }
    { replace (size0 + w) with (size0 + 1 * w) by lia.
      rewrite Z.mod_add by lia. done. }
    split; [|done]. simpl length. lia.
Qed.

(** X5. The size [get_record_size_struct] returns: there is a first
    record and it has a field; every field has the width, 1, 2 or 4, that
    [get_type_size] gives its column; the size is at least the sum of the
    widths and is a multiple of the width of the first field; and with
    fields of one width it is that width times the number of fields,
    without padding. *)
Theorem get_record_size_struct_layout (records : list (list Z)) (size : Z) :
  get_record_size_struct records = Ok size →
  ∃ record0 ty0 tys,
    records !! 0%nat = Some record0 ∧
    tys !! 0%nat = Some ty0 ∧
    Forall2 (λ i ty, ∃ slice, record_slice records (Z.of_nat i) = Ok slice ∧
                       get_type_size slice = Ok ty)
      (seq 0 (length record0)) tys ∧
    (∀ ty, ty ∈ tys → ty.2 = 1 ∨ ty.2 = 2 ∨ ty.2 = 4) ∧
    widths_sum tys ≤ size ∧
    size `mod` ty0.2 = 0 ∧
    ((∀ ty, ty ∈ tys → ty.2 = ty0.2) →
       size = ty0.2 * Z.of_nat (length record0)).
Proof.
  unfold get_record_size_struct.
  destruct records as [|record0 records']; [done|].
  assert (Hget : py_getitem (record0 :: records') 0 = Ok record0)
    by apply (py_getitem_nat (record0 :: records') 0 record0 eq_refl).
  rewrite Hget, bind_Ok. clear Hget.
  destruct (for_each _ _ 0) as [size1|] eqn:Hloop; simpl; [|done].
  destruct (record_slice (record0 :: records') 0) as [slice0|] eqn:Hslice0;
    simpl; [|done].
  destruct (get_type_size slice0) as [ty0|] eqn:Hty0; simpl; [|done].
  intros [= <-].
  destruct (record_loop_spec _ _ _ _ Hloop) as (tys & Hall & Hsum & Hsame).
  assert (Hne : record0 ≠ []).
  { intros ->. unfold record_slice in Hslice0. simpl in Hslice0. done. }
  assert (H0 : tys !! 0%nat = Some ty0).
  { destruct record0 as [|x record0]; [done|]. simpl in Hall.
    apply Forall2_cons_inv_l in Hall as (ty & tys' & (slice & Hs & Hty) & _ & ->).
    change (Z.of_nat 0) with 0 in Hs. rewrite Hslice0 in Hs. injection Hs as <-.
    rewrite Hty0 in Hty. by injection Hty as <-. }
  assert (Hws : ∀ ty, ty ∈ tys → ty.2 = 1 ∨ ty.2 = 2 ∨ ty.2 = 4).
  { intros ty [k Hk]%list_elem_of_lookup_1.
    destruct (Forall2_lookup_r _ _ _ _ _ Hall Hk) as (i & _ & slice & _ & Hty).
    by eapply get_type_size_width. }
  pose proof (Hws ty0 ltac:(by eapply list_elem_of_lookup_2)) as Hw0.
  destruct (align_to_spec size1 ty0.2 Hw0) as (Hal & Hmod & Hexact).
  exists record0, ty0, tys. repeat split; try done; try lia.
  intros Hallw. destruct (Hsame ty0.2 Hallw) as [Hsz Hm].
  { by rewrite Z.mod_0_l by lia. }
  rewrite Hexact by done. rewrite Hsz.
  apply Forall2_length in Hall. rewrite length_seq in Hall. rewrite <- Hall. lia.
Qed.

End struct_facts.

Section map_result_facts.
Context {A B : Type}.

Lemma map_result_Forall2 (R : A → B → Prop) (f : A → result B) (l : list A) :
  (∀ x, x ∈ l → ∃ y, f x = Ok y ∧ R x y) →
  ∃ ys, map_result f l = Ok ys ∧ Forall2 R l ys.
Proof.
  induction l as [|x l IH]; intros Hall.
  - exists []. split; [done|constructor].
  - destruct (Hall x) as (y & Hy & HR); [apply elem_of_cons; by left|].
    destruct IH as (ys & Hys & HRs).
    { intros x' Hx'. apply Hall, elem_of_cons. by right. }
    exists (y :: ys). simpl. rewrite Hy, bind_Ok, Hys, bind_Ok.
    split; [done|by constructor].
Qed.

Lemma map_result_Ok_Forall2 (f : A → result B) (l : list A) (ys : list B) :
  map_result f l = Ok ys → Forall2 (λ x y, f x = Ok y) l ys.
Proof.
  revert ys. induction l as [|x l IH]; intros ys; simpl.
  - intros [= <-]. constructor.
  - destruct (f x) as [y|] eqn:Hy; simpl; [|done].
    destruct (map_result f l) as [ys'|]; simpl; [|done].
    intros [= <-]. constructor; [done|by apply IH].
Qed.

(** The first exception is the one raised. *)
Lemma map_result_Raise (f : A → result B) (l : list A) (x : A) (e : exn) :
  x ∈ l → f x = Raise e →
  (∀ x', x' ∈ l → (∃ y, f x' = Ok y) ∨ f x' = Raise e) →
  map_result f l = Raise e.
Proof.
  induction l as [|x0 l IH]; intros Hx Hfx Hall.
  - by apply elem_of_nil in Hx.
  - simpl. destruct (Hall x0) as [[y Hy]|Hr]; [apply elem_of_cons; by left| |].
    + rewrite Hy, bind_Ok.
      apply elem_of_cons in Hx as [->|Hx]; [congruence|].
      rewrite IH; [done|done|done|].
      intros x' Hx'. apply Hall, elem_of_cons. by right.
    + by rewrite Hr.
Qed.

End map_result_facts.

Section bitset_facts.

Lemma bitset_index (idx : nat) :
  Z.of_nat idx / 32 = Z.of_nat (idx / 32) ∧
  Z.land (Z.of_nat idx) 31 = Z.of_nat (idx `mod` 32).
Proof.
  split.
  - by rewrite Nat2Z.inj_div.
  - change 31 with (Z.ones 5). rewrite Z.land_ones by done.
    by rewrite Nat2Z.inj_mod.
Qed.

Lemma lor_bit_range (w k : Z) :
  0 ≤ w < 2 ^ 32 → 0 ≤ k < 32 → 0 ≤ Z.lor w (Z.shiftl 1 k) < 2 ^ 32.
Proof.
  intros Hw Hk. rewrite Z.shiftl_1_l.
  assert (Hp : 0 < 2 ^ k) by (apply Z.pow_pos_nonneg; lia).
  split; [apply Z.lor_nonneg; lia|].
  assert (Hpos : 0 < Z.lor w (2 ^ k)).
  { assert (0 ≤ Z.lor w (2 ^ k)) by (apply Z.lor_nonneg; lia).
    assert (Z.lor w (2 ^ k) ≠ 0); [|lia].
    intros [_ Heq]%Z.lor_eq_0_iff. lia. }
  apply Z.log2_lt_pow2; [done|].
  rewrite Z.log2_lor by lia. rewrite Z.log2_pow2 by lia.
  destruct (decide (w = 0)) as [->|Hnz]; [simpl; lia|].
  assert (Z.log2 w < 32) by (apply Z.log2_lt_pow2; lia). lia.
Qed.

(** A pass of the loop over the members of an entry. *)
Lemma bitset_step_Ok (bitwords : list Z) (idx : nat) :
  (idx < 32 * length bitwords)%nat →
  ∃ w, bitwords !! (idx / 32)%nat = Some w ∧
    bitset_step bitwords idx =
      Ok (<[(idx / 32)%nat := Z.lor w (Z.shiftl 1 (Z.of_nat (idx `mod` 32)))]>
            bitwords).
Proof.
  intros Hidx.
  assert (Hj : (idx / 32 < length bitwords)%nat)
    by (apply Nat.Div0.div_lt_upper_bound; lia).
  destruct (lookup_lt_is_Some_2 bitwords _ Hj) as [w Hw].
  exists w. split; [done|]. unfold bitset_step.
  destruct (bitset_index idx) as [-> ->].
  rewrite (py_getitem_nat _ _ _ Hw), bind_Ok. by rewrite py_setitem_nat.
Qed.

Lemma bitset_step_Raise (bitwords : list Z) (idx : nat) :
  (32 * length bitwords ≤ idx)%nat →
  bitset_step bitwords idx = Raise IndexError.
Proof.
  intros Hidx. unfold bitset_step. destruct (bitset_index idx) as [-> _].
  assert (Hj : (length bitwords ≤ idx / 32)%nat)
    by (apply Nat.div_le_lower_bound; lia).
  unfold py_getitem, py_index.
  rewrite (bool_decide_eq_false_2 (Z.of_nat (idx / 32) < 0)) by lia.
  by rewrite bool_decide_eq_false_2 by lia.
Qed.

(** The bits of the words after the members of [d] have been entered. *)
Lemma bitset_loop_spec (item_size : nat) (d : list nat) :
  (∀ idx, idx ∈ d → (idx < 32 * item_size)%nat) →
  ∃ words, for_each d bitset_step (replicate item_size 0) = Ok words ∧
    length words = item_size ∧
    ∀ j w, words !! j = Some w →
      0 ≤ w < 2 ^ 32 ∧
      ∀ b, (b < 32)%nat →
        Z.testbit w (Z.of_nat b) = true ↔ (32 * j + b)%nat ∈ d.
Proof.
  intros Hd.
  destruct (for_each_indexed
    (λ k (bw : list Z),
       length bw = item_size ∧
       ∀ j w, bw !! j = Some w →
         0 ≤ w < 2 ^ 32 ∧
         ∀ b, (b < 32)%nat →
           Z.testbit w (Z.of_nat b) = true ↔ (32 * j + b)%nat ∈ take k d)
    bitset_step d (replicate item_size 0)) as (words & Hrun & Hlen & Hbits).
  - split; [apply length_replicate|]. intros j w [-> _]%lookup_replicate.
    split; [done|]. intros b _. rewrite Z.bits_0. simpl. split; [done|].
    intros Hin. by apply elem_of_nil in Hin.
  - intros k idx bw Hk [Hlen Hbits].
    assert (Hidx : (idx < 32 * length bw)%nat)
      by (rewrite Hlen; apply Hd; by eapply list_elem_of_lookup_2).
    destruct (bitset_step_Ok bw idx Hidx) as (w0 & Hw0 & ->).
    eexists. split; [done|]. split; [by rewrite length_insert|].
    rewrite (take_S_r _ _ _ Hk).
    assert (Hm : (idx `mod` 32 < 32)%nat) by (apply Nat.mod_upper_bound; lia).
    pose proof (Nat.div_mod_eq idx 32) as Hdm.
    intros j w Hj. destruct (decide (j = idx / 32)%nat) as [->|Hne].
    + rewrite list_lookup_insert_eq in Hj by (by eapply lookup_lt_Some).
      apply (inj Some) in Hj. subst w. destruct (Hbits _ _ Hw0) as [Hr Hb].
      split; [apply lor_bit_range; [done|lia]|].
      intros b Hb32. rewrite Z.lor_spec, Z.shiftl_1_l, Z.pow2_bits_eqb by lia.
      rewrite orb_true_iff, (Hb b Hb32), elem_of_app, list_elem_of_singleton.
      rewrite Z.eqb_eq. split; (intros [?|?]; [by left|right; lia]).
    + rewrite list_lookup_insert_ne in Hj by done.
      destruct (Hbits _ _ Hj) as [Hr Hb]. split; [done|].
      intros b Hb32. rewrite (Hb b Hb32), elem_of_app, list_elem_of_singleton.
      split; [by left|]. intros [?|Heq]; [done|]. exfalso. apply Hne.
      apply (Nat.div_unique _ _ _ b); lia.
  - rewrite firstn_all in Hbits. by exists words.
Qed.

(** An entry with a member beyond the words ends the run. *)
Lemma bitset_loop_Raise (d : list nat) (bitwords : list Z) (idx : nat) :
  idx ∈ d → (32 * length bitwords ≤ idx)%nat →
  for_each d bitset_step bitwords = Raise IndexError.
Proof.
  revert bitwords. induction d as [|x d IH]; intros bitwords Hin Hidx.
  - by apply elem_of_nil in Hin.
  - rewrite for_each_cons.
    destruct (decide (x < 32 * length bitwords)%nat) as [Hx|Hx].
    + destruct (bitset_step_Ok bitwords x Hx) as (w & _ & ->). rewrite bind_Ok.
      apply elem_of_cons in Hin as [->|Hin]; [lia|].
      apply IH; [done|]. by rewrite length_insert.
    + by rewrite bitset_step_Raise by lia.
Qed.

(** The words of an entry, read back: bit [idx mod 32] of word [idx // 32]
    is set exactly for the members [idx] of the entry. *)
Lemma bitset_loop_decode (item_size : nat) (d : list nat) :
  (∀ idx, idx ∈ d → (idx < 32 * item_size)%nat) →
  ∃ words, for_each d bitset_step (replicate item_size 0) = Ok words ∧
    length words = item_size ∧
    (∀ w, w ∈ words → 0 ≤ w < 2 ^ 32) ∧
    ∀ idx, idx ∈ d ↔
bit_set words idx.
Proof.
  intros Hrange.
  destruct (bitset_loop_spec item_size d Hrange) as (words & Hrun & Hlen & Hbits).
  exists words. split; [done|]. split; [done|]. split.
  - intros w [j Hj]%list_elem_of_lookup_1. by apply (Hbits j w).
  - intros idx. unfold bit_set.
    assert (Hm : (idx `mod` 32 < 32)%nat) by (apply Nat.mod_upper_bound; lia).
    pose proof (Nat.div_mod_eq idx 32) as Hdm. split.
    + intros Hin. specialize (Hrange idx Hin).
      assert (Hj : (idx / 32 < length words)%nat)
        by (apply Nat.Div0.div_lt_upper_bound; lia).
      destruct (lookup_lt_is_Some_2 words _ Hj) as [w Hw].
      exists w. split; [done|]. apply (Hbits _ _ Hw); [done|].
      by rewrite <- Hdm.
    + intros (w & Hw & Hbit). apply (Hbits _ _ Hw) in Hbit; [|done].
      by rewrite <- Hdm in Hbit.
Qed.

(** A loop that returns had every member within the words. *)
Lemma bitset_loop_Ok (item_size : nat) (d : list nat) (words : list Z) :
  for_each d bitset_step (replicate item_size 0) = Ok words →
  ∀ idx, idx ∈ d → (idx < 32 * item_size)%nat.
Proof.
  intros Hrun idx Hidx.
  destruct (decide (idx < 32 * item_size)%nat) as [|Hbig]; [done|].
  rewrite (bitset_loop_Raise d _ idx) in Hrun; [done|done|].
  rewrite length_replicate. lia.
Qed.

(** X6. The bit sets read back: when every member of every entry is below
    [32 * item_size], [write_bitsets] returns a row of [item_size] words for
    each entry, every word within 32 bits, and bit [idx mod 32] of word
    [idx // 32] of a row is set exactly when [idx] is a member of the
    entry. *)
Theorem write_bitsets_decode (lists : list (list nat)) (item_size : nat) :
  (∀ d idx, d ∈ lists → idx ∈ d → (idx < 32 * item_size)%nat) →
  ∃ rows, write_bitsets lists item_size = Ok rows ∧
    Forall2 (λ d words,
       length words = item_size ∧
       (∀ w, w ∈ words → 0 ≤ w < 2 ^ 32) ∧
       ∀ idx, idx ∈ d ↔
bit_set words idx) lists rows.
Proof.
  intros Hrange. apply map_result_Forall2. intros d Hd.
  apply bitset_loop_decode. intros idx. by apply Hrange.
Qed.

(** The row written for entry [k]. *)
Lemma write_bitsets_row (lists : list (list nat)) (item_size : nat)
    (rows : list (list Z)) (k : nat) (d : list nat) :
  write_bitsets lists item_size = Ok rows → lists !! k = Some d →
  ∃ words, rows !! k = Some words ∧ length words = item_size ∧
    ∀ idx, idx ∈ d ↔
bit_set words idx.
Proof.
  intros Hrows%map_result_Ok_Forall2 Hk.
  destruct (Forall2_lookup_l _ _ _ _ _ Hrows Hk) as (words & Hwords & Hrun).
  exists words. split; [done|].
  destruct (bitset_loop_decode item_size d (bitset_loop_Ok _ _ _ Hrun))
    as (words' & Hrun' & Hlen & _ & Hdec).
  rewrite Hrun in Hrun'. injection Hrun' as <-. by split.
Qed.

Lemma write_bitsets_lengths (lists : list (list nat)) (item_size : nat)
    (rows : list (list Z)) :
  write_bitsets lists item_size = Ok rows →
  length rows = length lists ∧ ∀ words, words ∈ rows → length words = item_size.
Proof.
  intros Hrows. pose proof (map_result_Ok_Forall2 _ _ _ Hrows) as Hall.
  split; [symmetry; by eapply Forall2_length|].
  intros words [k Hk]%list_elem_of_lookup_1.
  destruct (Forall2_lookup_r _ _ _ _ _ Hall Hk) as (d & Hd & _).
  destruct (write_bitsets_row _ _ _ _ _ Hrows Hd) as (words' & Hw & Hlen & _).
  congruence.
Qed.

(** X7. A member at or beyond [32 * item_size], in any entry, makes
    [write_bitsets] raise IndexError: the word [idx // 32] is not there. *)
Theorem write_bitsets_out_of_range (lists : list (list nat)) (item_size : nat)
    (d : list nat) (idx : nat) :
  d ∈ lists → idx ∈ d → (32 * item_size ≤ idx)%nat →
  write_bitsets lists item_size = Raise IndexError.
Proof.
  intros Hd Hidx Hbig. unfold write_bitsets.
  apply (map_result_Raise _ _ d); [done| |].
  - apply (bitset_loop_Raise d _ idx); [done|]. by rewrite length_replicate.
  - intros d' _.
    destruct (decide (Forall (λ i, i < 32 * item_size)%nat d')) as [Hall|Hex].
    + left. destruct (bitset_loop_spec item_size d') as (words & Hrun & _).
      { intros i Hi. by apply (proj1 (Forall_forall _ _) Hall). }
      by exists words.
    + right. apply not_Forall_Exists in Hex; [|apply _].
      apply Exists_exists in Hex as (i & Hi & Hbad).
      simpl in Hbad.
      apply (bitset_loop_Raise d' _ i); [done|]. rewrite length_replicate. lia.
Qed.

End bitset_facts.

Section read_table_more.
Context {G D V : Type} `{EqDecision V}.
Local Open Scope nat_scope.
Implicit Types (lines : list (nat * nat * D)) (table t : list V).

Lemma fill_step_spec (default_value value : V) t t' (i : nat) :
  fill_step default_value value t i = Ok t' ↔
  ∃ v, t !! i = Some v ∧
    t' = if decide (v = default_value) then <[i := value]> t else t.
Proof.
  unfold fill_step, py_getitem, py_setitem. split.
  - destruct (py_index (length t) (Z.of_nat i)) as [j|e] eqn:Hj; simpl; [|done].
    apply py_index_nat_Ok in Hj as [-> Hi].
    destruct (t !! i) as [v|]; simpl; [|done].
    intros Hstep. exists v. split; [done|].
    case_decide; by injection Hstep as <-.
  - intros (v & Hv & ->).
    rewrite py_index_nat by (by eapply lookup_lt_Some). simpl. rewrite Hv. simpl.
    by case_decide.
Qed.

(** The loop over the range of a line. *)
Lemma fill_loop_spec (default_value value : V) (len char : nat) t0 t1 :
  for_each (seq char len) (fill_step default_value value) t0 = Ok t1 →
  length t1 = length t0 ∧ (0 < len → char + len ≤ length t0) ∧
  ∀ c v0, t0 !! c = Some v0 →
    t1 !! c = Some (if decide (char ≤ c < char + len ∧ v0 = default_value)
                    then value else v0).
Proof.
  revert char t0. induction len as [|len IH]; intros char t0.
  - intros [= <-]. split; [done|]. split; [lia|].
    intros c v0 ->. rewrite decide_False by lia. done.
  - cbn [seq]. rewrite for_each_cons.
    destruct (fill_step default_value value t0 char) as [t'|] eqn:Hstep;
      simpl; [|done].
    apply fill_step_spec in Hstep as (vc & Hvc & ->).
    intros (Hlen & Hin & Hval)%IH.
    assert (Hchar : char < length t0) by (by eapply lookup_lt_Some).
    assert (Hlen' : length (if decide (vc = default_value)
                            then <[char := value]> t0 else t0) = length t0)
      by (case_decide; by rewrite ?length_insert).
    split; [congruence|]. split; [destruct len; lia|].
    intros c v0 Hc. destruct (decide (c = char)) as [->|Hne].
    + assert (v0 = vc) as -> by congruence.
      rewrite (Hval char (if decide (vc = default_value) then value else vc)).
      * rewrite (decide_False (P := S char ≤ char < _ ∧ _)) by lia.
        destruct (decide (vc = default_value)) as [Hd|Hd].
        -- by rewrite decide_True by (split; [lia|done]).
        -- by rewrite decide_False by tauto.
      * case_decide; [by rewrite list_lookup_insert_eq|done].
    + rewrite (Hval c v0).
      * f_equal. apply decide_ext. split; intros [? ?]; (split; [lia|done]).
      * case_decide; [by rewrite list_lookup_insert_ne|done].
Qed.

Lemma fill_loop_returns (default_value value : V) (len char : nat) t0 :
  (0 < len → char + len ≤ length t0) →
  ∃ t1, for_each (seq char len) (fill_step default_value value) t0 = Ok t1.
Proof.
  intros Hin.
  destruct (for_each_seq (λ _ t, length t = length t0)
              (fill_step default_value value) char len t0) as (t1 & Hrun & _);
    [done| |by exists t1].
  intros c t Hc Hlen.
  destruct (lookup_lt_is_Some_2 t c) as [v Hv]; [lia|].
  eexists. split; [apply fill_step_spec; by exists v|].
  case_decide; by rewrite ?length_insert.
Qed.

Lemma read_line_eq (get_value : G → D → result (G * V)) (default_value : V)
    (g : G) t0 (char last : nat) (d : D) :
  read_line get_value default_value (g, t0) (char, last, d) =
  r ← get_value g d;
  table ← for_each (seq char (last + 1 - char)) (fill_step default_value r.2) t0;
  Ok (r.1, table).
Proof. done. Qed.

(** The loop over the lines, from any table. *)
Lemma read_lines_spec (get_value : G → D → result (G * V)) (default_value : V)
    lines (g g' : G) t0 t :
  for_each lines (read_line get_value default_value) (g, t0) = Ok (g', t) →
  ∃ values, get_values get_value lines g = Ok (g', values) ∧
    length t = length t0 ∧
    (∀ char last d, (char, last, d) ∈ lines → char ≤ last → last < length t0) ∧
    ∀ c v0, t0 !! c = Some v0 →
      t !! c = Some (if decide (v0 = default_value)
                     then first_value default_value c lines values else v0).
Proof.
  revert g t0. induction lines as [|[[char last] d] lines IH]; intros g t0.
  - intros [= <- <-]. exists []. split; [done|]. split; [done|]. split.
    + intros char last d Hin. by apply elem_of_nil in Hin.
    + intros c v0 ->. simpl. by case_decide; subst.
  - rewrite for_each_cons, read_line_eq. cbn [get_values].
    destruct (get_value g d) as [[g1 v]|] eqn:Hget; simpl; [|done].
    destruct (for_each (seq char (last + 1 - char))
                (fill_step default_value v) t0) as [t1|] eqn:Hfill;
      simpl; [|done].
    apply fill_loop_spec in Hfill as (Hlen1 & Hin1 & Hval1).
    intros (values & Hvalues & Hlen & Hin & Hval)%IH.
    exists (v :: values). rewrite Hvalues. simpl.
    split; [done|]. split; [congruence|]. split.
    + intros char' last' d' [Heq|Hl]%elem_of_cons Hle.
      * injection Heq as -> -> ->. lia.
      * rewrite <- Hlen1. by apply (Hin char' last' d').
    + intros c v0 Hc. rewrite (Hval c _ (Hval1 c v0 Hc)).
      f_equal. clear IH Hval Hval1.
      rewrite (decide_ext (char ≤ c < char + (last + 1 - char) ∧ v0 = default_value)
                 (char ≤ c ≤ last ∧ v0 = default_value))
        by (split; intros [? ?]; (split; [lia|done])).
      destruct (decide (v0 = default_value)) as [->|Hv0];
        destruct (decide (v = default_value)) as [->|Hv];
        destruct (decide (char ≤ c ≤ last)) as [Hcov|Hcov];
        repeat (case_decide; try done); exfalso; intuition congruence.
Qed.

Lemma read_lines_returns (get_value : G → D → result (G * V)) (default_value : V)
    lines (g g' : G) (values : list V) t0 :
  get_values get_value lines g = Ok (g', values) →
  (∀ char last d, (char, last, d) ∈ lines → char ≤ last → last < length t0) →
  ∃ t, for_each lines (read_line get_value default_value) (g, t0) = Ok (g', t).
Proof.
  revert g values t0. induction lines as [|[[char last] d] lines IH];
    intros g values t0.
  - intros [= <- <-] _. by exists t0.
  - cbn [get_values]. rewrite for_each_cons, read_line_eq.
    destruct (get_value g d) as [[g1 v]|] eqn:Hget; simpl; [|done].
    destruct (get_values get_value lines g1) as [[g2 values']|] eqn:Hrest;
      simpl; [|done].
    intros [= <- <-] Hin.
    destruct (fill_loop_returns default_value v (last + 1 - char) char t0)
      as (t1 & Hfill).
    { intros Hpos.
      specialize (Hin char last d ltac:(apply elem_of_cons; by left)). lia. }
    rewrite Hfill. simpl.
    apply (IH g1 values'); [done|].
    apply fill_loop_spec in Hfill as (Hlen1 & _). rewrite Hlen1.
    intros char' last' d' Hl Hle.
    apply (Hin char' last' d'); [apply elem_of_cons; by right|done].
Qed.

(** X8. What [read_table] returns.  The call returns exactly when
    [get_value] returns for every line, in the order of the file and with
    its globals threaded from line to line, and no range reaches beyond the
    table.  Entry [c] of the table is then the value of the first line that
    has [c] in its range and a value other than the default, and the default
    when there is no such line: a value once set is not overwritten, and a
    line whose value is the default sets nothing. *)
Theorem read_table_first_value (n : nat) (get_value : G → D → result (G * V))
    (default_value : V) lines (g g' : G) table :
  read_table n get_value default_value lines g = Ok (g', table) ↔
  ∃ values,
    get_values get_value lines g = Ok (g', values) ∧
    (∀ char last d, (char, last, d) ∈ lines → char ≤ last → last < n) ∧
    table = (λ c, first_value default_value c lines values) <$> seq 0 n.
Proof.
  unfold read_table. split.
  - intros (values & Hvalues & Hlen & Hin & Hval)%read_lines_spec.
    rewrite length_replicate in Hlen, Hin.
    exists values. split; [done|]. split; [done|].
    apply list_eq. intros c. rewrite list_lookup_fmap.
    destruct (decide (c < n)) as [Hc|Hc].
    + rewrite (Hval c default_value) by (by apply lookup_replicate_2).
      rewrite decide_True by done. by rewrite lookup_seq_lt.
    + rewrite lookup_seq_ge by lia. apply lookup_ge_None. lia.
  - intros (values & Hvalues & Hin & ->).
    destruct (read_lines_returns get_value default_value lines g g' values
                (replicate n default_value) Hvalues) as (t & Hrun).
    { by rewrite length_replicate. }
    rewrite Hrun. f_equal. f_equal.
    apply read_lines_spec in Hrun as (values' & Hvalues' & Hlen & _ & Hval).
    rewrite Hvalues in Hvalues'. injection Hvalues' as <-.
    rewrite length_replicate in Hlen.
    apply list_eq. intros c. rewrite list_lookup_fmap.
    destruct (decide (c < n)) as [Hc|Hc].
    + rewrite (Hval c default_value) by (by apply lookup_replicate_2).
      rewrite decide_True by done. by rewrite lookup_seq_lt.
    + rewrite lookup_seq_ge by lia. apply lookup_ge_None. lia.
Qed.

End read_table_more.

Section first_value_facts.
Context {D V : Type} `{EqDecision V}.
Local Open Scope nat_scope.

(** A value other than the default is that of a line with the character in
    its range. *)
Lemma first_value_elem (default_value : V) (c : nat)
    (lines : list (nat * nat * D)) (values : list V) :
  first_value default_value c lines values ≠ default_value →
  ∃ k char last d,
    lines !! k = Some (char, last, d) ∧
    values !! k = Some (first_value default_value c lines values) ∧
    char ≤ c ≤ last.
Proof.
  revert values. induction lines as [|[[char last] d] lines IH];
    intros [|v values]; simpl; try done.
  case_decide as Hcov.
  - intros _. exists 0, char, last, d. by destruct Hcov.
  - intros (k & char' & last' & d' & Hk & Hv & Hc)%IH.
    by exists (S k), char', last', d'.
Qed.

End first_value_facts.

Section index_of_facts.
Context {A : Type} `{EqDecision A}.
Local Open Scope nat_scope.

(** [l.index(x)] is the first position of [x] in [l]. *)
Lemma py_list_index_Ok (l : list A) (x : A) (i : nat) :
  py_list_index l x = Ok i ↔ l !! i = Some x ∧ ∀ j, j < i → l !! j ≠ Some x.
Proof.
  revert i. induction l as [|y l IH]; intros i; simpl.
  - split; [done|]. by intros [? _].
  - case_decide as Heq.
    + subst. split.
      * intros [= <-]. split; [done|]. intros; lia.
      * intros [Hi Hfirst]. destruct i as [|i]; [done|].
        exfalso. by apply (Hfirst 0); [lia|].
    + split.
      * destruct (py_list_index l x) as [i'|] eqn:Hidx; simpl; [|done].
        intros [= <-]. destruct (proj1 (IH i') eq_refl) as [Hi Hfirst].
        split; [done|].
        intros [|j] Hj; simpl; [congruence|]. apply Hfirst. lia.
      * intros [Hi Hfirst]. destruct i as [|i]; simpl in Hi; [congruence|].
        rewrite (proj2 (IH i)); [done|]. split; [done|].
        intros j Hj. apply (Hfirst (S j)). lia.
Qed.

(** It raises, and then ValueError, exactly when [x] is not in [l]. *)
Lemma py_list_index_Raise (l : list A) (x : A) (e : exn) :
  py_list_index l x = Raise e ↔ e = ValueError ∧ x ∉ l.
Proof.
  induction l as [|y l IH]; simpl.
  - split; [intros [= <-]; split; [done|apply not_elem_of_nil]|by intros [-> _]].
  - rewrite not_elem_of_cons. case_decide as Heq.
    + subst. split; [done|]. by intros [_ [? _]].
    + split.
      * destruct (py_list_index l x) as [i|e'] eqn:Hidx; simpl; [done|].
        intros [= <-]. destruct (proj1 IH eq_refl) as [-> Hx]. split; [done|].
        split; [congruence|done].
      * intros [-> [_ Hx]]. rewrite (proj2 IH); [done|]. by split.
Qed.

End index_of_facts.

Section names_facts.
Local Open Scope nat_scope.

Lemma get_names_values (enum : list string) (lines : list (nat * nat * string))
    (g g' : unit) (values : list nat) :
  get_values (make_get_names enum) lines g = Ok (g', values) →
  Forall2 (λ ln i, py_list_index enum ln.2 = Ok i) lines values.
Proof.
  revert g values. induction lines as [|[[char last] d] lines IH];
    intros g values; simpl.
  - intros [= _ <-]. constructor.
  - assert (Hget : make_get_names enum g d =
                   (i ← py_list_index enum d; Ok (g, i))) by done.
    rewrite Hget. clear Hget.
    destruct (py_list_index enum d) as [i|] eqn:Hi; simpl; [|done].
    destruct (get_values (make_get_names enum) lines g) as [[g1 values']|]
      eqn:Hrest; simpl; [|done].
    intros [= <- <-]. constructor; [done|]. by eapply IH.
Qed.

(** X9. The tables of names, read with [make_get_names]: when [read_table]
    returns, every name on a line is in [enum] and every range is within the
    table, so that a name [enum] does not have keeps the call from
    returning; a character that no line names has the default; and an entry
    other than the default is the first position in [enum] of the name on a
    line that has the character in its range. *)
Theorem names_table_decode (n : nat) (enum : list string) (default_value : nat)
    (lines : list (nat * nat * string)) (g : unit) (table : list nat) :
  read_table n (make_get_names enum) default_value lines () = Ok (g, table) →
  length table = n ∧
  (∀ char last name, (char, last, name) ∈ lines →
     name ∈ enum ∧ (char ≤ last → last < n)) ∧
  (∀ c, c < n →
     (∀ char last name, (char, last, name) ∈ lines → ¬ (char ≤ c ≤ last)) →
     table !! c = Some default_value) ∧
  ∀ c i, table !! c = Some i → i ≠ default_value →
    ∃ char last name,
      (char, last, name) ∈ lines ∧ char ≤ c ≤ last ∧
      enum !! i = Some name ∧ ∀ j, j < i → enum !! j ≠ Some name.
Proof.
  intros Hread. pose proof (read_table_default _ _ _ _ _ _ _ Hread) as [_ Hdef].
  unfold read_table in Hread.
  apply read_lines_spec in Hread as (values & Hvalues & Hlen & Hin & Hval).
  rewrite length_replicate in Hlen, Hin.
  apply get_names_values in Hvalues.
  split; [done|]. split; [|split; [done|]].
  - intros char last name Hl. split; [|by apply (Hin char last name)].
    apply list_elem_of_lookup_1 in Hl as [k Hk].
    destruct (Forall2_lookup_l _ _ _ _ _ Hvalues Hk) as (i & _ & Hi).
    apply py_list_index_Ok in Hi as [Hi _]. by eapply list_elem_of_lookup_2.
  - intros c i Hc Hi.
    assert (Hcn : c < n) by (apply lookup_lt_Some in Hc; lia).
    rewrite (Hval c default_value) in Hc by (by apply lookup_replicate_2).
    rewrite decide_True in Hc by done. injection Hc as Hc.
    destruct (first_value_elem default_value c lines values)
      as (k & char & last & name & Hk & Hv & Hcov); [by rewrite Hc|].
    rewrite Hc in Hv.
    pose proof (Forall2_lookup_lr _ _ _ _ _ _ Hvalues Hk Hv) as Hidx.
    apply py_list_index_Ok in Hidx as [Hname Hfirst].
    exists char, last, name. split; [by eapply list_elem_of_lookup_2|]. done.
Qed.

End names_facts.

Section scriptx_more.
Local Open Scope nat_scope.
Implicit Types (g : list (list nat) * string).

Lemma get_script_extension_spec (script_abbrevs : list string)
    (script_list_item_size : nat) g g' (chardata1 : string) (v : Z) :
  script_state script_abbrevs g →
  get_script_extension script_abbrevs script_list_item_size g chardata1
    = Ok (g', v) →
  script_state script_abbrevs g' ∧ g.1 `prefix_of` g'.1 ∧
  ∃ j, v = Z.of_nat (j * script_list_item_size) ∧
    (j = 0 ∨ ∃ ids, g'.1 !! j = Some ids ∧
               script_ids script_abbrevs chardata1 = Ok ids).
Proof.
  destruct g as [script_lists last_ext]. intros [H0 Hlast].
  unfold get_script_extension. case_decide as Heq.
  - intros [= <- <-]. split; [by split|]. split; [done|]. simpl in *.
    destruct Hlast as [[-> Hlen]|(ids & Hids & Hl & Hlen)].
    + exists 0. split; [rewrite Hlen; lia|by left].
    + exists (length script_lists - 1). split; [nia|]. right.
      exists ids. subst. split; [|done].
      rewrite last_lookup in Hl.
      by replace (length script_lists - 1) with (pred (length script_lists)) by lia.
  - fold (script_ids script_abbrevs chardata1).
    destruct (script_ids script_abbrevs chardata1) as [ids|] eqn:Hids;
      simpl; [|done].
    intros [= <- <-]. simpl in *.
    assert (Hpos : 0 < length script_lists) by (by eapply lookup_lt_Some).
    split; [split|split].
    + simpl. by rewrite lookup_app_l.
    + right. exists ids. simpl. rewrite last_snoc, length_app. simpl.
      split; [done|]. split; [done|lia].
    + by apply prefix_app_r.
    + exists (length script_lists). split; [done|]. right. exists ids.
      split; [|done]. by rewrite lookup_app_r, Nat.sub_diag.
Qed.

Lemma script_values (script_abbrevs : list string) (script_list_item_size : nat)
    (lines : list (nat * nat * string)) g g' (values : list Z) :
  script_state script_abbrevs g →
  get_values (get_script_extension script_abbrevs script_list_item_size)
    lines g = Ok (g', values) →
  script_state script_abbrevs g' ∧ g.1 `prefix_of` g'.1 ∧
  Forall2 (λ ln v,
     ∃ j, v = Z.of_nat (j * script_list_item_size) ∧
       (j = 0 ∨ ∃ ids, g'.1 !! j = Some ids ∧
                  script_ids script_abbrevs ln.2 = Ok ids)) lines values.
Proof.
  revert g values. induction lines as [|[[char last] d] lines IH];
    intros g values Hg; simpl.
  - intros [= <- <-]. split; [done|]. split; [done|constructor].
  - destruct (get_script_extension _ _ g d) as [[g1 v]|] eqn:Hget;
      simpl; [|done].
    destruct (get_values _ lines g1) as [[g2 values']|] eqn:Hrest;
      simpl; [|done].
    intros [= <- <-].
    destruct (get_script_extension_spec _ _ _ _ _ _ Hg Hget)
      as (Hg1 & Hpre1 & j & Hv & Hj).
    destruct (IH _ _ Hg1 Hrest) as (Hg2 & Hpre2 & Hall).
    split; [done|]. split; [by etrans|].
    constructor; [|done]. exists j. split; [done|].
    destruct Hj as [->|(ids & Hids & Hd)]; [by left|]. right. exists ids.
    split; [by eapply prefix_lookup_Some|done].
Qed.

Lemma script_ids_spec (script_abbrevs : list string) (chardata1 : string)
    (ids : list nat) :
  script_ids script_abbrevs chardata1 = Ok ids →
  Forall2 (λ abbrev id, py_list_index script_abbrevs abbrev = Ok id)
    (py_split_space chardata1 EmptyString) ids.
Proof. apply map_result_Ok_Forall2. Qed.

(** The entry of [script_lists] that an offset of [scriptx] leads to. *)
Lemma make_scriptx_entry (n : nat) (script_abbrevs : list string)
    (script_list_item_size : nat) (lines : list (nat * nat * string))
    (script_lists : list (list nat)) (last_ext : string) (scriptx : list Z)
    (c : nat) (v : Z) :
  make_scriptx n script_abbrevs script_list_item_size lines
    = Ok ((script_lists, last_ext), scriptx) →
  scriptx !! c = Some v → v ≠ 0%Z →
  ∃ j char last chardata1 ids,
    (char, last, chardata1) ∈ lines ∧ char ≤ c ≤ last ∧
    v = Z.of_nat (j * script_list_item_size) ∧
    script_lists !! j = Some ids ∧
    script_ids script_abbrevs chardata1 = Ok ids.
Proof.
  intros Hmake Hc Hv. unfold make_scriptx, read_table in Hmake.
  apply read_lines_spec in Hmake as (values & Hvalues & Hlen & _ & Hval).
  rewrite length_replicate in Hlen.
  apply script_values in Hvalues as (_ & _ & Hall);
    [|split; [done|by left]].
  assert (Hcn : c < n) by (apply lookup_lt_Some in Hc; lia).
  rewrite (Hval c 0%Z) in Hc by (by apply lookup_replicate_2).
  rewrite decide_True in Hc by done. injection Hc as Hc.
  destruct (first_value_elem 0%Z c lines values)
    as (k & char & last & d & Hk & Hvk & Hcov); [by rewrite Hc|].
  rewrite Hc in Hvk.
  destruct (Forall2_lookup_lr _ _ _ _ _ _ Hall Hk Hvk) as (j & -> & Hj).
  destruct Hj as [->|(ids & Hids & Hd)]; [simpl in Hv; lia|].
  exists j, char, last, d, ids.
  split; [by eapply list_elem_of_lookup_2|]. done.
Qed.

(** X10. The script extension offsets read back: an offset of [scriptx]
    other than 0 is [j * script_list_item_size] for an entry [j >= 1] of
    [script_lists], and that entry lists, in their order, the positions in
    [script_abbrevs] of the abbreviations on a line that has the character
    in its range. *)
Theorem make_scriptx_decode (n : nat) (script_abbrevs : list string)
    (script_list_item_size : nat) (lines : list (nat * nat * string))
    (script_lists : list (list nat)) (last_ext : string) (scriptx : list Z) :
  make_scriptx n script_abbrevs script_list_item_size lines
    = Ok ((script_lists, last_ext), scriptx) →
  ∀ c v, scriptx !! c = Some v → v ≠ 0%Z →
    ∃ j char last chardata1 ids,
      (char, last, chardata1) ∈ lines ∧ char ≤ c ≤ last ∧
      v = Z.of_nat (j * script_list_item_size) ∧ 1 ≤ j ∧
      script_lists !! j = Some ids ∧
      Forall2 (λ abbrev id, script_abbrevs !! id = Some abbrev)
        (py_split_space chardata1 EmptyString) ids.
Proof.
  intros Hmake c v Hc Hv.
  destruct (make_scriptx_entry _ _ _ _ _ _ _ _ _ Hmake Hc Hv)
    as (j & char & last & d & ids & Hl & Hcov & -> & Hj & Hids).
  exists j, char, last, d, ids. split; [done|]. split; [done|].
  split; [done|]. split; [destruct j; [simpl in Hv; lia|lia]|].
  split; [done|].
  apply script_ids_spec in Hids.
  eapply Forall2_impl; [exact Hids|]. simpl.
  intros abbrev id Hidx. by apply py_list_index_Ok in Hidx as [? _].
Qed.

End scriptx_more.

Section bitset_tables.
Local Open Scope nat_scope.

(** Rows of one length written one after the other: row [j] is found at
    [j] times the length. *)
Lemma concat_block {A : Type} (rows : list (list A)) (w j : nat) (row : list A) :
  (∀ r, r ∈ rows → length r = w) → rows !! j = Some row →
  take w (drop (j * w) (concat rows)) = row.
Proof.
  revert j. induction rows as [|r rows IH]; intros j Hall Hj; [done|].
  assert (Hr : length r = w) by (apply Hall, elem_of_cons; by left).
  destruct j as [|j]; simpl in *.
  - injection Hj as ->. rewrite <- Hr, drop_0. by rewrite take_app_length.
  - rewrite <- Hr at 2. rewrite drop_app_add. apply IH; [|done].
    intros r' Hr'. apply Hall, elem_of_cons. by right.
Qed.

(** X11. From the script extension offset to the bits: in the table of bit
    sets that [write_bitsets] writes for [script_lists], the words at an
    offset of [scriptx] other than 0 have bit [idx] set exactly when [idx]
    is the position in [script_abbrevs] of an abbreviation on a line that
    has the character in its range. *)
Theorem script_sets_decode (n : nat) (script_abbrevs : list string)
    (script_list_item_size : nat) (lines : list (nat * nat * string))
    (script_lists : list (list nat)) (last_ext : string) (scriptx : list Z)
    (rows : list (list Z)) :
  make_scriptx n script_abbrevs script_list_item_size lines
    = Ok ((script_lists, last_ext), scriptx) →
  write_bitsets script_lists script_list_item_size = Ok rows →
  ∀ c v, scriptx !! c = Some v → v ≠ 0%Z →
    ∃ char last chardata1,
      (char, last, chardata1) ∈ lines ∧ char ≤ c ≤ last ∧ (0 < v)%Z ∧
      ∀ idx,
        bit_set (take script_list_item_size (drop (Z.to_nat v) (concat rows))) idx
        ↔ ∃ abbrev, abbrev ∈ py_split_space chardata1 EmptyString ∧
            py_list_index script_abbrevs abbrev = Ok idx.
Proof.
  intros Hmake Hrows c v Hc Hv.
  destruct (make_scriptx_entry _ _ _ _ _ _ _ _ _ Hmake Hc Hv)
    as (j & char & last & d & ids & Hl & Hcov & -> & Hj & Hids).
  destruct (write_bitsets_row _ _ _ _ _ Hrows Hj) as (words & Hwords & Hlen & Hbits).
  destruct (write_bitsets_lengths _ _ _ Hrows) as [_ Hlens].
  exists char, last, d. split; [done|]. split; [done|]. split; [lia|].
  intros idx. rewrite Nat2Z.id, (concat_block rows _ j words Hlens Hwords).
  rewrite <- Hbits. apply script_ids_spec in Hids. split.
  - intros [i Hi]%list_elem_of_lookup_1.
    destruct (Forall2_lookup_r _ _ _ _ _ Hids Hi) as (abbrev & Hab & Hidx).
    exists abbrev. split; [by eapply list_elem_of_lookup_2|done].
  - intros (abbrev & [i Hi]%list_elem_of_lookup_1 & Hidx).
    destruct (Forall2_lookup_l _ _ _ _ _ Hids Hi) as (idx' & Hidx' & Hidx2).
    rewrite Hidx in Hidx2. injection Hidx2 as <-.
    by eapply list_elem_of_lookup_2.
Qed.

(** The index stamped on a character is that of an entry with its set of
    properties. *)
Lemma make_bool_props_stamp (n : nat) (bprops : list (list nat)) (i0 : nat)
    (lists : list (list nat)) (bool_props : list nat) :
  length bprops = n →
  make_bool_props n bprops i0 = Ok (lists, bool_props) →
  ∀ c b, bprops !! c = Some b →
    ∃ k l, bool_props !! c = Some k ∧ lists !! k = Some l ∧
      (list_to_set l : gset nat) = list_to_set b.
Proof.
  intros Hn Hmake.
  destruct (for_each_seq (bool_props_inv bprops n) (bool_props_step bprops)
              0 n ([[]], replicate n 0, i0)) as ([[lists' bool_props'] i] & Hrun & Hinv).
  { split; [apply length_replicate|]. split; [done|]. split.
    - intros [|j] [|k] l1 l2 Hj Hk _; simpl in *; try done.
    - intros c' b Hc'. lia. }
  { intros c st Hc Hst.
    apply (bool_props_step_inv bprops n c st); [done|lia|done]. }
  unfold make_bool_props in Hmake. rewrite Hrun in Hmake. simpl in Hmake.
  injection Hmake as <- <-.
  destruct Hinv as (_ & _ & _ & Hdone). simpl in Hdone.
  intros c b Hb. apply Hdone; [|done]. apply lookup_lt_Some in Hb. lia.
Qed.

(** X12. From the index of the Boolean properties to the bits: in the
    table that [write_bitsets] writes for [bool_props_lists], the words of
    entry [bool_props[c]] have bit [idx] set exactly when [idx] is one of
    the properties collected for the character [c]. *)
Theorem boolprop_sets_decode (n : nat) (bprops : list (list nat)) (i0 : nat)
    (item_size : nat) (lists : list (list nat)) (bool_props : list nat)
    (rows : list (list Z)) :
  length bprops = n →
  make_bool_props n bprops i0 = Ok (lists, bool_props) →
  write_bitsets lists item_size = Ok rows →
  ∀ c b, bprops !! c = Some b →
    ∃ k, bool_props !! c = Some k ∧
      ∀ idx,
        bit_set (take item_size (drop (k * item_size) (concat rows))) idx
        ↔ idx ∈ b.
Proof.
  intros Hn Hmake Hrows c b Hb.
  destruct (make_bool_props_stamp _ _ _ _ _ Hn Hmake c b Hb)
    as (k & l & Hk & Hl & Hset).
  destruct (write_bitsets_row _ _ _ _ _ Hrows Hl) as (words & Hwords & Hlen & Hbits).
  destruct (write_bitsets_lengths _ _ _ Hrows) as [_ Hlens].
  exists k. split; [done|]. intros idx.
  rewrite (concat_block rows _ k words Hlens Hwords), <- Hbits.
  rewrite <- (elem_of_list_to_set (C := gset nat) idx l), Hset.
  apply elem_of_list_to_set.
Qed.

End bitset_tables.

Section bprops_facts.
Local Open Scope nat_scope.
Implicit Types (bprops : list (list nat)).

Lemma bprops_append_spec (ix : nat) bprops bprops' (i : nat) :
  bprops_append ix bprops i = Ok bprops' ↔
  ∃ b, bprops !! i = Some b ∧ bprops' = <[i := b ++ [ix]]> bprops.
Proof.
  unfold bprops_append, py_getitem, py_setitem. split.
  - destruct (py_index (length bprops) (Z.of_nat i)) as [j|] eqn:Hj;
      simpl; [|done].
    apply py_index_nat_Ok in Hj as [-> Hi].
    destruct (bprops !! i) as [b|]; simpl; [|done].
    intros [= <-]. by exists b.
  - intros (b & Hb & ->).
    rewrite py_index_nat by (by eapply lookup_lt_Some). simpl. by rewrite Hb.
Qed.

(** A loop of appends of one property. *)
Lemma bprops_loop_spec (ix : nat) (xs : list nat) bprops bprops' :
  for_each xs (bprops_append ix) bprops = Ok bprops' →
  length bprops' = length bprops ∧
  (∀ x, x ∈ xs → x < length bprops) ∧
  ∀ c jx, has_prop bprops' c jx ↔
    has_prop bprops c jx ∨ jx = ix ∧ c ∈ xs.
Proof.
  revert bprops. induction xs as [|x xs IH]; intros bprops.
  - intros [= <-]. split; [done|]. split; [intros x Hx; by apply elem_of_nil in Hx|].
    intros c jx. rewrite elem_of_nil. tauto.
  - rewrite for_each_cons.
    destruct (bprops_append ix bprops x) as [bp1|] eqn:Hstep; simpl; [|done].
    apply bprops_append_spec in Hstep as (b & Hb & ->).
    intros (Hlen & Hin & Hprop)%IH. rewrite length_insert in Hlen, Hin.
    assert (Hx : x < length bprops) by (by eapply lookup_lt_Some).
    split; [done|]. split.
    { intros y [->|Hy]%elem_of_cons; [done|by apply Hin]. }
    intros c jx. rewrite Hprop, elem_of_cons. unfold has_prop.
    destruct (decide (c = x)) as [->|Hne].
    + rewrite list_lookup_insert_eq by done. split.
      * intros [(b' & [= <-] & [Hj|Hj]%elem_of_app)|[-> Hc]].
        -- left. by exists b.
        -- apply list_elem_of_singleton in Hj as ->. right. split; [done|by left].
        -- right. split; [done|by left].
      * intros [(b' & Hb' & Hj)|[-> _]].
        -- left. exists (b ++ [ix]). split; [done|].
           assert (b' = b) as -> by congruence. apply elem_of_app. by left.
        -- left. exists (b ++ [ix]). split; [done|].
           apply elem_of_app. right. by apply list_elem_of_singleton.
    + rewrite list_lookup_insert_ne by done. split.
      * intros [?|[-> Hc]]; [by left|]. right. split; [done|by right].
      * intros [?|[-> [?|Hc]]]; [by left|done|]. by right.
Qed.

(** The loop over the lines of the property files. *)
Lemma bprops_lines_spec (bool_properties : list string)
    (lines : list (nat * nat * string)) bprops bprops' :
  for_each lines (bprops_line bool_properties) bprops = Ok bprops' →
  length bprops' = length bprops ∧
  (∀ char last name ix, (char, last, name) ∈ lines →
     py_list_index bool_properties name = Ok ix → char ≤ last →
     last < length bprops) ∧
  ∀ c jx, has_prop bprops' c jx ↔
    has_prop bprops c jx ∨
    ∃ char last name, (char, last, name) ∈ lines ∧ char ≤ c ≤ last ∧
      py_list_index bool_properties name = Ok jx.
Proof.
  revert bprops. induction lines as [|[[char last] name] lines IH]; intros bprops.
  - intros [= <-]. split; [done|]. split.
    { intros ? ? ? ? Hl. by apply elem_of_nil in Hl. }
    intros c jx. split; [by left|]. intros [?|(? & ? & ? & Hl & _)]; [done|].
    by apply elem_of_nil in Hl.
  - rewrite for_each_cons.
    assert (Hline : bprops_line bool_properties bprops (char, last, name) =
              match py_list_index bool_properties name with
              | Ok ix =>
                  for_each (seq char (last + 1 - char)) (bprops_append ix) bprops
              | Raise ValueError => Ok bprops
              | Raise e => Raise e
              end) by done.
    rewrite Hline. clear Hline.
    destruct (py_list_index bool_properties name) as [ix|e] eqn:Hidx.
    + destruct (for_each (seq char (last + 1 - char)) _ bprops) as [bp1|]
        eqn:Hloop; simpl; [|done].
      apply bprops_loop_spec in Hloop as (Hlen1 & Hin1 & Hprop1).
      intros (Hlen & Hin & Hprop)%IH.
      split; [congruence|]. split.
      { intros char' last' name' ix' [Heq|Hl]%elem_of_cons Hidx' Hle.
        - injection Heq as -> -> ->. apply (Hin1 last), elem_of_seq. lia.
        - rewrite <- Hlen1. by apply (Hin char' last' name' ix'). }
      intros c jx. rewrite Hprop, Hprop1, elem_of_seq. split.
      * intros [[?|[-> Hc]]|(char' & last' & name' & Hl & Hc & Hi)].
        -- by left.
        -- right. exists char, last, name.
           split; [apply elem_of_cons; by left|]. split; [lia|done].
        -- right. exists char', last', name'.
           split; [apply elem_of_cons; by right|done].
      * intros [?|(char' & last' & name' & [Heq|Hl]%elem_of_cons & Hc & Hi)].
        -- left. by left.
        -- injection Heq as -> -> ->. left. right.
           split; [congruence|lia].
        -- right. by exists char', last', name'.
    + apply py_list_index_Raise in Hidx as [-> Hnot]. simpl.
      intros (Hlen & Hin & Hprop)%IH. split; [done|]. split.
      { intros char' last' name' ix' [Heq|Hl]%elem_of_cons Hidx' Hle.
        - injection Heq as -> -> ->. exfalso. apply Hnot.
          apply py_list_index_Ok in Hidx' as [Hi _].
          by eapply list_elem_of_lookup_2.
        - by apply (Hin char' last' name' ix'). }
      intros c jx. rewrite Hprop. split.
      * intros [?|(char' & last' & name' & Hl & Hc & Hi)]; [by left|].
        right. exists char', last', name'.
        split; [apply elem_of_cons; by right|done].
      * intros [?|(char' & last' & name' & [Heq|Hl]%elem_of_cons & Hc & Hi)].
        -- by left.
        -- injection Heq as -> -> ->. exfalso. apply Hnot.
           apply py_list_index_Ok in Hi as [Hi _].
           by eapply list_elem_of_lookup_2.
        -- right. by exists char', last', name'.
Qed.

(** X20. The collection of the Boolean properties: when it returns, the
    table has at least the 128 ASCII characters and every mirrored
    character is within it; a character has a property exactly when a line
    of the property files with a name of [bool_properties] has it in its
    range and names the property, or the property is ASCII and the
    character is below 128, or the property is Bidi_Mirrored and the
    character is listed as mirrored; a line with a name that
    [bool_properties] does not have adds nothing. *)
Theorem collect_bprops_spec (n : nat) (bool_properties : list string)
    (lines : list (nat * nat * string)) (mirrored : list nat)
    (bprops : list (list nat)) :
  collect_bprops n bool_properties lines mirrored = Ok bprops →
  length bprops = n ∧ 128 ≤ n ∧
  (∀ c, c ∈ mirrored → c < n) ∧
  ∀ c ix, has_prop bprops c ix ↔
    (∃ char last name, (char, last, name) ∈ lines ∧ char ≤ c ≤ last ∧
       py_list_index bool_properties name = Ok ix) ∨
    (c < 128 ∧ py_list_index bool_properties "ASCII" = Ok ix) ∨
    (c ∈ mirrored ∧ py_list_index bool_properties "Bidi_Mirrored" = Ok ix).
Proof.
  unfold collect_bprops.
  destruct (for_each lines _ _) as [bp1|] eqn:Hlines;
    [rewrite bind_Ok|by intros [=]].
  destruct (py_list_index bool_properties "ASCII") as [ia|] eqn:Hia;
    [rewrite bind_Ok|by intros [=]].
  destruct (for_each (seq 0 128) (bprops_append ia) bp1) as [bp2|] eqn:Hascii;
    [rewrite bind_Ok|by intros [=]].
  destruct (py_list_index bool_properties "Bidi_Mirrored") as [im|] eqn:Him;
    [rewrite bind_Ok|by intros [=]].
  intros (Hlen3 & Hin3 & Hprop3)%bprops_loop_spec.
  apply bprops_loop_spec in Hascii as (Hlen2 & Hin2 & Hprop2).
  apply bprops_lines_spec in Hlines as (Hlen1 & _ & Hprop1).
  rewrite length_replicate in Hlen1.
  split; [congruence|]. split.
  { specialize (Hin2 127). rewrite elem_of_seq in Hin2. lia. }
  split; [intros c Hc; specialize (Hin3 c Hc); lia|].
  intros c ix. rewrite Hprop3, Hprop2, Hprop1, elem_of_seq.
  assert (Hnone : ¬ has_prop (replicate n []) c ix).
  { intros (b & [-> _]%lookup_replicate & Hb). by apply elem_of_nil in Hb. }
  split.
  - intros [[[?|?]|[-> Hc]]|[-> Hc]]; [done|by left| |].
    + right. left. split; [lia|done].
    + right. right. done.
  - intros [?|[[Hc Hi]|[Hc Hi]]].
    + left. left. by right.
    + left. right. split; [congruence|lia].
    + right. split; [congruence|done].
Qed.

End bprops_facts.

Section bool_props_more.
Local Open Scope nat_scope.
Implicit Types (lists bprops : list (list nat)).

Lemma bool_props_step_catalogue bprops n c st :
  length bprops = n → c < n →
  bool_props_inv bprops n c st → catalogue_upto bprops c st →
  ∃ st', bool_props_step bprops st c = Ok st' ∧
    bool_props_inv bprops n (S c) st' ∧ catalogue_upto bprops (S c) st'.
Proof.
  intros Hn Hc Hinv Hcat.
  destruct (bool_props_step_inv bprops n c st Hn Hc Hinv) as (st' & Hstep & Hinv').
  exists st'. split; [done|]. split; [done|].
  destruct st as [[lists bool_props] i].
  destruct Hinv as (Hlen & H0 & Huniq & Hdone).
  destruct (lookup_lt_is_Some_2 bprops c) as [b Hb]; [lia|].
  unfold bool_props_step in Hstep.
  rewrite (py_getitem_nat _ _ _ Hb) in Hstep. simpl in Hstep.
  pose proof (bool_props_find_spec (list_to_set b) lists 0 i) as Hfind.
  destruct (bool_props_find (list_to_set b) lists 0 i) as [i' [|]].
  - rewrite py_setitem_nat in Hstep by lia. simpl in Hstep. injection Hstep as <-.
    intros k l Hk Hl. simpl in Hl.
    destruct (Hcat k l Hk Hl) as (c' & Hc' & Hbc' & Hst & Hfirst).
    exists c'. split; [lia|]. split; [done|]. split; [|done].
    simpl in *. rewrite list_lookup_insert_ne by lia. done.
  - destruct Hfind as (Hno & _ & Hlast).
    assert (Hne : lists ≠ []) by (intros ->; by rewrite lookup_nil in H0).
    specialize (Hlast Hne). rewrite Nat.add_0_l in Hlast.
    rewrite py_setitem_nat in Hstep by lia. simpl in Hstep. injection Hstep as <-.
    intros k l Hk Hl. simpl in Hl.
    apply lookup_app_Some in Hl as [Hl|[Hge Hl]].
    + destruct (Hcat k l Hk Hl) as (c' & Hc' & Hbc' & Hst & Hfirst).
      exists c'. split; [lia|]. split; [done|]. split; [|done].
      simpl in *. rewrite list_lookup_insert_ne by lia. done.
    + apply list_lookup_singleton_Some in Hl as [Hk0 <-].
      exists c. split; [lia|]. split; [done|]. split.
      * simpl. rewrite list_lookup_insert_eq by lia. f_equal. lia.
      * intros c'' b'' Hc'' Hb'' Heq.
        destruct (Hdone c'' b'' Hc'' Hb'') as (k'' & l'' & _ & Hl'' & Hs'').
        apply (Hno k'' l'' Hl''). congruence.
Qed.

(** X19. The catalogue of the Boolean properties: the run returns; the
    catalogue has at most one entry for each character besides entry 0;
    every index stamped is that of an entry; and every entry but entry 0
    is, as it was written, the list of the first character with its set of
    properties, which is stamped with the index of the entry. *)
Theorem bool_props_catalogue_entries (n : nat) (bprops : list (list nat))
    (i0 : nat) :
  length bprops = n →
  ∃ lists bool_props,
    make_bool_props n bprops i0 = Ok (lists, bool_props) ∧
    length lists ≤ S n ∧
    (∀ k, k ∈ bool_props → k < length lists) ∧
    ∀ k l, 1 ≤ k → lists !! k = Some l →
      ∃ c, bprops !! c = Some l ∧ bool_props !! c = Some k ∧
        ∀ c' b, c' < c → bprops !! c' = Some b →
          (list_to_set b : gset nat) ≠ list_to_set l.
Proof.
  intros Hn.
  destruct (for_each_seq
    (λ c st, bool_props_inv bprops n c st ∧ catalogue_upto bprops c st ∧
             length st.1.1 ≤ S c ∧
             ∀ k, k ∈ st.1.2 → k < length st.1.1)
    (bool_props_step bprops) 0 n ([[]], replicate n 0, i0))
    as ([[lists bool_props] i] & Hrun & Hinv & Hcat & Hcount & Hrange).
  { split; [|split; [|split]].
    - split; [apply length_replicate|]. split; [done|]. split.
      + intros [|j] [|k] l1 l2 Hj Hk _; simpl in *; try done.
      + intros c' b Hc'. lia.
    - intros [|k] l Hk Hl; simpl in *; [lia|done].
    - simpl. lia.
    - simpl. intros k [-> _]%elem_of_replicate. lia. }
  { intros c st Hc (Hinv & Hcat & Hcount & Hrange).
    destruct (bool_props_step_catalogue bprops n c st Hn ltac:(lia) Hinv Hcat)
      as (st' & Hstep & Hinv' & Hcat').
    exists st'. split; [done|]. split; [done|]. split; [done|].
    destruct st as [[lists bool_props] i].
    destruct Hinv as (Hlen & H0 & _).
    destruct (lookup_lt_is_Some_2 bprops c) as [b Hb]; [lia|].
    unfold bool_props_step in Hstep.
    rewrite (py_getitem_nat _ _ _ Hb) in Hstep. simpl in Hstep.
    pose proof (bool_props_find_spec (list_to_set b) lists 0 i) as Hfind.
    assert (Hne : lists ≠ []) by (intros ->; by rewrite lookup_nil in H0).
    destruct (bool_props_find (list_to_set b) lists 0 i) as [i' [|]];
      rewrite py_setitem_nat in Hstep by lia; simpl in Hstep;
      injection Hstep as <-; simpl in *.
    - destruct Hfind as (j & l & -> & Hj & _). split; [lia|].
      intros k [p Hp]%list_elem_of_lookup_1.
      destruct (decide (p = c)) as [->|Hpc].
      + rewrite list_lookup_insert_eq in Hp by lia. injection Hp as <-.
        by eapply lookup_lt_Some.
      + rewrite list_lookup_insert_ne in Hp by done.
        apply Hrange. by eapply list_elem_of_lookup_2.
    - destruct Hfind as (_ & _ & Hlast). specialize (Hlast Hne).
      rewrite length_app. simpl. split; [lia|].
      intros k [p Hp]%list_elem_of_lookup_1.
      destruct (decide (p = c)) as [->|Hpc].
      + rewrite list_lookup_insert_eq in Hp by lia. injection Hp as <-. lia.
      + rewrite list_lookup_insert_ne in Hp by done.
        assert (k < length lists); [|lia].
        apply Hrange. by eapply list_elem_of_lookup_2. }
  exists lists, bool_props. unfold make_bool_props. rewrite Hrun. simpl in *.
  split; [done|]. split; [lia|]. split; [done|].
  intros k l Hk Hl. destruct (Hcat k l Hk Hl) as (c & _ & ? & ? & ?).
  by exists c.
Qed.

End bool_props_more.

Section repair_closed.
Variables (n : nat) (other_case0 : list Z).

(** A pass of the first loop on a table whose offsets stay within it. *)
Lemma repair_step_closed (c : nat) (other_case : list Z) :
  (c < n)%nat → closed_table n other_case →
  length other_case0 = n →
  repaired_upto other_case0 c other_case →
  ∃ other_case', repair_step other_case c = Ok other_case' ∧
    closed_table n other_case' ∧ repaired_upto other_case0 (S c) other_case'.
Proof.
  intros Hc [Hlen Hclosed] Hlen0 (_ & Hsrc & Hzero & Hvisited).
  destruct (lookup_lt_is_Some_2 other_case c) as [d Hd]; [lia|].
  pose proof (Hclosed c d Hd) as Hcd.
  unfold repair_step. rewrite (py_getitem_nat _ _ _ Hd), bind_Ok.
  assert (Hkeep : ∀ T, T = other_case →
            (∀ d0 o, other_case0 !! c = Some d0 → d0 ≠ 0 →
               Z.of_nat o = Z.of_nat c + d0 → other_case !! o ≠ Some 0) →
            closed_table n T ∧ repaired_upto other_case0 (S c) T).
  { intros T -> Hnew. split; [by split|]. split; [lia|]. split; [done|].
    split; [done|]. intros c' d' o Hc' Hd' Hnz Ho.
    destruct (decide (c' = c)) as [->|Hne]; [by apply (Hnew d' o)|].
    apply (Hvisited c' d' o); [lia|done..]. }
  case_bool_decide as Hnz; last first.
  { eexists. split; [done|]. apply Hkeep; [done|].
    intros d0 o Hd0 Hd0nz _. rewrite (Hsrc c d0 Hd0 Hd0nz) in Hd. congruence. }
  destruct (py_getitem_within other_case (Z.of_nat c + d)) as (r & Hr & ->); [lia|].
  rewrite bind_Ok. case_bool_decide as Hrz; last first.
  { eexists. split; [done|]. apply Hkeep; [done|].
    intros d0 o Hd0 Hd0nz Ho. rewrite (Hsrc c d0 Hd0 Hd0nz) in Hd.
    injection Hd as ->. rewrite <- Ho, Nat2Z.id in Hr. congruence. }
  subst r.
  assert (Hc0 : other_case0 !! c = Some d).
  { destruct (lookup_lt_is_Some_2 other_case0 c) as [d0 Hd0]; [lia|].
    destruct (decide (d0 = 0)) as [->|Hd0nz].
    - destruct (Hzero c Hd0) as [Hz|(m & dm & Hm & Hdm & Hmo & Hz)];
        [congruence|].
      exfalso. rewrite Hd in Hz. injection Hz as ->.
      replace (Z.of_nat c + - dm) with (Z.of_nat m) in Hr by lia.
      rewrite Nat2Z.id, (Hsrc m dm Hm Hdm) in Hr. congruence.
    - rewrite (Hsrc c d0 Hd0 Hd0nz) in Hd. congruence. }
  destruct (py_setitem_pad other_case [] (Z.of_nat c + d) (- d)) as [-> _]; [lia|].
  assert (∃ o : nat, Z.of_nat o = Z.of_nat c + d) as [o Ho]
    by (exists (Z.to_nat (Z.of_nat c + d)); lia).
  replace (Z.to_nat (Z.of_nat c + d)) with o in * by lia.
  assert (Hon : (o < length other_case)%nat) by lia.
  eexists. split; [done|]. split; [|split; [|split; [|split]]].
  - split; [by rewrite length_insert|]. intros c' d' Hd'.
    destruct (decide (c' = o)) as [->|Hne].
    + rewrite list_lookup_insert_eq in Hd' by done. injection Hd' as <-. lia.
    + rewrite list_lookup_insert_ne in Hd' by done. by apply Hclosed.
  - rewrite length_insert. lia.
  - intros c' d' Hd' Hnz'. rewrite list_lookup_insert_ne; [by apply Hsrc|].
    intros Heq. rewrite Heq, (Hsrc c' d' Hd' Hnz') in Hr. congruence.
  - intros o' Ho'. destruct (decide (o' = o)) as [->|Hne].
    + right. exists c, d. rewrite list_lookup_insert_eq by done.
      repeat split; try done; lia.
    + rewrite list_lookup_insert_ne by done. by apply Hzero.
  - intros c' d' o' Hc' Hd' Hnz' Ho'.
    destruct (decide (o' = o)) as [->|Hne].
    + rewrite list_lookup_insert_eq by done. intros [= ?]. lia.
    + rewrite list_lookup_insert_ne by done.
      destruct (decide (c' = c)) as [->|Hnec].
      * exfalso. apply Hne. rewrite Hc0 in Hd'. injection Hd' as <-. lia.
      * apply (Hvisited c' d' o'); [lia|done..].
Qed.

(** The first pass returns on a table whose offsets stay within it. *)
Lemma repair_pass_closed :
  closed_table n other_case0 →
  ∃ other_case, for_each (seq 0 n) repair_step other_case0 = Ok other_case ∧
    closed_table n other_case ∧ repaired_upto other_case0 n other_case.
Proof.
  intros Hclosed.
  destruct (for_each_seq
    (λ k T, closed_table n T ∧ repaired_upto other_case0 k T)
    repair_step 0 n other_case0) as (T & Hrun & HT).
  - split; [done|]. apply repaired_start.
  - intros c T Hc [HcT HrT]. apply repair_step_closed; [lia|done| |done].
    by destruct Hclosed.
  - by exists T.
Qed.

(** After the first pass every character with another case leads to
    one. *)
Lemma repaired_pairs_closed (other_case : list Z) :
  closed_table n other_case → repaired_upto other_case0 n other_case →
  pairs_closed other_case.
Proof.
  intros [Hlen Hclosed] (Hlen0 & Hsrc & Hzero & Hvisited) c d Hd Hnz.
  pose proof (Hclosed c d Hd) as Hcd.
  destruct (py_getitem_within other_case (Z.of_nat c + d)) as (r & Hr & _); [lia|].
  exists r. split; [done|]. intros ->.
  assert (Hcn : (c < n)%nat) by (apply lookup_lt_Some in Hd; lia).
  destruct (lookup_lt_is_Some_2 other_case0 c) as [d0 Hd0]; [lia|].
  destruct (decide (d0 = 0)) as [->|Hd0nz].
  - destruct (Hzero c Hd0) as [Hz|(m & dm & Hm & Hdm & Hmo & Hz)];
      [congruence|].
    rewrite Hd in Hz. injection Hz as ->.
    replace (Z.of_nat c + - dm) with (Z.of_nat m) in Hr by lia.
    rewrite Nat2Z.id, (Hsrc m dm Hm Hdm) in Hr. congruence.
  - rewrite (Hsrc c d0 Hd0 Hd0nz) in Hd. injection Hd as <-.
    apply (Hvisited c d0 (Z.to_nat (Z.of_nat c + d0))); try done; lia.
Qed.

End repair_closed.

Section add_facts.

(** The loop over [c, o, t] keeps what the set has. *)
Lemma add_fold_superset (ys : list Z) (found : bool) (s : list Z) (x : Z) :
  x ∈ s → x ∈ (foldl add_step (found, s) ys).2.
Proof.
  revert found s. induction ys as [|y ys IH]; intros found s Hx; simpl; [done|].
  destruct (find_one s y found); apply IH; [done|].
  apply elem_of_app. by left.
Qed.

(** The first of the three is in the set afterwards. *)
Lemma add_fold_first (c : Z) (ys : list Z) (s : list Z) :
  c ∈ (foldl add_step (false, s) (c :: ys)).2.
Proof.
  cbn [foldl]. unfold add_step at 2.
  destruct (find_one s c false) eqn:Hf.
  - apply add_fold_superset. apply find_one_spec in Hf as [?|?]; done.
  - apply add_fold_superset, elem_of_app. right. by apply list_elem_of_singleton.
Qed.

End add_facts.

Section scan_closed.
Variables (n : nat) (other_case : list Z).
Hypothesis Hclosed : closed_table n other_case.
Hypothesis Hpairs : pairs_closed other_case.

(** The pass of the second loop for [c]: nothing when the other case of [c]
    points back, the three characters otherwise. *)
Lemma scan_step_cases (sets : list (list Z)) (c : nat) :
  (c < n)%nat →
  (¬ triggers other_case c ∧ scan_step other_case sets c = Ok sets) ∨
  (∃ o t : Z,
     triggers other_case c ∧
     has_other_case n other_case (Z.of_nat c) ∧
     has_other_case n other_case o ∧ has_other_case n other_case t ∧
     NoDup [Z.of_nat c; o; t] ∧
     scan_step other_case sets c =
       Ok (let r := foldl (unite_step (Z.of_nat c) o t) ([], false) sets in
           if r.2 then r.1 else r.1 ++ [[Z.of_nat c; o; t]])).
Proof.
  destruct Hclosed as [Hlen Hcl]. intros Hc.
  destruct (lookup_lt_is_Some_2 other_case c) as [d Hd]; [lia|].
  pose proof (Hcl c d Hd) as Hcd.
  destruct (py_getitem_within other_case (Z.of_nat c + d)) as (d' & Hd' & Hget);
    [lia|].
  unfold scan_step. rewrite (py_getitem_nat _ _ _ Hd), bind_Ok. cbv zeta.
  rewrite Hget, bind_Ok.
  case_bool_decide as Htrig.
  - right. exists (Z.of_nat c + d), (Z.of_nat c + d + d').
    assert (Hdnz : d ≠ 0).
    { intros ->. rewrite Z.add_0_r, Nat2Z.id in Hd'.
      assert (d' = 0) by congruence. lia. }
    destruct (Hpairs c d Hd Hdnz) as (r & Hr & Hrnz).
    assert (r = d') as -> by congruence.
    pose proof (Hcl _ _ Hd') as Ht. rewrite Z2Nat.id in Ht by lia.
    destruct (Hpairs _ _ Hd' Hrnz) as (r' & Hr' & Hrnz').
    rewrite Z2Nat.id in Hr' by lia.
    split; [by exists d, d'|].
    split; [split; [lia|]; exists d; by rewrite Nat2Z.id|].
    split; [split; [lia|]; by exists d'|].
    split; [split; [lia|]; by exists r'|].
    split.
    + repeat constructor; rewrite ?elem_of_cons, ?elem_of_nil; lia.
    + by destruct (foldl _ _ sets) as [sets' [|]].
  - left. split; [|done]. intros (e & e' & He & He' & Hne).
    rewrite Hd in He. injection He as <-. rewrite Hd' in He'.
    injection He' as <-. done.
Qed.

(** The loop over the sets: each set stays or grows, in its place; a set
    that grows gets [c]; the flag is set exactly when a set has grown or had
    the three characters. *)
Lemma unite_fold_grow (c o t : Z) (sets visited : list (list Z))
    (appended : bool) :
  ∃ sets',
    foldl (unite_step c o t) (visited, appended) sets =
      (visited ++ sets',
       appended || bool_decide (Exists (λ s, c ∈ s ∨ o ∈ s ∨ t ∈ s) sets)) ∧
    Forall2 (λ s s',
       (∀ x, x ∈ s → x ∈ s') ∧
       (∀ x, x ∈ s' → x ∈ s ∨ x ∈ [c; o; t]) ∧
       (NoDup s → NoDup s') ∧
       ((c ∈ s ∨ o ∈ s ∨ t ∈ s) → c ∈ s')) sets sets'.
Proof.
  revert visited appended. induction sets as [|s sets IH]; intros visited appended.
  - exists []. simpl. rewrite app_nil_r, orb_false_r. split; [done|constructor].
  - cbn [foldl]. rewrite unite_step_eq.
    destruct (find_any s c o t false) eqn:Hfound.
    + apply find_any_spec in Hfound as [?|Hin]; [done|].
      destruct (IH (visited ++ [(foldl add_step (false, s) [c; o; t]).2]) true)
        as (sets' & Hrun & Hall).
      exists ((foldl add_step (false, s) [c; o; t]).2 :: sets'). split.
      * rewrite Hrun, <- app_assoc. simpl. f_equal.
        rewrite bool_decide_eq_true_2 by (by constructor). by rewrite orb_true_r.
      * constructor; [|done].
        split; [|split; [|split]].
        -- intros x. apply add_fold_superset.
        -- intros x. apply add_fold_subset.
        -- intros Hnd. by apply add_fold_spec.
        -- intros _. apply add_fold_first.
    + assert (Hno : ¬ (c ∈ s ∨ o ∈ s ∨ t ∈ s)).
      { intros Hin. assert (find_any s c o t false = true)
          by (apply find_any_spec; by right). congruence. }
      destruct (IH (visited ++ [s]) appended) as (sets' & Hrun & Hall).
      exists (s :: sets'). split.
      * rewrite Hrun, <- app_assoc. simpl. f_equal. f_equal.
        apply bool_decide_ext. rewrite Exists_cons. tauto.
      * constructor; [|done]. split; [done|]. split; [by left|]. split; [done|].
        intros Hin. by destruct Hno.
Qed.

Lemma scan_step_closed (sets : list (list Z)) (c : nat) :
  (c < n)%nat → scanned_upto n other_case c sets →
  ∃ sets', scan_step other_case sets c = Ok sets' ∧ scanned_upto n other_case (S c) sets'.
Proof.
  intros Hc (Hshape & Hcover & Hwhy).
  destruct (scan_step_cases sets c Hc)
    as [[Hno ->]|(o & t & Htrig & Hcc & Hco & Hct & Hnd & ->)].
  { eexists. split; [done|]. split; [done|]. split; [|done].
    intros c' Hc' Htrig. destruct (decide (c' = c)) as [->|Hne]; [done|].
    apply Hcover; [lia|done]. }
  destruct (unite_fold_grow (Z.of_nat c) o t sets [] false)
    as (sets' & -> & Hgrow).
  cbn [fst snd app orb].
  assert (Hshape' : ∀ s', s' ∈ sets' → set_shape n other_case s').
  { intros s' [i Hi]%list_elem_of_lookup_1.
    destruct (Forall2_lookup_r _ _ _ _ _ Hgrow Hi)
      as (s & Hs & Hsub & Hsup & Hndk & _).
    destruct (Hshape s) as (Hnds & Hlen & Hmem); [by eapply list_elem_of_lookup_2|].
    split; [by apply Hndk|]. split.
    - etrans; [exact Hlen|]. apply submseteq_length, NoDup_submseteq; done.
    - intros x [?|Hx]%Hsup; [by apply Hmem|].
      rewrite !elem_of_cons, elem_of_nil in Hx.
      destruct Hx as [-> | [-> | [-> | []]]]; done. }
  assert (Hcover' : ∀ c', (c' < c)%nat → triggers other_case c' →
            ∃ s', s' ∈ sets' ∧ Z.of_nat c' ∈ s').
  { intros c' Hc' Htrig'.
    destruct (Hcover c' Hc' Htrig') as (s & [i Hi]%list_elem_of_lookup_1 & Hin).
    destruct (Forall2_lookup_l _ _ _ _ _ Hgrow Hi) as (s' & Hs' & Hsub & _).
    exists s'. split; [by eapply list_elem_of_lookup_2|by apply Hsub]. }
  assert (Hwhy' : ∀ s', s' ∈ sets' →
            ∃ c', (c' < n)%nat ∧ Z.of_nat c' ∈ s' ∧ triggers other_case c').
  { intros s' [i Hi]%list_elem_of_lookup_1.
    destruct (Forall2_lookup_r _ _ _ _ _ Hgrow Hi) as (s & Hs & Hsub & _).
    destruct (Hwhy s) as (c' & Hc' & Hin & Htrig');
      [by eapply list_elem_of_lookup_2|].
    exists c'. split; [done|]. split; [by apply Hsub|done]. }
  case_bool_decide as Hex.
  - eexists. split; [done|]. split; [done|]. split; [|done].
    intros c' Hc' Htrig'. destruct (decide (c' = c)) as [->|Hne];
      [|apply Hcover'; [lia|done]].
    apply Exists_exists in Hex as (s & [i Hi]%list_elem_of_lookup_1 & Hin).
    destruct (Forall2_lookup_l _ _ _ _ _ Hgrow Hi) as (s' & Hs' & _ & _ & _ & Hget).
    exists s'. split; [by eapply list_elem_of_lookup_2|by apply Hget].
  - eexists. split; [done|]. split; [|split].
    + intros s [?|Hs]%elem_of_app; [by apply Hshape'|].
      apply list_elem_of_singleton in Hs as ->. split; [done|]. split; [simpl; lia|].
      intros x Hx. rewrite !elem_of_cons, elem_of_nil in Hx.
      destruct Hx as [-> | [-> | [-> | []]]]; done.
    + intros c' Hc' Htrig'. destruct (decide (c' = c)) as [->|Hne].
      * exists [Z.of_nat c; o; t]. split; [|apply elem_of_cons; by left].
        apply elem_of_app. right. by apply list_elem_of_singleton.
      * destruct (Hcover' c') as (s' & Hs' & Hin); [lia|done|].
        exists s'. split; [|done]. apply elem_of_app. by left.
    + intros s [?|Hs]%elem_of_app; [by apply Hwhy'|].
      apply list_elem_of_singleton in Hs as ->.
      exists c. split; [done|]. split; [apply elem_of_cons; by left|done].
Qed.

Lemma scan_pass_closed :
  ∃ sets, for_each (seq 0 n) (scan_step other_case) [] = Ok sets ∧
    scanned_upto n other_case n sets.
Proof.
  destruct (for_each_seq (scanned_upto n other_case) (scan_step other_case) 0 n [])
    as (sets & Hrun & Hinv).
  - split; [|split]; try (intros s Hs; by apply elem_of_nil in Hs).
    intros c Hc. lia.
  - intros c sets Hc Hsets. apply scan_step_closed; [lia|done].
  - by exists sets.
Qed.

End scan_closed.

Section caseless_closed.

Lemma make_caseless_sets_closed (n : nat) (other_case0 : list Z) :
  closed_table n other_case0 →
  ∃ other_case sets,
    make_caseless_sets n other_case0 = Ok (other_case, sets) ∧
    for_each (seq 0 n) repair_step other_case0 = Ok other_case ∧
    for_each (seq 0 n) (scan_step other_case) [] = Ok sets ∧
    closed_table n other_case ∧ repaired_upto other_case0 n other_case ∧
    pairs_closed other_case ∧ scanned_upto n other_case n sets.
Proof.
  intros Hclosed.
  destruct (repair_pass_closed n other_case0 Hclosed) as (T & Hrep & HcT & HrT).
  pose proof (repaired_pairs_closed n other_case0 T HcT HrT) as Hpairs.
  destruct (scan_pass_closed n T HcT Hpairs) as (sets & Hscan & Hsets).
  exists T, sets. unfold make_caseless_sets. rewrite Hrep, bind_Ok, Hscan.
  done.
Qed.

(** X13. The first pass over [other_case], on any table whose offsets stay
    within it: the run returns; an offset read from the file is not
    changed; a character read without one keeps 0 or gets the return offset
    of a character that leads to it; afterwards every character with
    another case leads to a character with another case; and both passes
    run again on the result change nothing and give the same sets. *)
Theorem repair_closes_pairs (n : nat) (other_case0 : list Z) :
  closed_table n other_case0 →
  ∃ other_case sets,
    make_caseless_sets n other_case0 = Ok (other_case, sets) ∧
    closed_table n other_case ∧
    (∀ (c : nat) d, other_case0 !! c = Some d → d ≠ 0 →
       other_case !! c = Some d) ∧
    (∀ o : nat, other_case0 !! o = Some 0 →
       other_case !! o = Some 0 ∨
       ∃ (m : nat) dm, other_case0 !! m = Some dm ∧ dm ≠ 0 ∧
         Z.of_nat m + dm = Z.of_nat o ∧ other_case !! o = Some (- dm)) ∧
    pairs_closed other_case ∧
    make_caseless_sets n other_case = Ok (other_case, sets).
Proof.
  intros Hclosed.
  destruct (make_caseless_sets_closed n other_case0 Hclosed)
    as (T & sets & Hmake & Hrep & Hscan & HcT & (_ & Hsrc & Hzero & _) & Hpairs & _).
  exists T, sets. split; [done|]. split; [done|]. split; [done|].
  split; [done|]. split; [done|].
  unfold make_caseless_sets. rewrite for_each_id; [by rewrite bind_Ok, Hscan|].
  intros c Hc%elem_of_seq. destruct HcT as [Hlen Hcl].
  destruct (lookup_lt_is_Some_2 T c) as [d Hd]; [lia|].
  unfold repair_step. rewrite (py_getitem_nat _ _ _ Hd), bind_Ok.
  case_bool_decide as Hnz; [|done].
  destruct (Hpairs c d Hd Hnz) as (r & Hr & Hrnz).
  pose proof (Hcl c d Hd) as Hcd.
  destruct (py_getitem_within T (Z.of_nat c + d)) as (r' & Hr' & ->); [lia|].
  rewrite bind_Ok. assert (r' = r) as -> by congruence.
  by rewrite bool_decide_eq_false_2.
Qed.

(** X14. The caseless sets, on any table whose offsets stay within it:
    every set has three members at least, none twice, all of them
    characters of the table with another case; every character whose other
    case does not point back to it is in a set, and every set has such a
    character; and there is no set exactly when every other case points
    back. *)
Theorem caseless_sets_shape (n : nat) (other_case0 : list Z) :
  closed_table n other_case0 →
  ∃ other_case sets,
    make_caseless_sets n other_case0 = Ok (other_case, sets) ∧
    (∀ s, s ∈ sets → set_shape n other_case s) ∧
    (∀ c, (c < n)%nat → triggers other_case c →
       ∃ s, s ∈ sets ∧ Z.of_nat c ∈ s) ∧
    (∀ s, s ∈ sets →
       ∃ c, (c < n)%nat ∧ Z.of_nat c ∈ s ∧ triggers other_case c) ∧
    (sets = [] ↔ ∀ c, (c < n)%nat → ¬ triggers other_case c).
Proof.
  intros Hclosed.
  destruct (make_caseless_sets_closed n other_case0 Hclosed)
    as (T & sets & Hmake & _ & _ & _ & _ & _ & Hshape & Hcover & Hwhy).
  exists T, sets. split; [done|]. split; [done|]. split; [done|].
  split; [done|]. split.
  - intros -> c Hc Htrig. destruct (Hcover c Hc Htrig) as (s & Hs & _).
    by apply elem_of_nil in Hs.
  - intros Hno. destruct sets as [|s sets]; [done|].
    destruct (Hwhy s) as (c & Hc & _ & Htrig); [apply elem_of_cons; by left|].
    by destruct (Hno c Hc).
Qed.

End caseless_closed.

Section offsets_closed.

(** The offsets after the first [k] sets: a character in none of them has
    offset 0, any other the offset of the last of them that has it. *)
Lemma make_caseless_offsets_last (n : nat) (sets : list (list Z)) :
  sets_within n sets →
  ∃ caseless_offsets,
    make_caseless_offsets n sets = Ok caseless_offsets ∧
    length caseless_offsets = n ∧
    ∀ x : nat, (x < n)%nat →
      (∀ s, s ∈ sets → Z.of_nat x ∉ s) ∧ caseless_offsets !! x = Some 0 ∨
      ∃ k s, sets !! k = Some s ∧ Z.of_nat x ∈ s ∧
        (∀ k' s', (k < k')%nat → sets !! k' = Some s' → Z.of_nat x ∉ s') ∧
        caseless_offsets !! x = Some (set_offset sets k).
Proof.
  intros Hwithin.
  destruct (for_each_indexed
    (λ k (st : list Z * Z),
       st.2 = set_offset sets k ∧ length st.1 = n ∧
       ∀ x : nat, (x < n)%nat →
         (∀ j s, (j < k)%nat → sets !! j = Some s → Z.of_nat x ∉ s) ∧
           st.1 !! x = Some 0 ∨
         ∃ j s, (j < k)%nat ∧ sets !! j = Some s ∧ Z.of_nat x ∈ s ∧
           (∀ j' s', (j < j' < k)%nat → sets !! j' = Some s' →
              Z.of_nat x ∉ s') ∧
           st.1 !! x = Some (set_offset sets j))
    offsets_step sets (replicate n 0, 1)) as ([co off] & Hrun & Hinv).
  - simpl. split; [done|]. split; [apply length_replicate|].
    intros x Hx. left. split; [intros; lia|by apply lookup_replicate_2].
  - intros k s [co off] Hk (Hoff & Hlen & Hdone). simpl in *.
    destruct (offsets_inner n s off co Hlen) as (co' & Hinner & Hlen' & Hin & Hout).
    { intros x Hx. exists (Z.to_nat x).
      pose proof (Hwithin s x ltac:(by eapply list_elem_of_lookup_2) Hx). lia. }
    unfold offsets_step. rewrite Hinner, bind_Ok.
    eexists. split; [done|]. simpl.
    split; [rewrite (set_offset_S _ _ _ Hk); lia|]. split; [done|].
    intros x Hx. destruct (decide (Z.of_nat x ∈ s)) as [Hxs|Hxs].
    + right. exists k, s. split; [lia|]. split; [done|]. split; [done|].
      split; [intros; lia|].
      rewrite <- Hoff, <- (Nat2Z.id x). by apply Hin.
    + rewrite (Hout x Hxs).
      destruct (Hdone x Hx) as [[Hnone Hz]|(j & s' & Hj & Hs' & Hxs' & Hlast & Hv)].
      * left. split; [|done]. intros j s' Hj Hs'.
        destruct (decide (j = k)) as [->|Hne]; [congruence|].
        apply (Hnone j); [lia|done].
      * right. exists j, s'. split; [lia|]. split; [done|]. split; [done|].
        split; [|done]. intros j' s'' Hj' Hs''.
        destruct (decide (j' = k)) as [->|Hne]; [congruence|].
        apply (Hlast j'); [lia|done].
  - destruct Hinv as (_ & Hlen & Hdone). simpl in *.
    exists co. unfold make_caseless_offsets. rewrite Hrun, bind_Ok. simpl.
    split; [done|]. split; [done|].
    intros x Hx.
    destruct (Hdone x Hx) as [[Hnone Hz]|(j & s' & Hj & Hs' & Hxs' & Hlast & Hv)].
    + left. split; [|done]. intros s [j Hj]%list_elem_of_lookup_1.
      apply (Hnone j); [by eapply lookup_lt_Some|done].
    + right. exists j, s'. split; [done|]. split; [done|]. split; [|done].
      intros k' s'' Hk' Hs''. apply (Hlast k'); [|done].
      split; [done|]. by eapply lookup_lt_Some.
Qed.

(** X15. The offsets into the table of caseless sets, on any table whose
    offsets stay within it: a character in no set has offset 0; any other
    has the offset of the last set that has it, which is positive, and at
    that offset the table has that set in ascending order, the character
    among its members, and then NOTACHAR. *)
Theorem caseless_offsets_lead_to_member (n : nat) (other_case0 : list Z) :
  closed_table n other_case0 →
  ∃ other_case sets caseless_offsets table,
    caseless n other_case0 = Ok (other_case, sets, caseless_offsets, table) ∧
    length caseless_offsets = n ∧
    table !! 0%nat = Some NOTACHAR ∧
    ∀ x : nat, (x < n)%nat →
      (∀ s, s ∈ sets → Z.of_nat x ∉ s) ∧ caseless_offsets !! x = Some 0 ∨
      ∃ k s, sets !! k = Some s ∧ Z.of_nat x ∈ s ∧
        (∀ k' s', (k < k')%nat → sets !! k' = Some s' → Z.of_nat x ∉ s') ∧
        caseless_offsets !! x = Some (set_offset sets k) ∧
        0 < set_offset sets k ∧
        take (length s) (drop (Z.to_nat (set_offset sets k)) table)
          = py_sorted id s ∧
        Z.of_nat x ∈ py_sorted id s ∧
        table !! (Z.to_nat (set_offset sets k) + length s)%nat = Some NOTACHAR.
Proof.
  intros Hclosed.
  destruct (make_caseless_sets_closed n other_case0 Hclosed)
    as (T & sets & Hmake & _ & _ & _ & _ & _ & Hshape & _).
  destruct (make_caseless_offsets_last n sets) as (co & Hco & Hlen & Hoff).
  { intros s x Hs Hx. destruct (Hshape s Hs) as (_ & _ & Hmem).
    by destruct (Hmem x Hx). }
  exists T, sets, co, (write_caseless_sets sets).
  split; [unfold caseless; rewrite Hmake, bind_Ok; simpl; by rewrite Hco|].
  split; [done|]. split; [done|].
  intros x Hx. destruct (Hoff x Hx) as [?|(k & s & Hk & Hxs & Hlast & Hv)];
    [by left|].
  right. exists k, s.
  destruct (write_caseless_sets_run sets k s Hk) as [Hrun Hend].
  split; [done|]. split; [done|]. split; [done|]. split; [done|].
  split; [rewrite set_offset_length; lia|]. split; [done|]. split; [|done].
  by rewrite (py_sorted_perm id s).
Qed.

End offsets_closed.

Section emoji_more.
Local Open Scope nat_scope.
Implicit Types (break_props : list nat) (warnings : list (nat * string)).

Lemma emoji_step_spec (break_properties : list string) (other ep : nat)
    break_props warnings (i : nat) (st : list nat * list (nat * string)) :
  emoji_step break_properties other ep (break_props, warnings) i = Ok st →
  ∃ b, break_props !! i = Some b ∧ st.1 = <[i := ep]> break_props ∧
    (b = other ∧ st.2 = warnings ∨
     b ≠ other ∧ ∃ name, break_properties !! b = Some name ∧
       st.2 = warnings ++ [(i, name)]).
Proof.
  unfold emoji_step, py_getitem, py_setitem.
  destruct (py_index (length break_props) (Z.of_nat i)) as [j|] eqn:Hj;
    simpl; [|done].
  apply py_index_nat_Ok in Hj as [-> Hi].
  destruct (break_props !! i) as [b|] eqn:Hb; simpl; [|done].
  case_decide as Hne.
  - destruct (py_index (length break_properties) (Z.of_nat b)) as [j|] eqn:Hj;
      simpl; [|done].
    apply py_index_nat_Ok in Hj as [-> Hbl].
    destruct (break_properties !! b) as [name|] eqn:Hname; simpl; [|done].
    intros [= <-]. exists b. split; [done|]. split; [done|]. right.
    split; [done|]. by exists name.
  - intros [= <-]. exists b. split; [done|]. split; [done|]. left.
    split; [|done]. by destruct (decide (b = other)).
Qed.

(** The loop over the range of one line. *)
Lemma emoji_range_spec (break_properties : list string) (other ep : nat)
    (len first : nat) break_props warnings break_props' warnings' :
  for_each (seq first len) (emoji_step break_properties other ep)
    (break_props, warnings) = Ok (break_props', warnings') →
  length break_props' = length break_props ∧
  (0 < len → first + len ≤ length break_props) ∧
  (∀ i, first ≤ i < first + len → break_props' !! i = Some ep) ∧
  (∀ i, ¬ (first ≤ i < first + len) → break_props' !! i = break_props !! i) ∧
  ∃ more, warnings' = warnings ++ more ∧
    (∀ i name, (i, name) ∈ more →
       first ≤ i < first + len ∧
       ∃ b, break_props !! i = Some b ∧ b ≠ other ∧
         break_properties !! b = Some name) ∧
    (∀ i b, first ≤ i < first + len → break_props !! i = Some b → b ≠ other →
       ∃ name, break_properties !! b = Some name ∧ (i, name) ∈ more).
Proof.
  revert first break_props warnings.
  induction len as [|len IH]; intros first break_props warnings.
  - intros [= <- <-]. split; [done|]. split; [lia|]. split; [intros; lia|].
    split; [done|]. exists []. rewrite app_nil_r. split; [done|].
    split; [intros i name Hin; by apply elem_of_nil in Hin|intros; lia].
  - cbn [seq]. rewrite for_each_cons.
    destruct (emoji_step _ _ _ (break_props, warnings) first) as [[bp1 w1]|]
      eqn:Hstep; simpl; [|done].
    apply emoji_step_spec in Hstep as (b & Hb & Hbp1 & Hw1). simpl in Hbp1, Hw1.
    subst bp1. intros (Hlen & Hin & Hset & Hkeep & more & -> & Hmore & Hall)%IH.
    assert (Hfirst : first < length break_props) by (by eapply lookup_lt_Some).
    rewrite length_insert in Hlen, Hin.
    split; [done|]. split; [destruct len; lia|]. split; [|split].
    + intros i Hi. destruct (decide (i = first)) as [->|Hne]; [|apply Hset; lia].
      rewrite Hkeep by lia. by apply list_lookup_insert_eq.
    + intros i Hi. rewrite Hkeep by lia. apply list_lookup_insert_ne. lia.
    + assert (Hold : ∀ i, S first ≤ i →
                <[first := ep]> break_props !! i = break_props !! i)
        by (intros i Hi; apply list_lookup_insert_ne; lia).
      destruct Hw1 as [[-> ->]|(Hne & name & Hname & ->)].
      * exists more. split; [done|]. split.
        -- intros i name [Hi (b' & Hb' & ? & ?)]%Hmore. rewrite Hold in Hb' by lia.
           split; [lia|]. by exists b'.
        -- intros i b' Hi Hb' Hne'.
           destruct (decide (i = first)) as [->|Hnf]; [congruence|].
           apply (Hall i b'); [lia| |done]. rewrite Hold by lia. done.
      * exists ((first, name) :: more). split; [by rewrite <- app_assoc|]. split.
        -- intros i name' [Heq|Hmem]%elem_of_cons.
           ++ injection Heq as -> ->. split; [lia|]. by exists b.
           ++ apply Hmore in Hmem as [Hi (b' & Hb' & ? & ?)].
              rewrite Hold in Hb' by lia. split; [lia|]. by exists b'.
        -- intros i b' Hi Hb' Hne'.
           destruct (decide (i = first)) as [->|Hnf].
           ++ assert (b' = b) as -> by congruence. exists name.
              split; [done|]. apply elem_of_cons. by left.
           ++ destruct (Hall i b') as (name' & ? & ?); [lia| |done|].
              { rewrite Hold by lia. done. }
              exists name'. split; [done|]. apply elem_of_cons. by right.
Qed.

(** The loop over the lines, from any table and any warnings. *)
Lemma emoji_lines_spec (break_properties : list string) (other ep : nat)
    (ranges : list (nat * nat)) break_props warnings break_props' warnings' :
  for_each ranges
    (λ st r, for_each (seq r.1 (r.2 + 1 - r.1))
               (emoji_step break_properties other ep) st)
    (break_props, warnings) = Ok (break_props', warnings') →
  length break_props' = length break_props ∧
  (∀ r, r ∈ ranges → r.1 ≤ r.2 → r.2 < length break_props) ∧
  (∀ i r, r ∈ ranges → r.1 ≤ i ≤ r.2 → break_props' !! i = Some ep) ∧
  (∀ i, (∀ r, r ∈ ranges → ¬ (r.1 ≤ i ≤ r.2)) →
     break_props' !! i = break_props !! i) ∧
  ∃ more, warnings' = warnings ++ more ∧
    (∀ i name, (i, name) ∈ more → ∃ r, r ∈ ranges ∧ r.1 ≤ i ≤ r.2) ∧
    (∀ i b r, r ∈ ranges → r.1 ≤ i ≤ r.2 → break_props !! i = Some b →
       b ≠ other →
       ∃ name, break_properties !! b = Some name ∧ (i, name) ∈ more).
Proof.
  revert break_props warnings.
  induction ranges as [|[first last] ranges IH]; intros break_props warnings.
  - intros [= <- <-]. split; [done|].
    split; [intros r Hr; by apply elem_of_nil in Hr|].
    split; [intros i r Hr; by apply elem_of_nil in Hr|]. split; [done|].
    exists []. rewrite app_nil_r. split; [done|].
    split; [intros i name Hin; by apply elem_of_nil in Hin|].
    intros i b r Hr. by apply elem_of_nil in Hr.
  - rewrite for_each_cons. cbn [fst snd].
    destruct (for_each (seq first (last + 1 - first)) _ (break_props, warnings))
      as [[bp1 w1]|] eqn:Hrange; simpl; [|done].
    apply emoji_range_spec in Hrange
      as (Hlen1 & Hin1 & Hset1 & Hkeep1 & more1 & -> & Hmore1 & Hall1).
    intros (Hlen & Hin & Hset & Hkeep & more & -> & Hmore & Hall)%IH.
    split; [congruence|]. split; [|split; [|split]].
    + intros r [->|Hr]%elem_of_cons Hle; simpl in *; [lia|].
      rewrite <- Hlen1. by apply Hin.
    + intros i r [->|Hr]%elem_of_cons Hi; simpl in *; [|by apply (Hset i r)].
      destruct (decide (Exists (λ r, r.1 ≤ i ≤ r.2) ranges)) as [Hex|Hex].
      * apply Exists_exists in Hex as (r & Hr & Hir). by apply (Hset i r).
      * rewrite Hkeep; [apply Hset1; lia|].
        intros r Hr Hir. apply Hex, Exists_exists. by exists r.
    + intros i Hno. rewrite Hkeep.
      * apply Hkeep1. intros Hi.
        apply (Hno (first, last)); [apply elem_of_cons; by left|simpl; lia].
      * intros r Hr. apply Hno, elem_of_cons. by right.
    + exists (more1 ++ more). split; [by rewrite app_assoc|]. split.
      * intros i name [Hin'|Hin']%elem_of_app.
        -- apply Hmore1 in Hin' as [Hi _]. exists (first, last).
           split; [apply elem_of_cons; by left|simpl; lia].
        -- apply Hmore in Hin' as (r & Hr & Hi). exists r.
           split; [apply elem_of_cons; by right|done].
      * intros i b r Hr Hi Hb Hne.
        destruct (decide (first ≤ i < first + (last + 1 - first))) as [Hfi|Hfi].
        -- destruct (Hall1 i b Hfi Hb Hne) as (name & ? & ?). exists name.
           split; [done|]. apply elem_of_app. by left.
        -- apply elem_of_cons in Hr as [->|Hr]; [simpl in Hi; lia|].
           destruct (Hall i b r Hr Hi) as (name & ? & ?); [|done|].
           { by rewrite Hkeep1. }
           exists name. split; [done|]. apply elem_of_app. by right.
Qed.

(** X16. The emoji override: when it returns, every range is within the
    table and the table has kept its length; every character in a range has
    the property Extended_Pictographic and every other character the
    property it had; a warning is about a character in a range; and every
    character in a range whose property was not Other has a warning, with
    the name of the property it had. *)
Theorem emoji_override_effect (break_properties : list string) (other ep : nat)
    (ranges : list (nat * nat)) break_props break_props' warnings :
  emoji_override break_properties other ep ranges break_props
    = Ok (break_props', warnings) →
  length break_props' = length break_props ∧
  (∀ r, r ∈ ranges → r.1 ≤ r.2 → r.2 < length break_props) ∧
  (∀ i r, r ∈ ranges → r.1 ≤ i ≤ r.2 → break_props' !! i = Some ep) ∧
  (∀ i, (∀ r, r ∈ ranges → ¬ (r.1 ≤ i ≤ r.2)) →
     break_props' !! i = break_props !! i) ∧
  (∀ i name, (i, name) ∈ warnings → ∃ r, r ∈ ranges ∧ r.1 ≤ i ≤ r.2) ∧
  (∀ i b r, r ∈ ranges → r.1 ≤ i ≤ r.2 → break_props !! i = Some b →
     b ≠ other →
     ∃ name, break_properties !! b = Some name ∧ (i, name) ∈ warnings).
Proof.
  unfold emoji_override.
  intros (Hlen & Hin & Hset & Hkeep & more & -> & Hmore & Hall)%emoji_lines_spec.
  done.
Qed.

End emoji_more.

Section search_more.

(** X17. The search returns: on an index made of whole blocks of 512, with
    values and length within 32 bits and a total below [sys.maxsize], the
    search returns with a block size retained, which is one of the
    candidates; the stages retained are those [compress_table] gives for
    it, the size retained is within the bound, and the lookup through the
    stages gives back the index. *)
Theorem block_size_search_returns (nrecords : nat) (record_size : Z)
    (table : list nat) :
  (length table `mod` 512 = 0)%nat → table ≠ [] →
  (∀ x, x ∈ table → Z.of_nat x ≤ 4294967295) →
  Z.of_nat (length table) ≤ 4294967296 →
  Z.of_nat nrecords * record_size + 8 * Z.of_nat (length table) < sys_maxsize →
  ∃ st stage1 stage2 B,
    find_block_size nrecords record_size table = Ok st ∧
    min_tables st = Some (stage1, stage2, B) ∧
    B ∈ block_sizes ∧
    compress_table table B = Ok (stage1, stage2) ∧
    min_size st ≤ Z.of_nat nrecords * record_size + 8 * Z.of_nat (length table) ∧
    ∀ c, (c < length table)%nat →
      two_stage_lookup stage1 stage2 B c = table !! c.
Proof.
  intros Hmod Hne Hval Hlen Hsize.
  destruct (find_block_size_returns nrecords record_size table
              Hmod Hne Hval Hlen Hsize) as (st & stage1 & stage2 & B & Hfind & Hmin).
  exists st, stage1, stage2, B. split; [done|]. split; [done|].
  destruct (search_inv _ _ _ _ _ _ Hfind) as [Hall Hbest].
  destruct Hbest as [->|(p & B2 & [sz [s1 s2]] & Hp & Htot & -> & _)];
    simpl in Hmin; [done|].
  injection Hmin as <- <- <-.
  destruct (total_size_formula _ _ _ _ _ Htot) as (_ & _ & Hcomp & _).
  simpl in Hcomp.
  assert (HB : (0 < B2)%nat).
  { apply block_sizes_lookup in Hp as [-> _]. apply Nat.neq_0_lt_0.
    apply Nat.pow_nonzero. lia. }
  assert (HBmod : (length table `mod` B2 = 0)%nat).
  { apply block_sizes_lookup in Hp as [-> Hp].
    apply Nat.Lcm0.mod_divide. apply Nat.Lcm0.mod_divide in Hmod.
    etrans; [|exact Hmod]. exists (2 ^ (4 - p))%nat.
    rewrite <- Nat.pow_add_r. by replace (4 - p + (5 + p))%nat with 9%nat by lia. }
  split; [by eapply list_elem_of_lookup_2|]. split; [done|]. split.
  - destruct (total_size_returns nrecords record_size table B2 HB HBmod Hne Hval Hlen)
      as (r & Hr & Hle).
    rewrite Htot in Hr. injection Hr as <-. done.
  - destruct (compress_round_trip table B2 HB) as (s1' & s2' & Hcomp' & Hround).
    rewrite Hcomp in Hcomp'. injection Hcomp' as <- <-. done.
Qed.

End search_more.

Section combine_more.
Local Open Scope nat_scope.

Lemma zip_star_length_min (tables : list (list Z)) :
  (∀ t, t ∈ tables → length (zip_star tables) ≤ length t) ∧
  (tables ≠ [] → ∃ t, t ∈ tables ∧ length (zip_star tables) = length t).
Proof.
  destruct tables as [|t0 rest]; [split; [intros t Ht; by apply elem_of_nil in Ht|done]|].
  simpl. rewrite length_fmap, length_seq.
  destruct (zip_star_min_length rest (length t0)) as [Hle Hall].
  split.
  - intros t [->|Ht]%elem_of_cons; [done|by apply Hall].
  - intros _. clear Hle Hall. revert t0.
    induction rest as [|t rest IH]; intros t0; simpl.
    + exists t0. split; [apply elem_of_cons; by left|done].
    + destruct (Nat.min_spec (length t0) (length t)) as [[_ ->]|[_ ->]].
      * destruct (IH t0) as (t' & Ht' & Heq). exists t'. split; [|done].
        apply elem_of_cons in Ht' as [->|Ht'];
          [apply elem_of_cons; by left|do 2 (apply elem_of_cons; right); done].
      * destruct (IH t) as (t' & Ht' & Heq). exists t'. split; [|done].
        apply elem_of_cons. by right.
Qed.

(** X18. The catalogue of [combine_tables]: the index stops with the
    shortest table, as [zip] does, and without tables there is no index and
    no record; the keys of the records are the distinct rows, each once;
    every index entry is the id of a record, and every record id is the
    index entry of some position. *)
Theorem combine_tables_catalogue (tables : list (list Z)) :
  let rows := zip_star tables in
  let index := (combine_tables tables).1 in
  let records := (combine_tables tables).2 in
  (∀ t, t ∈ tables → length index ≤ length t) ∧
  (tables ≠ [] → ∃ t, t ∈ tables ∧ length index = length t) ∧
  (tables = [] → index = [] ∧ records = []) ∧
  records.*1 ≡ₚ remove_dups rows ∧
  length records = length (remove_dups rows) ∧
  (∀ i, i ∈ index → i < length records) ∧
  (∀ i, i < length records → i ∈ index).
Proof.
  intros rows index records. unfold index, records.
  rewrite combine_tables_inv. simpl. fold rows.
  pose proof (combine_inv rows) as Hinv.
  destruct (zip_star_length_min tables) as [Hmin Hex]. fold rows in Hmin, Hex.
  assert (Hnil : tables = [] → rows = []) by (by intros ->).
  destruct (foldl combine_step ([], []) rows) as [recs idx] eqn:Hfold. simpl.
  destruct Hinv as (Hlen & Hids & Hnd & Hkeys & Hidx & Hfirst).
  assert (Hperm : recs.*1 ≡ₚ remove_dups rows).
  { apply NoDup_Permutation; [done|apply NoDup_remove_dups|].
    intros t. rewrite Hkeys. by rewrite elem_of_remove_dups. }
  split; [by rewrite Hlen|]. split; [by rewrite Hlen|]. split.
  { intros Ht. rewrite (Hnil Ht) in Hfold. simpl in Hfold. by injection Hfold as <- <-. }
  split; [done|]. split.
  { rewrite <- (Permutation_length Hperm). by rewrite length_fmap. }
  split.
  - intros i [c Hc]%list_elem_of_lookup_1.
    assert (Hcl : c < length rows) by (apply lookup_lt_Some in Hc; lia).
    destruct (lookup_lt_is_Some_2 rows c Hcl) as [t Ht].
    destruct (Hidx c t Ht) as (i' & Hi' & Hget). rewrite Hc in Hi'.
    injection Hi' as <-. apply records_get_Some in Hget.
    apply list_elem_of_lookup_1 in Hget as [p Hp].
    assert (Hq : recs.*2 !! p = Some i) by (by rewrite list_lookup_fmap, Hp).
    rewrite Hids in Hq. apply lookup_seq in Hq as [-> Hq]. done.
  - intros i Hi. destruct (lookup_lt_is_Some_2 recs i Hi) as [[t i'] Hrec].
    assert (Hq : recs.*2 !! i = Some i') by (by rewrite list_lookup_fmap, Hrec).
    rewrite Hids in Hq. apply lookup_seq in Hq as [-> _]. simpl in Hrec.
    assert (Hget : records_get recs t = Some i).
    { apply records_get_elem; [done|]. by eapply list_elem_of_lookup_2. }
    destruct (Hfirst t i Hget) as (f & Hf & _).
    destruct (Hidx f t Hf) as (i' & Hi' & Hget'). rewrite Hget in Hget'.
    injection Hget' as <-. by eapply list_elem_of_lookup_2.
Qed.

End combine_more.

Section write_table_facts.
Local Open Scope nat_scope.
Implicit Types (table : list Z) (B : nat).

Lemma map_result_chunks table B (f : nat → result (list Z)) (s cnt : nat) :
  (∀ k, s ≤ k < s + cnt → f (k * B) = Ok (chunk table B k)) →
  map_result f ((λ k, k * B) <$> seq s cnt) = Ok (chunk table B <$> seq s cnt).
Proof.
  revert s. induction cnt as [|cnt IH]; intros s Hf; [done|].
  simpl. rewrite Hf by lia. rewrite bind_Ok.
  rewrite IH by (intros k Hk; apply Hf; lia). done.
Qed.

Lemma concat_chunks_take table B j :
  concat (chunk table B <$> seq 0 j) = take (j * B) table.
Proof.
  induction j as [|j IH]; [done|].
  rewrite seq_S, fmap_app, concat_app, IH. simpl. rewrite app_nil_r.
  unfold chunk. rewrite take_take_drop. f_equal. lia.
Qed.

Lemma length_chunk_min table B k :
  length (chunk table B k) = B `min` (length table - k * B).
Proof. unfold chunk. by rewrite length_take, length_drop. Qed.

(** The loop of [write_table] over the rows, for a format of [n] values a
    row: it stops with TypeError at the first row that has not [n]
    values. *)
Lemma rows_written table B n (f : nat → result (list Z)) :
  0 < B → table ≠ [] → n ≤ B →
  (∀ i, f i = if decide (length (take B (drop i table)) = n)
              then Ok (take B (drop i table)) else Raise TypeError) →
  map_result f (py_range3 0 (length table) B) =
    if decide (n = B ∧ length table `mod` B = 0 ∨ length table = n)
    then Ok (chunk table B <$> seq 0 ((length table + (B - 1)) / B))
    else Raise TypeError.
Proof.
  intros HB Hne Hn Hf. rewrite py_range3_0.
  assert (Hlen : 0 < length table) by (destruct table; [done|simpl; lia]).
  pose proof (Nat.div_mod_eq (length table) B) as Hdm.
  pose proof (Nat.mod_upper_bound (length table) B ltac:(lia)) as Hr.
  pose proof (py_range3_count (length table) B HB) as Hcnt.
  destruct (decide (n = B ∧ length table `mod` B = 0 ∨ length table = n))
    as [Hok|Hok].
  - apply map_result_chunks. intros k Hk. rewrite Hf. fold (chunk table B k).
    rewrite decide_True; [done|]. rewrite length_chunk_min.
    destruct Hok as [[HnB Hmod]|Hl].
    + rewrite Hcnt, decide_True in Hk by done.
      assert (S k * B ≤ length table) by nia. lia.
    + assert (Hone : (length table + (B - 1)) / B = 1).
      { symmetry. apply (Nat.div_unique _ _ _ (length table - 1)); lia. }
      rewrite Hone in Hk. assert (k = 0) as -> by lia. lia.
  - assert (Hall : ∀ x', x' ∈ (λ k, k * B) <$> seq 0 ((length table + (B - 1)) / B) →
              (∃ y, f x' = Ok y) ∨ f x' = Raise TypeError).
    { intros i _. rewrite Hf.
      destruct (decide (length (take B (drop i table)) = n));
        [left; eexists; reflexivity|right; reflexivity]. }
    destruct (decide (B `min` length table = n)) as [Hmin|Hmin].
    + assert (HnB : n = B) by lia.
      assert (Hmod : length table `mod` B ≠ 0) by (intros Hz; apply Hok; by left).
      apply (map_result_Raise _ _ (length table / B * B)); [| |done].
      * apply list_elem_of_fmap. exists (length table / B). split; [done|].
        apply elem_of_seq. rewrite Hcnt, decide_False by done. lia.
      * rewrite Hf. fold (chunk table B (length table / B)).
        rewrite decide_False; [done|]. rewrite length_chunk_min. lia.
    + apply (map_result_Raise _ _ (0 * B)); [| |done].
      * apply list_elem_of_fmap. exists 0. split; [done|].
        apply elem_of_seq. rewrite Hcnt. case_decide; [|lia].
        destruct (length table / B); lia.
      * rewrite Hf. fold (chunk table B 0).
        rewrite decide_False; [done|]. rewrite length_chunk_min. lia.
Qed.

Lemma get_type_size_nonempty table ty :
  get_type_size table = Ok ty → table ≠ [].
Proof. by intros Hty ->. Qed.

(** The conversions of the format of a row. *)
Lemma row_width_le (b : nat) :
  (if decide (16 < b) then 16 * (b / 16) else b) ≤ b.
Proof.
  case_decide; [|done]. pose proof (Nat.div_mod_eq b 16). lia.
Qed.

Lemma write_table_cases table (block_size : option nat) ty :
  get_type_size table = Ok ty →
  let B := default 16 block_size in
  let n := match block_size with
           | Some b => if decide (16 < b) then 16 * (b / 16) else b
           | None => 16
           end in
  B ≠ 0 →
  write_table table block_size =
    if decide (n = B ∧ length table `mod` B = 0 ∨ length table = n)
    then Ok ((ty.2 * Z.of_nat (length table))%Z,
             chunk table B <$> seq 0 ((length table + (B - 1)) / B))
    else Raise TypeError.
Proof.
  intros Hty B n HB. subst B n.
  pose proof (get_type_size_nonempty _ _ Hty) as Hne.
  unfold write_table. rewrite Hty, bind_Ok.
  destruct block_size as [b|]; simpl in HB; cbv zeta.
  - rewrite decide_False by done.
    rewrite (rows_written table b (if decide (16 < b) then 16 * (b / 16) else b));
      [| lia | done | apply row_width_le |].
    + by destruct (decide (_ ∨ _)).
    + intros i. unfold py_format.
      destruct (decide (16 < b)); repeat case_decide; try done; lia.
  - rewrite (rows_written table 16 16); [| lia | done | done |].
    + by destruct (decide (_ ∨ _)).
    + intros i. unfold py_format. repeat case_decide; try done; lia.
Qed.

(** A table made of whole rows is written, row after row. *)
Lemma write_table_whole table (block_size : option nat) ty :
  get_type_size table = Ok ty →
  let B := default 16 block_size in
  B ≠ 0 → (B ≤ 16 ∨ B `mod` 16 = 0) → length table `mod` B = 0 →
  ∃ rows,
    write_table table block_size = Ok ((ty.2 * Z.of_nat (length table))%Z, rows) ∧
    length rows = length table / B ∧
    Forall (λ row, length row = B) rows ∧
    concat rows = table.
Proof.
  intros Hty B HB HB16 Hmod.
  pose proof (write_table_cases table block_size ty Hty) as Hcases.
  cbv zeta in Hcases. fold B in Hcases. rewrite Hcases by done.
  rewrite decide_True.
  - eexists. split; [done|].
    rewrite py_range3_count, decide_True by (done || lia).
    split; [by rewrite length_fmap, length_seq|]. split.
    + apply Forall_fmap, Forall_forall. intros k Hk%elem_of_seq. simpl.
      apply length_chunk. pose proof (Nat.div_mod_eq (length table) B). nia.
    + rewrite concat_chunks_take. apply take_ge.
      pose proof (Nat.div_mod_eq (length table) B). lia.
  - left. split; [|done]. subst B. destruct block_size as [b|]; [|done].
    change (default 16 (Some b)) with b in *.
    destruct (decide (16 < b)); [|done].
    pose proof (Nat.div_mod_eq b 16). lia.
Qed.

(** X21. What [write_table] writes, for a table that [get_type_size]
    gives a type: a block size of 0 is refused with ValueError, the zero
    step of [range]; rows are of 16 entries without a block size and of
    [block_size] entries with one; a table made of whole rows, with a block
    size that is at most 16 or a multiple of 16, is written row after row,
    each row full, the rows together the table, under a heading with the
    width of the type times the length; a table with as many entries as the
    format of a row has conversions is written as one row; any other table
    makes the format raise TypeError. *)
Theorem write_table_rows (table : list Z) (block_size : option nat)
    (ty : string * Z) :
  get_type_size table = Ok ty →
  let B := default 16 block_size in
  let n := match block_size with
           | Some b => if decide (16 < b) then 16 * (b / 16) else b
           | None => 16
           end in
  let bytes := (ty.2 * Z.of_nat (length table))%Z in
  (B = 0 → write_table table block_size = Raise ValueError) ∧
  (B ≠ 0 → B ≤ 16 ∨ B `mod` 16 = 0 → length table `mod` B = 0 →
     ∃ rows, write_table table block_size = Ok (bytes, rows) ∧
       length rows = length table / B ∧
       Forall (λ row, length row = B) rows ∧
       concat rows = table) ∧
  (length table = n → write_table table block_size = Ok (bytes, [table])) ∧
  (B ≠ 0 → ¬ (n = B ∧ length table `mod` B = 0) → length table ≠ n →
     write_table table block_size = Raise TypeError).
Proof.
  intros Hty B n bytes.
  pose proof (get_type_size_nonempty _ _ Hty) as Hne.
  assert (Hlen : 0 < length table) by (destruct table; [done|simpl; lia]).
  pose proof (write_table_cases table block_size ty Hty) as Hcases.
  cbv zeta in Hcases. fold B n bytes in Hcases.
  split; [|split; [|split]].
  - intros HB. unfold B in HB. destruct block_size as [b|]; [|done].
    simpl in HB. rewrite HB. unfold write_table. by rewrite Hty, bind_Ok.
  - intros HB HB16 Hmod.
    exact (write_table_whole table block_size ty Hty HB HB16 Hmod).
  - intros Hl.
    assert (HnB : n ≤ B).
    { unfold n, B. destruct block_size as [b|]; [apply row_width_le|done]. }
    clearbody n B. rewrite Hcases by lia. rewrite decide_True by (by right).
    assert (Hone : (length table + (B - 1)) / B = 1).
    { symmetry. apply (Nat.div_unique _ _ _ (length table - 1)); lia. }
    rewrite Hone. simpl. unfold chunk. rewrite drop_0, take_ge by lia. done.
  - intros HB Hno Hl. rewrite Hcases by done.
    rewrite decide_False; [done|]. intros [?|?]; tauto.
Qed.

End write_table_facts.

Section write_stages.

(** X22. The two stages are written: on an index made of whole blocks of
    8192 = 16 * 512, with values and length within 32 bits and a total below
    [sys.maxsize], the search returns and both calls of [write_table]
    return, for the first stage without a block size and for the second
    with the block size retained; the first stage goes out in full rows of
    16 and the second in full rows of the block size, nothing left out; and
    the total size retained is the size of the records plus the two numbers
    of bytes in the headings of the stages. *)
Theorem stage_tables_written (nrecords : nat) (record_size : Z)
    (table : list nat) :
  (length table `mod` (16 * 512) = 0)%nat → table ≠ [] →
  (∀ x, x ∈ table → Z.of_nat x ≤ 4294967295) →
  Z.of_nat (length table) ≤ 4294967296 →
  Z.of_nat nrecords * record_size + 8 * Z.of_nat (length table) < sys_maxsize →
  ∃ st stage1 stage2 B bytes1 bytes2 rows1 rows2,
    find_block_size nrecords record_size table = Ok st ∧
    min_tables st = Some (stage1, stage2, B) ∧
    write_table (Z.of_nat <$> stage1) None = Ok (bytes1, rows1) ∧
    write_table (Z.of_nat <$> stage2) (Some B) = Ok (bytes2, rows2) ∧
    Forall (λ row, length row = 16%nat) rows1 ∧
    Forall (λ row, length row = B) rows2 ∧
    concat rows1 = Z.of_nat <$> stage1 ∧
    concat rows2 = Z.of_nat <$> stage2 ∧
    min_size st = Z.of_nat nrecords * record_size + bytes1 + bytes2.
Proof.
  intros Hmod Hne Hval Hlen Hsize.
  assert (Hmod512 : (length table `mod` 512 = 0)%nat).
  { apply Nat.Lcm0.mod_divide. apply Nat.Lcm0.mod_divide in Hmod.
    etrans; [|exact Hmod]. by exists 16%nat. }
  destruct (find_block_size_returns nrecords record_size table
              Hmod512 Hne Hval Hlen Hsize) as (st & stage1 & stage2 & B & Hfind & Hmin).
  destruct (search_inv _ _ _ _ _ _ Hfind) as [_ Hbest].
  destruct Hbest as [->|(p & B2 & [sz [s1 s2]] & Hp & Htot & -> & _)];
    simpl in Hmin; [done|].
  injection Hmin as <- <- <-.
  destruct (total_size_formula _ _ _ _ _ Htot) as (ty1 & ty2 & Hcomp & Hty1 & Hty2 & Hsz).
  simpl in Hcomp, Hty1, Hty2, Hsz.
  apply block_sizes_lookup in Hp as [HB2 Hp].
  assert (HB : (0 < B2)%nat).
  { rewrite HB2. apply Nat.neq_0_lt_0, Nat.pow_nonzero. lia. }
  assert (HB16 : (B2 `mod` 16 = 0)%nat).
  { apply Nat.Lcm0.mod_divide. exists (2 ^ (1 + p))%nat.
    rewrite HB2. change 16%nat with (2 ^ 4)%nat.
    rewrite <- Nat.pow_add_r. f_equal. lia. }
  assert (Hq : ∃ q, length table = (q * 16 * B2)%nat) .
  { apply Nat.Lcm0.mod_divide in Hmod as [k Hk]. exists (k * 2 ^ (4 - p))%nat.
    rewrite Hk, HB2.
    replace (k * 2 ^ (4 - p) * 16 * 2 ^ (5 + p))%nat
      with (k * (2 ^ (4 - p) * 2 ^ 4 * 2 ^ (5 + p)))%nat by (simpl; lia).
    rewrite <- !Nat.pow_add_r. f_equal.
    replace (4 - p + 4 + (5 + p))%nat with 13%nat by lia. done. }
  destruct Hq as [q Hq].
  assert (HBmod : (length table `mod` B2 = 0)%nat).
  { apply Nat.Lcm0.mod_divide. exists (q * 16)%nat. done. }
  assert (Hdiv : (length table / B2 = q * 16)%nat).
  { rewrite Hq. apply Nat.div_mul. lia. }
  rewrite (compress_table_whole table B2 HB HBmod) in Hcomp.
  injection Hcomp as Hs1 Hs2.
  pose proof (compress_inv table B2 (length table / B2) HB) as Hinv.
  destruct (compress_after table B2 (length table / B2)) as [[blocks st1] st2].
  simpl in Hs1, Hs2. subst st1 st2.
  destruct Hinv as (Hl1 & (nb & Hnb & _) & _).
  { pose proof (Nat.div_mod_eq (length table) B2). lia. }
  pose proof (write_table_whole (Z.of_nat <$> s1) None ty1 Hty1) as Hw1.
  pose proof (write_table_whole (Z.of_nat <$> s2) (Some B2) ty2 Hty2) as Hw2.
  cbv zeta in Hw1, Hw2.
  change (default 16%nat None) with 16%nat in Hw1.
  change (default 16%nat (Some B2)) with B2 in Hw2.
  rewrite length_fmap in Hw1, Hw2.
  destruct Hw1 as (rows1 & Hrows1 & _ & Hall1 & Hcat1); [done|by left| |].
  { rewrite Hl1, Hdiv. apply Nat.Lcm0.mod_divide. by exists q. }
  destruct Hw2 as (rows2 & Hrows2 & _ & Hall2 & Hcat2); [lia|by right| |].
  { rewrite Hnb. apply Nat.Lcm0.mod_divide. by exists nb. }
  eexists _, s1, s2, B2, _, _, rows1, rows2.
  split; [done|]. split; [done|]. split; [done|]. split; [done|].
  split; [done|]. split; [done|]. split; [done|]. split; [done|].
  simpl. rewrite Hsz. lia.
Qed.

End write_stages.

(** * The theorems at concrete inputs *)

Section instances.

Lemma get_type_size_narrowest_witness :
  ([-1; 200] : list Z) ≠ [] ∧
  ∃ k ty, get_type_size [-1; 200] = Ok ty ∧ type_size !! k = Some ty ∧
    fits k [-1; 200] ∧ (∀ j, (j < k)%nat → ¬ fits j [-1; 200]) ∧
    (∀ j tyj, fits j [-1; 200] → type_size !! j = Some tyj → ty.2 ≤ tyj.2).
Proof.
  assert (Hne : ([-1; 200] : list Z) ≠ []) by done.
  split; [exact Hne|].
  apply (proj1 (get_type_size_narrowest [-1; 200] Hne)).
  exists 4%nat, (-32768), 32767. split; [reflexivity|].
  intros x Hx. rewrite !elem_of_cons, elem_of_nil in Hx. lia.
Defined.

Lemma compress_table_structure_witness :
  (0 < 2)%nat ∧ (length [1; 1; 2; 2; 1; 1]%nat `mod` 2 = 0)%nat ∧
  ∃ stage1 stage2,
    compress_table [1; 1; 2; 2; 1; 1]%nat 2 = Ok (stage1, stage2) ∧
    length stage1 = 3%nat.
Proof.
  assert (H0 : (0 < 2)%nat) by lia.
  assert (H1 : (length [1; 1; 2; 2; 1; 1]%nat `mod` 2 = 0)%nat) by reflexivity.
  split; [exact H0|]. split; [exact H1|].
  destruct (compress_table_structure [1; 1; 2; 2; 1; 1]%nat 2 H0 H1)
    as (stage1 & stage2 & Hc & Hl & _).
  exists stage1, stage2. split; [exact Hc|exact Hl].
Defined.

Lemma block_size_search_optimal_witness :
  find_block_size 3 12 [0; 1; 0; 2]%nat =
    Ok (SearchState 41 (Some ([0]%nat, [0; 1; 0; 2]%nat, 32%nat))) ∧
  (32%nat ∈ block_sizes) ∧
  ∀ B', B' ∈ block_sizes →
    ∃ r, total_size 3 12 [0; 1; 0; 2]%nat B' = Ok r ∧
      41 ≤ r.1 ∧ (r.1 = 41 → (32 ≤ B')%nat).
Proof.
  assert (H : find_block_size 3 12 [0; 1; 0; 2]%nat =
              Ok (SearchState 41 (Some ([0]%nat, [0; 1; 0; 2]%nat, 32%nat))))
    by (vm_compute; reflexivity).
  split; [exact H|].
  destruct (block_size_search_optimal _ _ _ _ H) as (_ & _ & Hbest).
  destruct (Hbest _ _ _ eq_refl) as (Hin & _ & Hall).
  split; [exact Hin|exact Hall].
Defined.

Lemma two_stage_round_trip_witness :
  find_block_size (length (combine_tables [[5; 6; 5; 7]; [1; 1; 1; 1]]).2) 12
      (combine_tables [[5; 6; 5; 7]; [1; 1; 1; 1]]).1 =
    Ok (SearchState 41 (Some ([0]%nat, [0; 1; 0; 2]%nat, 32%nat))) ∧
  (2 < length (combine_tables [[5; 6; 5; 7]; [1; 1; 1; 1]]%Z).1)%nat ∧
  ∃ i row,
    two_stage_lookup [0]%nat [0; 1; 0; 2]%nat 32 2 = Some i ∧
    zip_star [[5; 6; 5; 7]; [1; 1; 1; 1]] !! 2%nat = Some row ∧
    records_get (combine_tables [[5; 6; 5; 7]; [1; 1; 1; 1]]).2 row = Some i.
Proof.
  assert (H : find_block_size
                (length (combine_tables [[5; 6; 5; 7]; [1; 1; 1; 1]]).2) 12
                (combine_tables [[5; 6; 5; 7]; [1; 1; 1; 1]]).1 =
              Ok (SearchState 41 (Some ([0]%nat, [0; 1; 0; 2]%nat, 32%nat))))
    by (vm_compute; reflexivity).
  assert (Hc : (2 < length (combine_tables [[5; 6; 5; 7]; [1; 1; 1; 1]]%Z).1)%nat)
    by (vm_compute; lia).
  split; [exact H|]. split; [exact Hc|].
  destruct (two_stage_round_trip [[5; 6; 5; 7]; [1; 1; 1; 1]] 12 _ _ _ _
              H eq_refl 2%nat Hc) as (i & row & H1 & _ & H3 & _ & H5 & _).
  exists i, row. split; [exact H1|]. split; [exact H3|exact H5].
Defined.

Lemma bool_props_full_dedup_witness :
  length [[1; 2]; []; [2; 1; 1]; [3]]%nat = 4%nat ∧
  ∃ lists bool_props,
    make_bool_props 4 [[1; 2]; []; [2; 1; 1]; [3]]%nat 127 = Ok (lists, bool_props) ∧
    lists !! 0%nat = Some [].
Proof.
  assert (H : length [[1; 2]; []; [2; 1; 1]; [3]]%nat = 4%nat) by reflexivity.
  split; [exact H|].
  destruct (proj1 (bool_props_full_dedup 4 [[1; 2]; []; [2; 1; 1]; [3]]%nat 127 H))
    as (lists & bool_props & Hrun & _ & _ & _ & _ & H0 & _).
  exists lists, bool_props. split; [exact Hrun|exact H0].
Defined.

Lemma make_digitsets_runs_witness :
  (∀ first last, (first, last) ∈ [(0x30, 0x39); (0x660, 0x669)] →
     (last - first + 1) `mod` 10 = 0) ∧
  ∃ digitsets,
    make_digitsets [(0x30, 0x39); (0x660, 0x669)] = Ok digitsets ∧
    Sorted Z.le digitsets.
Proof.
  assert (H : ∀ first last, (first, last) ∈ [(0x30, 0x39); (0x660, 0x669)] →
                (last - first + 1) `mod` 10 = 0).
  { intros first last Hin. rewrite !elem_of_cons, elem_of_nil in Hin.
    destruct Hin as [Heq|[Heq|[]]]; injection Heq as -> ->; reflexivity. }
  split; [exact H|].
  destruct (make_digitsets_runs _ H) as (digitsets & Hrun & _ & _ & Hs & _).
  exists digitsets. split; [exact Hrun|exact Hs].
Defined.

Lemma caseless_sets_sound_witness :
  fold_idempotent 4 [0; 1; 0; -1] ∧
  ∃ other_case sets caseless_offsets table,
    caseless 4 [0; 1; 0; -1] = Ok (other_case, sets, caseless_offsets, table) ∧
    pairwise_disjoint sets.
Proof.
  assert (H : fold_idempotent 4 [0; 1; 0; -1]).
  { split; [reflexivity|].
    intros c d Hd Hnz.
    destruct c as [|[|[|[|c]]]]; simpl in Hd; try discriminate Hd;
      injection Hd as <-; try (exfalso; apply Hnz; reflexivity).
    - exists 2%nat. split; reflexivity.
    - exists 2%nat. split; reflexivity. }
  split; [exact H|].
  destruct (caseless_sets_sound 4 [0; 1; 0; -1] H)
    as (oc & sets & co & table & Hrun & Hdisj & _).
  exists oc, sets, co, table. split; [exact Hrun|exact Hdisj].
Defined.

End instances.

Section more_instances.

Lemma compress_table_no_duplicate_block_witness :
  (0 < 2)%nat ∧ (length [1; 1; 2; 2; 1; 1]%nat `mod` 2 = 0)%nat ∧
  ∃ stage1 stage2,
    compress_table [1; 1; 2; 2; 1; 1]%nat 2 = Ok (stage1, stage2) ∧
    ∀ s, (s < length stage2 / 2)%nat →
      ∃ i, stage1 !! i = Some s ∧
        chunk [1; 1; 2; 2; 1; 1]%nat 2 i = take 2 (drop (s * 2) stage2).
Proof.
  assert (H0 : (0 < 2)%nat) by lia.
  assert (H1 : (length [1; 1; 2; 2; 1; 1]%nat `mod` 2 = 0)%nat) by reflexivity.
  split; [exact H0|]. split; [exact H1|].
  destruct (compress_table_no_duplicate_block [1; 1; 2; 2; 1; 1]%nat 2 H0 H1)
    as (stage1 & stage2 & Hc & _ & Hused).
  exists stage1, stage2. split; [exact Hc|exact Hused].
Defined.

Lemma get_type_size_monotone_witness :
  ([200] : list Z) ≠ [] ∧
  (∀ x, x ∈ [200] → x ∈ [-1; 200]) ∧
  get_type_size [-1; 200] = Ok ("int16_t"%string, 2) ∧
  ∃ ty', get_type_size [200] = Ok ty' ∧ ty'.2 ≤ 2.
Proof.
  assert (H0 : ([200] : list Z) ≠ []) by done.
  assert (H1 : ∀ x, x ∈ [200] → x ∈ [-1; 200]).
  { intros x Hx. apply elem_of_cons. right. exact Hx. }
  assert (H2 : get_type_size [-1; 200] = Ok ("int16_t"%string, 2))
    by (vm_compute; reflexivity).
  split; [exact H0|]. split; [exact H1|]. split; [exact H2|].
  exact (get_type_size_monotone [-1; 200] [200] _ H0 H1 H2).
Defined.

Lemma get_record_size_struct_layout_witness :
  get_record_size_struct [[1; 70000; 2]; [5; -3; 3]] = Ok 9 ∧
  ∃ record0 ty0 tys,
    [[1; 70000; 2]; [5; -3; 3]] !! 0%nat = Some record0 ∧
    tys !! 0%nat = Some ty0 ∧ widths_sum tys ≤ 9 ∧ 9 `mod` ty0.2 = 0.
Proof.
  assert (H : get_record_size_struct [[1; 70000; 2]; [5; -3; 3]] = Ok 9)
    by (vm_compute; reflexivity).
  split; [exact H|].
  destruct (get_record_size_struct_layout _ _ H)
    as (record0 & ty0 & tys & H0 & H1 & _ & _ & H2 & H3 & _).
  exists record0, ty0, tys. split; [exact H0|]. split; [exact H1|].
  split; [exact H2|exact H3].
Defined.

Lemma write_bitsets_decode_witness :
  (∀ d idx, d ∈ [[]; [0; 33]; [5]]%nat → idx ∈ d → (idx < 32 * 2)%nat) ∧
  ∃ rows, write_bitsets [[]; [0; 33]; [5]]%nat 2 = Ok rows ∧
    Forall2 (λ d words, ∀ idx, idx ∈ d ↔ bit_set words idx)
      [[]; [0; 33]; [5]]%nat rows.
Proof.
  assert (H : ∀ d idx, d ∈ [[]; [0; 33]; [5]]%nat → idx ∈ d → (idx < 32 * 2)%nat).
  { intros d idx Hd Hidx. rewrite !elem_of_cons, elem_of_nil in Hd.
    destruct Hd as [-> | [-> | [-> | []]]];
      rewrite ?elem_of_cons, elem_of_nil in Hidx; lia. }
  split; [exact H|].
  destruct (write_bitsets_decode _ _ H) as (rows & Hrows & Hall).
  exists rows. split; [exact Hrows|].
  eapply Forall2_impl; [exact Hall|]. intros d words (_ & _ & Hdec). exact Hdec.
Defined.

Lemma write_bitsets_out_of_range_witness :
  ([40]%nat ∈ [[1]; [40]]%nat) ∧ (40%nat ∈ [40]%nat) ∧ (32 * 1 ≤ 40)%nat ∧
  write_bitsets [[1]; [40]]%nat 1 = Raise IndexError.
Proof.
  assert (H0 : [40]%nat ∈ [[1]; [40]]%nat)
    by (apply elem_of_cons; right; apply elem_of_cons; left; reflexivity).
  assert (H1 : 40%nat ∈ [40]%nat) by (apply elem_of_cons; left; reflexivity).
  assert (H2 : (32 * 1 ≤ 40)%nat) by lia.
  split; [exact H0|]. split; [exact H1|]. split; [exact H2|].
  exact (write_bitsets_out_of_range _ _ _ _ H0 H1 H2).
Defined.

Lemma names_table_decode_witness :
  read_table 4 (make_get_names ["A"; "B"]%string) 0%nat
      [(1, 2, "B"%string)]%nat () = Ok ((), [0; 1; 1; 0]%nat) ∧
  ∃ char last name,
    (char, last, name) ∈ [(1, 2, "B"%string)]%nat ∧ (char ≤ 2 ≤ last)%nat ∧
    ["A"; "B"]%string !! 1%nat = Some name.
Proof.
  assert (H : read_table 4 (make_get_names ["A"; "B"]%string) 0%nat
                [(1, 2, "B"%string)]%nat () = Ok ((), [0; 1; 1; 0]%nat))
    by (vm_compute; reflexivity).
  split; [exact H|].
  destruct (names_table_decode _ _ _ _ _ _ H) as (_ & _ & _ & Hdec).
  destruct (Hdec 2%nat 1%nat eq_refl ltac:(lia))
    as (char & last & name & Hl & Hc & Hn & _).
  exists char, last, name. split; [exact Hl|]. split; [exact Hc|exact Hn].
Defined.

Lemma make_scriptx_decode_witness :
  make_scriptx 4 ["Latn"; "Grek"; "Cyrl"]%string 1
      [(1, 2, "Latn Grek"); (3, 3, "Latn Grek"); (0, 0, "Cyrl")]%string%nat
    = Ok (([[]; [0; 1]; [2]]%nat, "Cyrl"%string), [2; 1; 1; 1]) ∧
  ∃ j ids, (1 ≤ j)%nat ∧ 1 = Z.of_nat (j * 1) ∧
    [[]; [0; 1]; [2]]%nat !! j = Some ids.
Proof.
  assert (H : make_scriptx 4 ["Latn"; "Grek"; "Cyrl"]%string 1
                [(1, 2, "Latn Grek"); (3, 3, "Latn Grek"); (0, 0, "Cyrl")]%string%nat
              = Ok (([[]; [0; 1]; [2]]%nat, "Cyrl"%string), [2; 1; 1; 1]))
    by (vm_compute; reflexivity).
  split; [exact H|].
  destruct (make_scriptx_decode _ _ _ _ _ _ _ H 3%nat 1 eq_refl ltac:(lia))
    as (j & char & last & d & ids & _ & _ & Hv & Hj & Hids & _).
  exists j, ids. split; [exact Hj|]. split; [exact Hv|exact Hids].
Defined.

Lemma script_sets_decode_witness :
  make_scriptx 4 ["Latn"; "Grek"; "Cyrl"]%string 1
      [(1, 2, "Latn Grek"); (3, 3, "Latn Grek"); (0, 0, "Cyrl")]%string%nat
    = Ok (([[]; [0; 1]; [2]]%nat, "Cyrl"%string), [2; 1; 1; 1]) ∧
  write_bitsets [[]; [0; 1]; [2]]%nat 1 = Ok [[0]; [3]; [4]] ∧
  ∃ char last chardata1,
    (char, last, chardata1) ∈
      [(1, 2, "Latn Grek"); (3, 3, "Latn Grek"); (0, 0, "Cyrl")]%string%nat ∧
    (char ≤ 0 ≤ last)%nat ∧
    ∀ idx,
      bit_set (take 1 (drop (Z.to_nat 2) (concat [[0]; [3]; [4]]))) idx
      ↔ ∃ abbrev, abbrev ∈ py_split_space chardata1 EmptyString ∧
          py_list_index ["Latn"; "Grek"; "Cyrl"]%string abbrev = Ok idx.
Proof.
  assert (H : make_scriptx 4 ["Latn"; "Grek"; "Cyrl"]%string 1
                [(1, 2, "Latn Grek"); (3, 3, "Latn Grek"); (0, 0, "Cyrl")]%string%nat
              = Ok (([[]; [0; 1]; [2]]%nat, "Cyrl"%string), [2; 1; 1; 1]))
    by (vm_compute; reflexivity).
  assert (Hw : write_bitsets [[]; [0; 1]; [2]]%nat 1 = Ok [[0]; [3]; [4]])
    by (vm_compute; reflexivity).
  split; [exact H|]. split; [exact Hw|].
  destruct (script_sets_decode _ _ _ _ _ _ _ _ H Hw 0%nat 2 eq_refl ltac:(lia))
    as (char & last & d & Hl & Hc & _ & Hbits).
  exists char, last, d. split; [exact Hl|]. split; [exact Hc|exact Hbits].
Defined.

Lemma boolprop_sets_decode_witness :
  length [[1; 2]; []; [2; 1; 1]; [3]]%nat = 4%nat ∧
  make_bool_props 4 [[1; 2]; []; [2; 1; 1]; [3]]%nat 127
    = Ok ([[]; [1; 2]; [3]]%nat, [1; 0; 1; 2]%nat) ∧
  write_bitsets [[]; [1; 2]; [3]]%nat 1 = Ok [[0]; [6]; [8]] ∧
  ∃ k, [1; 0; 1; 2]%nat !! 2%nat = Some k ∧
    ∀ idx, bit_set (take 1 (drop (k * 1) (concat [[0]; [6]; [8]]))) idx
           ↔ idx ∈ [2; 1; 1]%nat.
Proof.
  assert (H0 : length [[1; 2]; []; [2; 1; 1]; [3]]%nat = 4%nat) by reflexivity.
  assert (H1 : make_bool_props 4 [[1; 2]; []; [2; 1; 1]; [3]]%nat 127
               = Ok ([[]; [1; 2]; [3]]%nat, [1; 0; 1; 2]%nat))
    by (vm_compute; reflexivity).
  assert (H2 : write_bitsets [[]; [1; 2]; [3]]%nat 1 = Ok [[0]; [6]; [8]])
    by (vm_compute; reflexivity).
  split; [exact H0|]. split; [exact H1|]. split; [exact H2|].
  exact (boolprop_sets_decode _ _ _ _ _ _ _ H0 H1 H2 2%nat [2; 1; 1]%nat eq_refl).
Defined.

Lemma collect_bprops_spec_witness :
  collect_bprops 128 ["ASCII"; "Alphabetic"; "Bidi_Mirrored"]%string
      [(65, 66, "Alphabetic"); (70, 70, "Unknown_Property")]%string%nat [40]%nat
    = Ok (replicate 40 [0] ++ [[0; 2]] ++ replicate 24 [0] ++
          [[1; 0]; [1; 0]] ++ replicate 61 [0])%nat ∧
  (has_prop (replicate 40 [0] ++ [[0; 2]] ++ replicate 24 [0] ++
             [[1; 0]; [1; 0]] ++ replicate 61 [0])%nat 70 1 ↔
   (∃ char last name,
      (char, last, name) ∈
        [(65, 66, "Alphabetic"); (70, 70, "Unknown_Property")]%string%nat ∧
      (char ≤ 70 ≤ last)%nat ∧
      py_list_index ["ASCII"; "Alphabetic"; "Bidi_Mirrored"]%string name = Ok 1%nat) ∨
   ((70 < 128)%nat ∧
    py_list_index ["ASCII"; "Alphabetic"; "Bidi_Mirrored"]%string "ASCII"
      = Ok 1%nat) ∨
   (70%nat ∈ [40]%nat ∧
    py_list_index ["ASCII"; "Alphabetic"; "Bidi_Mirrored"]%string "Bidi_Mirrored"
      = Ok 1%nat)).
Proof.
  assert (H : collect_bprops 128 ["ASCII"; "Alphabetic"; "Bidi_Mirrored"]%string
                [(65, 66, "Alphabetic"); (70, 70, "Unknown_Property")]%string%nat
                [40]%nat
              = Ok (replicate 40 [0] ++ [[0; 2]] ++ replicate 24 [0] ++
                    [[1; 0]; [1; 0]] ++ replicate 61 [0])%nat)
    by (vm_compute; reflexivity).
  split; [exact H|].
  destruct (collect_bprops_spec _ _ _ _ _ H) as (_ & _ & _ & Hprop).
  exact (Hprop 70%nat 1%nat).
Defined.

Lemma bool_props_catalogue_entries_witness :
  length [[1; 2]; []; [2; 1; 1]; [3]]%nat = 4%nat ∧
  ∃ lists bool_props,
    make_bool_props 4 [[1; 2]; []; [2; 1; 1]; [3]]%nat 127 = Ok (lists, bool_props) ∧
    (length lists ≤ 5)%nat.
Proof.
  assert (H : length [[1; 2]; []; [2; 1; 1]; [3]]%nat = 4%nat) by reflexivity.
  split; [exact H|].
  destruct (bool_props_catalogue_entries 4 [[1; 2]; []; [2; 1; 1]; [3]]%nat 127 H)
    as (lists & bool_props & Hrun & Hlen & _).
  exists lists, bool_props. split; [exact Hrun|exact Hlen].
Defined.

Lemma repair_closes_pairs_witness :
  closed_table 6 [0; 1; 1; 1; 0; 0] ∧
  ∃ other_case sets,
    make_caseless_sets 6 [0; 1; 1; 1; 0; 0] = Ok (other_case, sets) ∧
    pairs_closed other_case ∧
    make_caseless_sets 6 other_case = Ok (other_case, sets).
Proof.
  assert (H : closed_table 6 [0; 1; 1; 1; 0; 0]).
  { split; [reflexivity|]. intros c d Hd.
    repeat (destruct c as [|c]; [injection Hd as <-; lia|]). discriminate Hd. }
  split; [exact H|].
  destruct (repair_closes_pairs 6 [0; 1; 1; 1; 0; 0] H)
    as (T & sets & Hrun & _ & _ & _ & Hpairs & Hagain).
  exists T, sets. split; [exact Hrun|]. split; [exact Hpairs|exact Hagain].
Defined.

Lemma caseless_sets_shape_witness :
  closed_table 6 [0; 1; 1; 1; 0; 0] ∧
  ∃ other_case sets,
    make_caseless_sets 6 [0; 1; 1; 1; 0; 0] = Ok (other_case, sets) ∧
    ∀ s, s ∈ sets → set_shape 6 other_case s.
Proof.
  assert (H : closed_table 6 [0; 1; 1; 1; 0; 0]).
  { split; [reflexivity|]. intros c d Hd.
    repeat (destruct c as [|c]; [injection Hd as <-; lia|]). discriminate Hd. }
  split; [exact H|].
  destruct (caseless_sets_shape 6 [0; 1; 1; 1; 0; 0] H)
    as (T & sets & Hrun & Hshape & _).
  exists T, sets. split; [exact Hrun|exact Hshape].
Defined.

Lemma caseless_offsets_lead_to_member_witness :
  closed_table 6 [0; 1; 1; 1; 0; 0] ∧
  ∃ other_case sets caseless_offsets table,
    caseless 6 [0; 1; 1; 1; 0; 0] = Ok (other_case, sets, caseless_offsets, table) ∧
    length caseless_offsets = 6%nat ∧ table !! 0%nat = Some NOTACHAR.
Proof.
  assert (H : closed_table 6 [0; 1; 1; 1; 0; 0]).
  { split; [reflexivity|]. intros c d Hd.
    repeat (destruct c as [|c]; [injection Hd as <-; lia|]). discriminate Hd. }
  split; [exact H|].
  destruct (caseless_offsets_lead_to_member 6 [0; 1; 1; 1; 0; 0] H)
    as (T & sets & co & table & Hrun & Hlen & H0 & _).
  exists T, sets, co, table. split; [exact Hrun|]. split; [exact Hlen|exact H0].
Defined.

Lemma emoji_override_effect_witness :
  emoji_override ["Other"; "Control"; "Extended_Pictographic"]%string 0 2
      [(1, 2)]%nat [0; 1; 0; 0]%nat
    = Ok ([0; 2; 2; 0]%nat, [(1%nat, "Control"%string)]) ∧
  ∃ name,
    ["Other"; "Control"; "Extended_Pictographic"]%string !! 1%nat = Some name ∧
    (1%nat, name) ∈ [(1%nat, "Control"%string)].
Proof.
  assert (H : emoji_override ["Other"; "Control"; "Extended_Pictographic"]%string
                0 2 [(1, 2)]%nat [0; 1; 0; 0]%nat
              = Ok ([0; 2; 2; 0]%nat, [(1%nat, "Control"%string)]))
    by (vm_compute; reflexivity).
  split; [exact H|].
  destruct (emoji_override_effect _ _ _ _ _ _ _ H) as (_ & _ & _ & _ & _ & Hwarn).
  apply (Hwarn 1%nat 1%nat (1, 2)%nat).
  - apply elem_of_cons. left. reflexivity.
  - simpl. lia.
  - reflexivity.
  - lia.
Defined.

Lemma block_size_search_returns_witness :
  (length (replicate 512 7%nat) `mod` 512 = 0)%nat ∧
  ∃ st stage1 stage2 B,
    find_block_size 3 12 (replicate 512 7%nat) = Ok st ∧
    min_tables st = Some (stage1, stage2, B) ∧ B ∈ block_sizes.
Proof.
  assert (H1 : (length (replicate 512 7%nat) `mod` 512 = 0)%nat)
    by (vm_compute; reflexivity).
  assert (H2 : replicate 512 7%nat ≠ []) by discriminate.
  assert (H3 : ∀ x, x ∈ replicate 512 7%nat → Z.of_nat x ≤ 4294967295).
  { intros x Hx. apply elem_of_replicate in Hx as [-> _]. lia. }
  assert (H4 : Z.of_nat (length (replicate 512 7%nat)) ≤ 4294967296)
    by (rewrite length_replicate; lia).
  assert (H5 : Z.of_nat 3 * 12 + 8 * Z.of_nat (length (replicate 512 7%nat))
               < sys_maxsize)
    by (rewrite length_replicate; vm_compute; reflexivity).
  split; [exact H1|].
  destruct (block_size_search_returns 3 12 (replicate 512 7%nat) H1 H2 H3 H4 H5)
    as (st & stage1 & stage2 & B & Hfind & Hmin & HB & _).
  exists st, stage1, stage2, B. split; [exact Hfind|]. split; [exact Hmin|exact HB].
Defined.

Lemma write_table_rows_witness :
  get_type_size (replicate 32 7) = Ok ("uint8_t"%string, 1) ∧
  ∃ rows, write_table (replicate 32 7) None = Ok (32, rows) ∧
    length rows = 2%nat ∧ concat rows = replicate 32 7.
Proof.
  assert (H : get_type_size (replicate 32 7) = Ok ("uint8_t"%string, 1))
    by (vm_compute; reflexivity).
  split; [exact H|].
  destruct (write_table_rows (replicate 32 7) None _ H) as (_ & Hrows & _).
  destruct Hrows as (rows & Hw & Hl & _ & Hc);
    [discriminate|left; reflexivity|reflexivity|].
  exists rows. split; [exact Hw|]. split; [exact Hl|exact Hc].
Defined.

Lemma stage_tables_written_witness :
  (length (replicate (16 * 512) 7%nat) `mod` (16 * 512) = 0)%nat ∧
  ∃ st stage1 stage2 B bytes1 bytes2 rows1 rows2,
    find_block_size 3 12 (replicate (16 * 512) 7%nat) = Ok st ∧
    min_tables st = Some (stage1, stage2, B) ∧
    write_table (Z.of_nat <$> stage1) None = Ok (bytes1, rows1) ∧
    write_table (Z.of_nat <$> stage2) (Some B) = Ok (bytes2, rows2) ∧
    min_size st = Z.of_nat 3 * 12 + bytes1 + bytes2.
Proof.
  assert (H1 : (length (replicate (16 * 512) 7%nat) `mod` (16 * 512) = 0)%nat)
    by (vm_compute; reflexivity).
  assert (H2 : replicate (16 * 512) 7%nat ≠ []) by discriminate.
  assert (H3 : ∀ x, x ∈ replicate (16 * 512) 7%nat → Z.of_nat x ≤ 4294967295).
  { intros x Hx. apply elem_of_replicate in Hx as [-> _]. lia. }
  assert (H4 : Z.of_nat (length (replicate (16 * 512) 7%nat)) ≤ 4294967296)
    by (rewrite length_replicate; lia).
  assert (H5 : Z.of_nat 3 * 12
                 + 8 * Z.of_nat (length (replicate (16 * 512) 7%nat))
               < sys_maxsize)
    by (rewrite length_replicate; vm_compute; reflexivity).
  split; [exact H1|].
  destruct (stage_tables_written 3 12 (replicate (16 * 512) 7%nat) H1 H2 H3 H4 H5)
    as (st & stage1 & stage2 & B & bytes1 & bytes2 & rows1 & rows2 &
        Hfind & Hmin & Hw1 & Hw2 & _ & _ & _ & _ & Hsz).
  exists st, stage1, stage2, B, bytes1, bytes2, rows1, rows2.
  split; [exact Hfind|]. split; [exact Hmin|]. split; [exact Hw1|].
  split; [exact Hw2|exact Hsz].
Defined.

Lemma combine_tables_interning_witness :
  [[1; 2; 1]; [5; 6; 5]] ≠ [] ∧
  (∀ t, t ∈ [[1; 2; 1]; [5; 6; 5]] → length t = 3%nat) ∧
  length (zip_star [[1; 2; 1]; [5; 6; 5]]) = 3%nat ∧
  length (combine_tables [[1; 2; 1]; [5; 6; 5]]).1 = 3%nat ∧
  ∀ i row,
    write_records (reverse (combine_tables [[1; 2; 1]; [5; 6; 5]]).2) !! i
      = Some row →
    row.2 = i ∧
    records_get (combine_tables [[1; 2; 1]; [5; 6; 5]]).2 row.1 = Some i.
Proof.
  assert (H1 : [[1; 2; 1]; [5; 6; 5]] ≠ []) by discriminate.
  assert (H2 : ∀ t, t ∈ [[1; 2; 1]; [5; 6; 5]] → length t = 3%nat).
  { intros t Ht. apply elem_of_cons in Ht as [->|Ht]; [reflexivity|].
    apply elem_of_cons in Ht as [->|Ht]; [reflexivity|].
    by apply elem_of_nil in Ht. }
  split; [exact H1|]. split; [exact H2|].
  destruct (combine_tables_interning [[1; 2; 1]; [5; 6; 5]] 3 H1 H2)
    as (Hrows & _ & Hindex & _ & _ & _ & _ & _ & _ & Hwrite).
  split; [exact Hrows|]. split; [exact Hindex|].
  exact (proj2 (Hwrite _ (reverse_Permutation _))).
Defined.

End more_instances.
